(** * Smith-Waterman with affine gaps: the [SWMatrix] class of
    [src/main.py] and [src/main_2.py]

    The two scripts hold the same class; they differ only in the gap
    recurrences of [fillMatrix], where [main_2.py] replaces the cross term
    (a gap opened right after a gap of the other direction) by the constant
    [-1].  The embedding below follows the methods of the class one by one.

    Modelling conventions.
    - A pandas frame filled by position ([.iat]) is a list of rows, each a
      list of integers.  The seven frames are made by [pd.DataFrame(0, ...)],
      so their cells are NumPy [int64] scalars: a cell is an integer of
      [-2^63, 2^63 - 1], and a sum with a cell is taken modulo [2^64]
      ([wrap64]; NumPy warns and goes on).
    - The similarity table holds integers ([int64] scalars, or Python
      integers) and the two penalties are Python integers ([runSW] passes
      [int(...)]).  Adding a Python integer outside [int64] to a cell raises
      [OverflowError] ([np_add]).
    - Python sequences ([str], [list]) are lists; [l[i]] accepts a negative
      position (counted from the end) and raises [IndexError] outside
      [-len, len).
    - Exceptions are results of the [result] monad.  A [while] loop is run
      with fuel; [OutOfFuel] stands for a loop that did not leave within the
      fuel it was given. *)

From Stdlib Require Import ZArith Ascii String Lia.
From stdpp Require Import base tactics option list numbers strings.

Local Open Scope Z_scope.

(** ** Exceptions and results *)

Inductive exn : Set := IndexError | KeyError | ValueError | OverflowError.

Inductive result (A : Type) : Type :=
| Ok (a : A)
| Raise (x : exn)
| OutOfFuel.
Arguments Ok {A} a.
Arguments Raise {A} x.
Arguments OutOfFuel {A}.

#[global] Instance result_ret : MRet result := fun A a => Ok a.
#[global] Instance result_bind : MBind result := fun A B f r =>
  match r with
  | Ok a => f a
  | Raise x => Raise x
  | OutOfFuel => OutOfFuel
  end.

(** ** NumPy integers *)

(** The least and the greatest [int64]. *)
Definition int64_min : Z := -9223372036854775808.
Definition int64_max : Z := 9223372036854775807.

Definition in_int64 (z : Z) : bool := (int64_min <=? z) && (z <=? int64_max).

(** What an [int64] operation keeps of the exact result [z]: the integer of
    [int64_min, int64_max] that differs from [z] by a multiple of [2^64]. *)
Definition wrap64 (z : Z) : Z :=
  (z - int64_min) mod 18446744073709551616 + int64_min.

Arguments in_int64 : simpl never.
Arguments wrap64 : simpl never.

(** [x + n] for an [int64] scalar [x] (a cell read by [.iat]) and [n] an
    [int64] scalar or a Python integer.  NumPy first takes [n] to [int64],
    which raises [OverflowError] for a Python integer outside the type, and
    then adds modulo [2^64]. *)
Definition np_add (x n : Z) : result Z :=
  if in_int64 n then Ok (wrap64 (x + n)) else Raise OverflowError.

(** ** Python and pandas primitives *)

Abbreviation matrix := (list (list Z)).

(** [l[i]] *)
Definition py_nth {A : Type} (l : list A) (i : Z) : result A :=
  let n := Z.of_nat (length l) in
  let k := if 0 <=? i then i else n + i in
  if (0 <=? k) && (k <? n) then
    match l !! Z.to_nat k with
    | Some a => Ok a
    | None => Raise IndexError
    end
  else Raise IndexError.

(** [l[i] = a] *)
Definition py_set {A : Type} (l : list A) (i : Z) (a : A) : result (list A) :=
  let n := Z.of_nat (length l) in
  let k := if 0 <=? i then i else n + i in
  if (0 <=? k) && (k <? n) then Ok (<[Z.to_nat k := a]> l)
  else Raise IndexError.

(** [m.iat[i, j]] *)
Definition iat (m : matrix) (i j : Z) : result Z :=
  row ← py_nth m i; py_nth row j.

(** [m.iat[i, j] = v] *)
Definition iat_set (m : matrix) (i j : Z) (v : Z) : result matrix :=
  row ← py_nth m i; row' ← py_set row j v; py_set m i row'.

(** [max(l)]: the first greatest element; [max([])] raises. *)
Definition py_max (l : list Z) : result Z :=
  match l with
  | [] => Raise ValueError
  | x :: l' => Ok (fold_left Z.max l' x)
  end.

(** [l.index(x)]: the first position holding [x]. *)
Fixpoint py_index (l : list Z) (x : Z) : result Z :=
  match l with
  | [] => Raise ValueError
  | y :: l' => if y =? x then Ok 0 else k ← py_index l' x; Ok (k + 1)
  end.

(** [range(a, b)] *)
Definition py_range (a b : Z) : list Z :=
  (fun k : nat => a + Z.of_nat k) <$> seq 0 (Z.to_nat (b - a)).

(** [for k in ks: s = body(k, s)] *)
Fixpoint for_each {S : Type} (ks : list Z) (body : Z -> S -> result S) (s : S)
  : result S :=
  match ks with
  | [] => Ok s
  | k :: ks' => s' ← body k s; for_each ks' body s'
  end.

(** [Series.max()] and [Series.argmax()] of a non-empty series.  Every frame
    of the class has at least one row and one column (the tab prepended to
    both sequences); on an empty series the model answers [0]. *)
Definition series_max (l : list Z) : Z :=
  match l with
  | [] => 0
  | x :: l' => fold_left Z.max l' x
  end.

Fixpoint first_pos (x : Z) (l : list Z) : nat :=
  match l with
  | [] => O
  | y :: l' => if y =? x then O else S (first_pos x l')
  end.

Definition series_argmax (l : list Z) : nat := first_pos (series_max l) l.

(** [pd.DataFrame(0, index = rows, columns = cols)] *)
Definition frame0 {A B : Type} (rows : list A) (cols : list B) : matrix :=
  replicate (length rows) (replicate (length cols) 0).

(** Column [j] of a frame, and [DataFrame.max()] (one maximum per column)
    and [DataFrame.max(axis=1)] (one maximum per row). *)
Definition column (m : matrix) (j : nat) : list Z :=
  (fun row => default 0 (row !! j)) <$> m.

Definition ncols (m : matrix) : nat :=
  match m with
  | [] => O
  | row :: _ => length row
  end.

Definition frame_max (m : matrix) : list Z :=
  (fun j => series_max (column m j)) <$> seq 0 (ncols m).

Definition frame_max_axis1 (m : matrix) : list Z := series_max <$> m.

(** ** The class *)

Inductive variant : Set := main_py | main_2_py.

Record SWMatrix : Type := mkSW {
  score : ascii -> ascii -> option Z;
  o : Z;
  e : Z;
  seq1 : list ascii;
  seq2 : list ascii;
  F : matrix;
  M : matrix;
  Ix : matrix;
  Iy : matrix;
  TM : matrix;
  TIx : matrix;
  TIy : matrix
}.

(** [score.at[a, b]]: a label that is not in the table raises [KeyError]. *)
Definition score_at (sc : ascii -> ascii -> option Z) (a b : ascii) : result Z :=
  match sc a b with
  | Some s => Ok s
  | None => Raise KeyError
  end.

Definition tab : ascii := "009"%char.

(** [SWMatrix.__init__] *)
Definition init (sc : ascii -> ascii -> option Z) (s1 s2 : list ascii)
    (openGap extGap : Z) : SWMatrix :=
  let q1 := tab :: s1 in
  let q2 := tab :: s2 in
  {| score := sc; o := openGap; e := extGap; seq1 := q1; seq2 := q2;
     F := frame0 q2 q1; M := frame0 q2 q1; Ix := frame0 q2 q1;
     Iy := frame0 q2 q1; TM := frame0 q2 q1; TIx := frame0 q2 q1;
     TIy := frame0 q2 q1 |}.

(** The body of the two nested loops of [fillMatrix], at row [i] and column
    [j].  Reads, sums and writes are in the order of the source; the two
    scripts differ in the candidate lists of the [Ix] and [Iy] recurrences. *)
Definition fillCell (v : variant) (i j : Z) (sw : SWMatrix) : result SWMatrix :=
  c1 ← py_nth (seq1 sw) j;
  c2 ← py_nth (seq2 sw) i;
  s ← score_at (score sw) c1 c2;
  a ← iat (M sw) (i - 1) (j - 1);
  a ← np_add a s;
  b ← iat (Ix sw) (i - 1) (j - 1);
  b ← np_add b s;
  c ← iat (Iy sw) (i - 1) (j - 1);
  c ← np_add c s;
  ret1 ← py_max [a; b; c; 0];
  M1 ← iat_set (M sw) i j ret1;
  k1 ← py_index [a; b; c; 0] ret1;
  TM1 ← iat_set (TM sw) i j k1;
  cands2 ←
    match v with
    | main_py =>
        a ← iat M1 (i - 1) j;
        a ← np_add a (o sw);
        b ← iat (Ix sw) (i - 1) j;
        b ← np_add b (e sw);
        c ← iat (Iy sw) (i - 1) j;
        c ← np_add c (o sw);
        Ok [a; b; c; 0]
    | main_2_py =>
        a ← iat M1 (i - 1) j;
        a ← np_add a (o sw);
        b ← iat (Ix sw) (i - 1) j;
        b ← np_add b (e sw);
        Ok [a; b; -1; 0]
    end;
  ret2 ← py_max cands2;
  Ix1 ← iat_set (Ix sw) i j ret2;
  k2 ← py_index cands2 ret2;
  TIx1 ← iat_set (TIx sw) i j k2;
  cands3 ←
    match v with
    | main_py =>
        a ← iat M1 i (j - 1);
        a ← np_add a (o sw);
        b ← iat Ix1 i (j - 1);
        b ← np_add b (o sw);
        c ← iat (Iy sw) i (j - 1);
        c ← np_add c (e sw);
        Ok [a; b; c; 0]
    | main_2_py =>
        a ← iat M1 i (j - 1);
        a ← np_add a (o sw);
        b ← iat (Iy sw) i (j - 1);
        b ← np_add b (e sw);
        Ok [a; -1; b; 0]
    end;
  ret3 ← py_max cands3;
  Iy1 ← iat_set (Iy sw) i j ret3;
  k3 ← py_index cands3 ret3;
  TIy1 ← iat_set (TIy sw) i j k3;
  best ← py_max [ret1; ret2; ret3];
  F1 ← iat_set (F sw) i j best;
  Ok {| score := score sw; o := o sw; e := e sw;
        seq1 := seq1 sw; seq2 := seq2 sw;
        F := F1; M := M1; Ix := Ix1; Iy := Iy1;
        TM := TM1; TIx := TIx1; TIy := TIy1 |}.

Definition len {A : Type} (l : list A) : Z := Z.of_nat (length l).

(** [SWMatrix.fillMatrix] *)
Definition fillMatrix (v : variant) (sw : SWMatrix) : result SWMatrix :=
  for_each (py_range 1 (len (seq2 sw)))
    (fun i sw => for_each (py_range 1 (len (seq1 sw))) (fun j sw => fillCell v i j sw) sw)
    sw.

(** [SWMatrix.getMax] *)
Definition getMax (sw : SWMatrix) : Z := series_max (frame_max (F sw)).

(** [SWMatrix.getMaxCoord] *)
Definition getMaxCoord (sw : SWMatrix) : nat * nat :=
  let i := series_argmax (frame_max_axis1 (F sw)) in
  let j := series_argmax (default [] (F sw !! i)) in
  (i, j).

(** ** Traceback *)

(** The three display lists [matchStr1], [matchLine], [matchStr2] that
    [traceback] and its two helpers build on the object.  [append] adds at
    the end. *)
Record lines : Type := mkLines {
  matchStr1 : list ascii;
  matchLine : list ascii;
  matchStr2 : list ascii
}.

Definition append {A : Type} (l : list A) (a : A) : list A := l ++ [a].

(** The [while] loop of [completeFront], entered with [fuel] iterations. *)
Fixpoint completeFront_loop (fuel : nat) (sw : SWMatrix) (i j : Z) (ls : lines)
  : result lines :=
  if (0 <? i) || (0 <? j) then
    match fuel with
    | O => OutOfFuel
    | S fuel' =>
        c1 ← (if 0 <? j then py_nth (seq1 sw) j else Ok " "%char);
        c2 ← (if 0 <? i then py_nth (seq2 sw) i else Ok " "%char);
        completeFront_loop fuel' sw (i - 1) (j - 1)
          {| matchStr1 := append (matchStr1 ls) c1;
             matchLine := append (matchLine ls) " "%char;
             matchStr2 := append (matchStr2 ls) c2 |}
    end
  else Ok ls.

(** [SWMatrix.completeFront]; the loop runs [max(i, j, 0)] times. *)
Definition completeFront (sw : SWMatrix) (i j : Z) (ls : lines) : result lines :=
  completeFront_loop (Z.to_nat (Z.max i j)) sw i j
    {| matchStr1 := append (matchStr1 ls) "("%char;
       matchLine := append (matchLine ls) " "%char;
       matchStr2 := append (matchStr2 ls) "("%char |}.

(** The [while] loop of [completeBack]. *)
Fixpoint completeBack_loop (fuel : nat) (sw : SWMatrix) (i j : Z) (ls : lines)
  : result lines :=
  if (i <? len (seq2 sw)) || (j <? len (seq1 sw)) then
    match fuel with
    | O => OutOfFuel
    | S fuel' =>
        c1 ← (if j <? len (seq1 sw) then py_nth (seq1 sw) j else Ok " "%char);
        c2 ← (if i <? len (seq2 sw) then py_nth (seq2 sw) i else Ok " "%char);
        completeBack_loop fuel' sw (i + 1) (j + 1)
          {| matchStr1 := append (matchStr1 ls) c1;
             matchLine := append (matchLine ls) " "%char;
             matchStr2 := append (matchStr2 ls) c2 |}
    end
  else Ok ls.

(** [SWMatrix.completeBack] *)
Definition completeBack (sw : SWMatrix) (i j : Z) (ls : lines) : result lines :=
  completeBack_loop
    (Z.to_nat (Z.max (len (seq2 sw) - i) (len (seq1 sw) - j))) sw i j
    {| matchStr1 := append (matchStr1 ls) ")"%char;
       matchLine := append (matchLine ls) " "%char;
       matchStr2 := append (matchStr2 ls) ")"%char |}.

(** The three lists when [traceback] starts. *)
Definition no_lines : lines :=
  {| matchStr1 := []; matchLine := []; matchStr2 := [] |}.

(** The symbol that [traceback] writes for a gap. *)
Definition gap_symbol : ascii := "-"%char.

(** The mark under a column: ['|'] when [seq1[j] == seq2[i]], a blank
    otherwise. *)
Definition mark (c1 c2 : ascii) : ascii :=
  if Ascii.eqb c1 c2 then "|"%char else " "%char.

(** The local variables of [traceback] together with the display lists. *)
Record walk : Type := mkWalk {
  state : Z;
  wi : Z;
  wj : Z;
  currVal : Z;
  out : lines
}.

(** One pass through the body of the [while] loop of [traceback].  When
    [state] is none of 0, 1, 2 no branch of the [if] chain runs and only
    [matchLine] grows. *)
Definition traceback_step (sw : SWMatrix) (w : walk) : result walk :=
  let i := wi w in
  let j := wj w in
  c1 ← py_nth (seq1 sw) j;
  c2 ← py_nth (seq2 sw) i;
  let line := append (matchLine (out w)) (mark c1 c2) in
  if state w =? 0 then
    nstate ← iat (TM sw) i j;
    c1 ← py_nth (seq1 sw) j;
    c2 ← py_nth (seq2 sw) i;
    cv ← iat (M sw) (i - 1) (j - 1);
    Ok {| state := nstate; wi := i - 1; wj := j - 1; currVal := cv;
          out := {| matchStr1 := append (matchStr1 (out w)) c1;
                    matchLine := line;
                    matchStr2 := append (matchStr2 (out w)) c2 |} |}
  else if state w =? 1 then
    nstate ← iat (TIx sw) i j;
    c2 ← py_nth (seq2 sw) i;
    cv ← iat (Ix sw) (i - 1) j;
    Ok {| state := nstate; wi := i - 1; wj := j; currVal := cv;
          out := {| matchStr1 := append (matchStr1 (out w)) gap_symbol;
                    matchLine := line;
                    matchStr2 := append (matchStr2 (out w)) c2 |} |}
  else if state w =? 2 then
    nstate ← iat (TIy sw) i j;
    c1 ← py_nth (seq1 sw) j;
    cv ← iat (Iy sw) i (j - 1);
    Ok {| state := nstate; wi := i; wj := j - 1; currVal := cv;
          out := {| matchStr1 := append (matchStr1 (out w)) c1;
                    matchLine := line;
                    matchStr2 := append (matchStr2 (out w)) gap_symbol |} |}
  else
    Ok {| state := state w; wi := i; wj := j; currVal := currVal w;
          out := {| matchStr1 := matchStr1 (out w);
                    matchLine := line;
                    matchStr2 := matchStr2 (out w) |} |}.

(** The [while currVal != 0 and state != 3] loop of [traceback]. *)
Fixpoint traceback_loop (fuel : nat) (sw : SWMatrix) (w : walk) : result walk :=
  if negb (currVal w =? 0) && negb (state w =? 3) then
    match fuel with
    | O => OutOfFuel
    | S fuel' => w' ← traceback_step sw w; traceback_loop fuel' sw w'
    end
  else Ok w.

(** Fuel for the loop of [traceback]: every pass that takes a branch reads
    [seq1[j]] and [seq2[i]] and lowers [i + j], so the loop leaves or raises
    within this many passes. *)
Definition traceback_fuel (sw : SWMatrix) : nat :=
  (2 * (length (seq1 sw) + length (seq2 sw)) + 2)%nat.

(** [traceback] up to the end of its [while] loop: the arguments [x], [y]
    are stored in [i], [j] and overwritten by [getMaxCoord] at once. *)
Definition traceback_walk (sw : SWMatrix) (x y : Z) : result walk :=
  let state := 0 in
  let i := x in
  let j := y in
  let '(i, j) := getMaxCoord sw in
  let i := Z.of_nat i in
  let j := Z.of_nat j in
  currVal ← iat (M sw) i j;
  traceback_loop (traceback_fuel sw) sw
    {| state := state; wi := i; wj := j; currVal := currVal;
       out := no_lines |}.

Definition reverse_lines (ls : lines) : lines :=
  {| matchStr1 := rev (matchStr1 ls);
     matchLine := rev (matchLine ls);
     matchStr2 := rev (matchStr2 ls) |}.

(** [SWMatrix.traceback] *)
Definition traceback (sw : SWMatrix) (x y : Z) : result lines :=
  w ← traceback_walk sw x y;
  ls ← completeFront sw (wi w) (wj w) (out w);
  let ls := reverse_lines ls in
  let '(i, j) := getMaxCoord sw in
  completeBack sw (Z.of_nat i + 1) (Z.of_nat j + 1) ls.

(** The aligned region: what the [while] loop of [traceback] wrote, in
    reading order (the part of the display between the two brackets). *)
Definition alignedRegion (sw : SWMatrix) (x y : Z) : result lines :=
  w ← traceback_walk sw x y; Ok (reverse_lines (out w)).

(** ** A similarity table and the scenario of the specification *)

Definition chars (s : string) : list ascii := list_ascii_of_string s.

(** [+mt] for identical symbols, [mm] otherwise. *)
Definition simple_score (mt mm : Z) (a b : ascii) : option Z :=
  Some (if Ascii.eqb a b then mt else mm).

(** The object that [fillMatrix] leaves, or [sw] itself when it raised. *)
Definition filled_of (v : variant) (sw : SWMatrix) : SWMatrix :=
  match fillMatrix v sw with
  | Ok sw' => sw'
  | _ => sw
  end.

(** ["ACGT"] against ["AGT"], +2 / -1, open -2, extend -1. *)
Definition acgt_agt : SWMatrix :=
  init (simple_score 2 (-1)) (chars "ACGT") (chars "AGT") (-2) (-1).

(** ["ABAB"] against ["AB"]: the best score 4 is reached twice in row 2. *)
Definition abab_ab : SWMatrix :=
  init (simple_score 2 (-1)) (chars "ABAB") (chars "AB") (-2) (-1).

(** Two sequences that differ in one symbol at the same place, with a
    mismatch so costly that only two gaps side by side, one in each
    sequence, can bridge it. *)
Definition abcxdef_abcydef : SWMatrix :=
  init (simple_score 2 (-10)) (chars "ABCXDEF") (chars "ABCYDEF") (-2) (-1).

(** ["AA"] against itself with a match score of [2^62]: twice the match
    score is no [int64] value. *)
Definition aa_aa_wide : SWMatrix :=
  init (simple_score 4611686018427387904 (-1)) (chars "AA") (chars "AA")
    (-2) (-1).

(** ["AAB"] against itself under a table that gives 10 to a pair of [A]s,
    [2^63 - 1] to a pair of [B]s and -1 to any other pair. *)
Definition ab_wide_score (a b : ascii) : option Z :=
  Some (if Ascii.eqb a b
        then (if Ascii.eqb a "B"%char then 9223372036854775807 else 10)
        else -1).

Definition aab_aab_wide : SWMatrix :=
  init ab_wide_score (chars "AAB") (chars "AAB") (-2) (-1).

(** ["ABCXDEF"] against ["ABCYDEF"] under a table that gives 10 to a pair
    of identical symbols, except [2^63 - 20] to a pair of [E]s, and -100 to
    any other pair. *)
Definition e_wide_score (a b : ascii) : option Z :=
  Some (if Ascii.eqb a b
        then (if Ascii.eqb a "E"%char then 9223372036854775788 else 10)
        else -100).

Definition abcxdef_wide : SWMatrix :=
  init e_wide_score (chars "ABCXDEF") (chars "ABCYDEF") (-2) (-1).

(** A positive value passed as the open penalty: the best cell of [F] is
    then held by [Ix] alone. *)
Definition a_ab_positive_open : SWMatrix :=
  init (simple_score 2 (-1)) (chars "A") (chars "AB") 1 (-1).

(** ** Vocabulary of the statements *)

(** The cell at row [i], column [j], by position; [0] outside the frame. *)
Definition cell (m : matrix) (i j : nat) : Z :=
  default 0 (m !! i ≫= fun row => row !! j).

(** The frame with the cell at [(i, j)] replaced. *)
Definition upd (m : matrix) (i j : nat) (v : Z) : matrix :=
  alter (fun row => <[j := v]> row) i m.

(** A frame of [R] rows and [C] columns. *)
Definition shape (R C : nat) (m : matrix) : Prop :=
  length m = R ∧ ∀ i row, m !! i = Some row → length row = C.

(** The seven cells at one coordinate: [F], [M], [Ix], [Iy], [TM], [TIx],
    [TIy]. *)
Definition cells (sw : SWMatrix) (i j : nat) : list Z :=
  [cell (F sw) i j; cell (M sw) i j; cell (Ix sw) i j; cell (Iy sw) i j;
   cell (TM sw) i j; cell (TIx sw) i j; cell (TIy sw) i j].

(** The candidate lists of the three recurrences at row [S i], column [S j],
    read from the frames of [sw]; [s] is the similarity of the two symbols.
    Each sum is the [int64] sum that the code compares and stores. *)
Definition candsM (sw : SWMatrix) (s : Z) (i j : nat) : list Z :=
  [wrap64 (cell (M sw) i j + s); wrap64 (cell (Ix sw) i j + s);
   wrap64 (cell (Iy sw) i j + s); 0].

Definition candsIx (v : variant) (sw : SWMatrix) (i j : nat) : list Z :=
  match v with
  | main_py =>
      [wrap64 (cell (M sw) i (S j) + o sw); wrap64 (cell (Ix sw) i (S j) + e sw);
       wrap64 (cell (Iy sw) i (S j) + o sw); 0]
  | main_2_py =>
      [wrap64 (cell (M sw) i (S j) + o sw); wrap64 (cell (Ix sw) i (S j) + e sw);
       -1; 0]
  end.

Definition candsIy (v : variant) (sw : SWMatrix) (i j : nat) : list Z :=
  match v with
  | main_py =>
      [wrap64 (cell (M sw) (S i) j + o sw); wrap64 (cell (Ix sw) (S i) j + o sw);
       wrap64 (cell (Iy sw) (S i) j + e sw); 0]
  | main_2_py =>
      [wrap64 (cell (M sw) (S i) j + o sw); -1;
       wrap64 (cell (Iy sw) (S i) j + e sw); 0]
  end.

(** The greatest candidate and the first position holding it. *)
Definition winner (cands : list Z) : Z :=
  Z.of_nat (first_pos (series_max cands) cands).

(** The seven cells at [(S i, S j)] obey the recurrences of [fillMatrix],
    read against the frames of [sw] itself; the similarity and the two
    penalties are [int64] values, or the loop body would have raised. *)
Definition cell_ok (v : variant) (sw : SWMatrix) (i j : nat) : Prop :=
  ∃ c1 c2 s,
    seq1 sw !! S j = Some c1 ∧ seq2 sw !! S i = Some c2 ∧
    score sw c1 c2 = Some s ∧
    cell (M sw) (S i) (S j) = series_max (candsM sw s i j) ∧
    cell (TM sw) (S i) (S j) = winner (candsM sw s i j) ∧
    cell (Ix sw) (S i) (S j) = series_max (candsIx v sw i j) ∧
    cell (TIx sw) (S i) (S j) = winner (candsIx v sw i j) ∧
    cell (Iy sw) (S i) (S j) = series_max (candsIy v sw i j) ∧
    cell (TIy sw) (S i) (S j) = winner (candsIy v sw i j) ∧
    cell (F sw) (S i) (S j) =
      series_max [cell (M sw) (S i) (S j); cell (Ix sw) (S i) (S j);
                  cell (Iy sw) (S i) (S j)] ∧
    in_int64 s = true ∧ in_int64 (o sw) = true ∧ in_int64 (e sw) = true.

(** The state of the object once the loops of [fillMatrix] have handled
    every cell that comes before [(i0, j0)] in row-major order. *)
Definition before (i j i0 j0 : nat) : Prop :=
  (1 ≤ i)%nat ∧ (1 ≤ j)%nat ∧ ((i < i0)%nat ∨ (i = i0 ∧ (j < j0)%nat)).

Record filled_upto (v : variant) (sw0 sw : SWMatrix) (i0 j0 : nat) : Prop := {
  fu_score : score sw = score sw0;
  fu_o : o sw = o sw0;
  fu_e : e sw = e sw0;
  fu_seq1 : seq1 sw = seq1 sw0;
  fu_seq2 : seq2 sw = seq2 sw0;
  fu_F : shape (length (seq2 sw0)) (length (seq1 sw0)) (F sw);
  fu_M : shape (length (seq2 sw0)) (length (seq1 sw0)) (M sw);
  fu_Ix : shape (length (seq2 sw0)) (length (seq1 sw0)) (Ix sw);
  fu_Iy : shape (length (seq2 sw0)) (length (seq1 sw0)) (Iy sw);
  fu_TM : shape (length (seq2 sw0)) (length (seq1 sw0)) (TM sw);
  fu_TIx : shape (length (seq2 sw0)) (length (seq1 sw0)) (TIx sw);
  fu_TIy : shape (length (seq2 sw0)) (length (seq1 sw0)) (TIy sw);
  fu_done : ∀ i j, (S i < length (seq2 sw0))%nat → (S j < length (seq1 sw0))%nat →
            before (S i) (S j) i0 j0 → cell_ok v sw i j;
  fu_todo : ∀ i j, ¬ (before i j i0 j0 ∧ (i < length (seq2 sw0))%nat
                      ∧ (j < length (seq1 sw0))%nat) →
            cells sw i j = [0; 0; 0; 0; 0; 0; 0]
}.

(** What [fillMatrix] leaves behind: the sequences and penalties of the
    start, seven frames of the right shape, zero borders and the recurrences
    at every inner cell. *)
Definition filled (v : variant) (sw0 sw : SWMatrix) : Prop :=
  filled_upto v sw0 sw (length (seq2 sw0)) 1.

(** The object after the loop body has run at row [S i], column [S j] with
    similarity [s]: one cell of each frame replaced. *)
Definition fillCell_at (v : variant) (sw : SWMatrix) (s : Z) (i j : nat)
  : SWMatrix :=
  let ret1 := series_max (candsM sw s i j) in
  let ret2 := series_max (candsIx v sw i j) in
  let ret3 := series_max (candsIy v sw i j) in
  {| score := score sw; o := o sw; e := e sw;
     seq1 := seq1 sw; seq2 := seq2 sw;
     F := upd (F sw) (S i) (S j) (series_max [ret1; ret2; ret3]);
     M := upd (M sw) (S i) (S j) ret1;
     Ix := upd (Ix sw) (S i) (S j) ret2;
     Iy := upd (Iy sw) (S i) (S j) ret3;
     TM := upd (TM sw) (S i) (S j) (winner (candsM sw s i j));
     TIx := upd (TIx sw) (S i) (S j) (winner (candsIx v sw i j));
     TIy := upd (TIy sw) (S i) (S j) (winner (candsIy v sw i j)) |}.

(** All seven frames of [sw] have [R] rows and [C] columns, as many as the
    two sequences have symbols. *)
Record shaped (R C : nat) (sw : SWMatrix) : Prop := {
  sh_seq1 : length (seq1 sw) = C;
  sh_seq2 : length (seq2 sw) = R;
  sh_F : shape R C (F sw);
  sh_M : shape R C (M sw);
  sh_Ix : shape R C (Ix sw);
  sh_Iy : shape R C (Iy sw);
  sh_TM : shape R C (TM sw);
  sh_TIx : shape R C (TIx sw);
  sh_TIy : shape R C (TIy sw)
}.

(** [k] is the position of the first candidate that attains the maximum of
    [cands]: the candidate at [k] is the maximum and every candidate to its
    left is strictly smaller. *)
Definition first_max_at (cands : list Z) (k : Z) : Prop :=
  ∃ n : nat, k = Z.of_nat n ∧ cands !! n = Some (series_max cands) ∧
    ∀ (n' : nat) (y : Z), (n' < n)%nat → cands !! n' = Some y →
      y < series_max cands.

(** The similarity table has an entry for every pair of symbols that the two
    sequences can bring together. *)
Definition covers (sc : ascii → ascii → option Z) (s1 s2 : list ascii) : Prop :=
  ∀ c1 c2, c1 ∈ s1 → c2 ∈ s2 → is_Some (sc c1 c2).

(** Every entry of the table that the two sequences can bring up is an
    [int64] value. *)
Definition int64_table (sc : ascii → ascii → option Z) (s1 s2 : list ascii)
  : Prop :=
  ∀ c1 c2 m, c1 ∈ s1 → c2 ∈ s2 → sc c1 c2 = Some m → in_int64 m = true.


(** An object that [traceback] can walk: frames of the right shape, zeros
    on the borders of [M], [Ix], [Iy], and states 0..3 in the traceback
    frames. *)
Record walkable (R C : nat) (sw : SWMatrix) : Prop := {
  wk_shaped : shaped R C sw;
  wk_border : ∀ i j, (i = 0 ∨ j = 0)%nat →
      cell (M sw) i j = 0 ∧ cell (Ix sw) i j = 0 ∧ cell (Iy sw) i j = 0;
  wk_states : ∀ i j,
      0 ≤ cell (TM sw) i j ≤ 3 ∧ 0 ≤ cell (TIx sw) i j ≤ 3 ∧
      0 ≤ cell (TIy sw) i j ≤ 3
}.


(** ** Vocabulary of the display *)

(** The symbols of [l] at positions [a], ..., [b - 1]. *)
Definition seg {A : Type} (l : list A) (a b : nat) : list A :=
  take (b - a) (drop a l).

(** The characters that [traceback] and its helpers write besides the
    symbols of the sequences: the blank, the gap, the two brackets. *)
Definition filler (c : ascii) : Prop :=
  c = " "%char ∨ c = gap_symbol ∨ c = "("%char ∨ c = ")"%char.

(** [spells line s]: the display line [line] is the sequence [s] with
    fillers put in between, before or after its symbols. *)
Inductive spells : list ascii → list ascii → Prop :=
| spells_nil : spells [] []
| spells_sym (c : ascii) (line s : list ascii) :
    spells line s → spells (c :: line) (c :: s)
| spells_fill (c : ascii) (line s : list ascii) :
    filler c → spells line s → spells (c :: line) s.

(** [columns q1 q2 i' j' i j top mid bot]: the three lines [top], [mid],
    [bot] are the columns, in reading order, of an alignment of the symbols
    of [q1] at the positions [j' + 1], ..., [j] with the symbols of [q2] at
    the positions [i' + 1], ..., [i].  A column takes the next symbol of
    both sequences, or the next symbol of one of them against the gap
    symbol.  The mark of a column compares the symbols at the row and the
    column where the column ends, under a gap too. *)
Inductive columns (q1 q2 : list ascii) (i' j' : nat)
  : nat → nat → list ascii → list ascii → list ascii → Prop :=
| columns_nil : columns q1 q2 i' j' i' j' [] [] []
| columns_match (i j : nat) (c1 c2 : ascii) (top mid bot : list ascii) :
    columns q1 q2 i' j' i j top mid bot →
    q1 !! S j = Some c1 → q2 !! S i = Some c2 →
    columns q1 q2 i' j' (S i) (S j)
      (top ++ [c1]) (mid ++ [mark c1 c2]) (bot ++ [c2])
| columns_gap1 (i j : nat) (c1 c2 : ascii) (top mid bot : list ascii) :
    columns q1 q2 i' j' i j top mid bot →
    q1 !! j = Some c1 → q2 !! S i = Some c2 →
    columns q1 q2 i' j' (S i) j
      (top ++ [gap_symbol]) (mid ++ [mark c1 c2]) (bot ++ [c2])
| columns_gap2 (i j : nat) (c1 c2 : ascii) (top mid bot : list ascii) :
    columns q1 q2 i' j' i j top mid bot →
    q1 !! S j = Some c1 → q2 !! i = Some c2 →
    columns q1 q2 i' j' i (S j)
      (top ++ [c1]) (mid ++ [mark c1 c2]) (bot ++ [gap_symbol]).

(** ** Results *)

Lemma bind_Ok {A B : Type} (r : result A) (f : A -> result B) (b : B) :
  r ≫= f = Ok b ↔ ∃ a, r = Ok a ∧ f a = Ok b.
Proof.
  destruct r as [a| |]; simpl; split.
  - eauto.
  - intros [a' [[= <-] H]]. exact H.
  - discriminate.
  - intros [a' [[=] _]].
  - discriminate.
  - intros [a' [[=] _]].
Qed.

Tactic Notation "rsimpl" := cbn [mbind result_bind mret result_ret].
Tactic Notation "rsimpl" "in" hyp(H) :=
  cbn [mbind result_bind mret result_ret] in H.

(** ** Sums of cells *)

Lemma in_int64_spec (z : Z) : in_int64 z = true ↔ int64_min ≤ z ≤ int64_max.
Proof. unfold in_int64. rewrite andb_true_iff, !Z.leb_le. done. Qed.

Lemma wrap64_range (z : Z) : int64_min ≤ wrap64 z ≤ int64_max.
Proof.
  unfold wrap64, int64_min, int64_max.
  pose proof (Z.mod_pos_bound (z - -9223372036854775808) 18446744073709551616).
  lia.
Qed.

Lemma wrap64_id (z : Z) : int64_min ≤ z ≤ int64_max → wrap64 z = z.
Proof.
  unfold wrap64, int64_min, int64_max. intros H.
  rewrite Z.mod_small by lia. lia.
Qed.

(** A sum that does not fall below [int64_min] can only lose by wrapping,
    and one that does not rise above [int64_max] can only gain. *)
Lemma wrap64_le (z : Z) : int64_min ≤ z → wrap64 z ≤ z.
Proof.
  intros H. destruct (Z_le_gt_dec z int64_max) as [Hle|Hgt].
  - rewrite wrap64_id; lia.
  - pose proof (wrap64_range z). lia.
Qed.



Lemma int64_max_pos : 0 < int64_max.
Proof. done. Qed.

(** A cell that is not negative plus an [int64] value that stays under a
    bound: the stored sum stays under it too. *)
Lemma wrap64_sum_le (x p b : Z) :
  0 ≤ x → int64_min ≤ p → x + p ≤ b → wrap64 (x + p) ≤ b.
Proof. intros Hx Hp Hb. pose proof (wrap64_le (x + p)). lia. Qed.

(** A cell plus an [int64] value that is not positive is the exact sum. *)
Lemma wrap64_gap (x p : Z) :
  0 ≤ x ≤ int64_max → int64_min ≤ p ≤ 0 → wrap64 (x + p) = x + p.
Proof. intros Hx Hp. apply wrap64_id. lia. Qed.

Lemma np_add_Ok (x n : Z) :
  in_int64 n = true → np_add x n = Ok (wrap64 (x + n)).
Proof. unfold np_add. by intros ->. Qed.

Lemma np_add_Raise (x n : Z) :
  in_int64 n = false → np_add x n = Raise OverflowError.
Proof. unfold np_add. by intros ->. Qed.

#[global] Opaque wrap64 in_int64.

(** ** Positions *)

Lemma py_nth_nat {A : Type} (l : list A) (n : nat) :
  py_nth l (Z.of_nat n) =
  match l !! n with Some a => Ok a | None => Raise IndexError end.
Proof.
  unfold py_nth. cbv zeta. rewrite !(proj2 (Z.leb_le 0 (Z.of_nat n))) by lia.
  rewrite Nat2Z.id. simpl. destruct (l !! n) eqn:E.
  - apply lookup_lt_Some in E.
    rewrite (proj2 (Z.ltb_lt _ _)) by lia. reflexivity.
  - destruct (Z.of_nat n <? Z.of_nat (length l)); reflexivity.
Qed.

Lemma py_set_nat {A : Type} (l : list A) (n : nat) (a : A) :
  (n < length l)%nat → py_set l (Z.of_nat n) a = Ok (<[n := a]> l).
Proof.
  intros H. unfold py_set. cbv zeta.
  rewrite !(proj2 (Z.leb_le 0 (Z.of_nat n))) by lia.
  rewrite (proj2 (Z.ltb_lt _ _)) by lia. simpl. by rewrite Nat2Z.id.
Qed.

Lemma iat_cell (R C : nat) (m : matrix) (i j : nat) :
  shape R C m → (i < R)%nat → (j < C)%nat →
  iat m (Z.of_nat i) (Z.of_nat j) = Ok (cell m i j).
Proof.
  intros [HR HC] Hi Hj. unfold iat, cell. rewrite py_nth_nat.
  destruct (m !! i) as [row|] eqn:E.
  - rsimpl. rewrite py_nth_nat. specialize (HC _ _ E).
    simpl. destruct (row !! j) eqn:E2; [reflexivity|].
    apply lookup_ge_None in E2. lia.
  - apply lookup_ge_None in E. lia.
Qed.

Lemma iat_set_upd (R C : nat) (m : matrix) (i j : nat) (v : Z) :
  shape R C m → (i < R)%nat → (j < C)%nat →
  iat_set m (Z.of_nat i) (Z.of_nat j) v = Ok (upd m i j v).
Proof.
  intros [HR HC] Hi Hj. unfold iat_set, upd. rewrite py_nth_nat.
  destruct (m !! i) as [row|] eqn:E.
  - rsimpl. specialize (HC _ _ E). rewrite py_set_nat by lia. rsimpl.
    rewrite py_set_nat by lia. f_equal.
    apply list_eq. intros k. destruct (decide (k = i)) as [->|Hne].
    + rewrite list_lookup_insert_eq by lia.
      rewrite list_lookup_alter_eq, E. done.
    + rewrite list_lookup_insert_ne by done.
      rewrite list_lookup_alter_ne by done. done.
  - apply lookup_ge_None in E. lia.
Qed.

Lemma shape_upd (R C : nat) (m : matrix) (i j : nat) (v : Z) :
  shape R C m → shape R C (upd m i j v).
Proof.
  intros [HR HC]. split.
  - unfold upd. by rewrite length_alter.
  - intros k row. unfold upd. destruct (decide (k = i)) as [->|Hne].
    + rewrite list_lookup_alter_eq. destruct (m !! i) as [r|] eqn:E; [|done].
      simpl. intros [= <-]. rewrite length_insert. eauto.
    + rewrite list_lookup_alter_ne by done. eauto.
Qed.

Lemma cell_upd_eq (R C : nat) (m : matrix) (i j : nat) (v : Z) :
  shape R C m → (i < R)%nat → (j < C)%nat → cell (upd m i j v) i j = v.
Proof.
  intros [HR HC] Hi Hj. unfold cell, upd. rewrite list_lookup_alter_eq.
  destruct (m !! i) as [row|] eqn:E.
  - simpl. specialize (HC _ _ E). rewrite list_lookup_insert_eq by lia. done.
  - apply lookup_ge_None in E. lia.
Qed.

Lemma cell_upd_ne (m : matrix) (i j i' j' : nat) (v : Z) :
  (i', j') ≠ (i, j) → cell (upd m i j v) i' j' = cell m i' j'.
Proof.
  intros Hne. unfold cell, upd. destruct (decide (i' = i)) as [->|Hi].
  - rewrite list_lookup_alter_eq. destruct (m !! i) as [row|]; [|done].
    simpl. rewrite list_lookup_insert_ne; [done|]. congruence.
  - rewrite list_lookup_alter_ne by done. done.
Qed.

Lemma cell_frame0 {A B : Type} (rows : list A) (cols : list B) (i j : nat) :
  cell (frame0 rows cols) i j = 0.
Proof.
  unfold cell, frame0.
  destruct (replicate (length rows) (replicate (length cols) 0) !! i) as [r|] eqn:E;
    [|done].
  apply lookup_replicate in E as [-> _]. simpl.
  destruct (replicate (length cols) 0 !! j) as [z|] eqn:E2; [|done].
  apply lookup_replicate in E2 as [-> _]. done.
Qed.

Lemma shape_frame0 {A B : Type} (rows : list A) (cols : list B) :
  shape (length rows) (length cols) (frame0 rows cols).
Proof.
  split.
  - unfold frame0. by rewrite length_replicate.
  - intros i row E. apply lookup_replicate in E as [-> _].
    by rewrite length_replicate.
Qed.

(** ** Maxima and first positions *)

Lemma fold_left_max_le (l : list Z) (x : Z) : x ≤ fold_left Z.max l x.
Proof.
  revert x. induction l as [|y l IH]; intros x; simpl; [lia|].
  specialize (IH (Z.max x y)). lia.
Qed.

Lemma fold_left_max_ge (l : list Z) (x y : Z) :
  y ∈ l → y ≤ fold_left Z.max l x.
Proof.
  revert x. induction l as [|z l IH]; intros x Hy; simpl.
  - by apply not_elem_of_nil in Hy.
  - apply elem_of_cons in Hy as [->|Hy].
    + pose proof (fold_left_max_le l (Z.max x z)). lia.
    + by apply IH.
Qed.

Lemma fold_left_max_in (l : list Z) (x : Z) : fold_left Z.max l x ∈ x :: l.
Proof.
  revert x. induction l as [|z l IH]; intros x; simpl.
  - apply elem_of_cons. by left.
  - specialize (IH (Z.max x z)). apply elem_of_cons in IH as [IH|IH].
    + rewrite IH. destruct (Z.max_spec x z) as [[_ ->]|[_ ->]].
      * apply elem_of_cons. right. apply elem_of_cons. by left.
      * apply elem_of_cons. by left.
    + apply elem_of_cons. right. apply elem_of_cons. by right.
Qed.

Lemma series_max_ge (l : list Z) (y : Z) : y ∈ l → y ≤ series_max l.
Proof.
  destruct l as [|x l]; intros Hy; [by apply not_elem_of_nil in Hy|].
  simpl. apply elem_of_cons in Hy as [->|Hy].
  - apply fold_left_max_le.
  - by apply fold_left_max_ge.
Qed.

Lemma series_max_in (l : list Z) : l ≠ [] → series_max l ∈ l.
Proof.
  destruct l as [|x l]; [done|]. intros _. apply fold_left_max_in.
Qed.

Lemma series_max_lookup (l : list Z) (k : nat) (y : Z) :
  l !! k = Some y → y ≤ series_max l.
Proof. intros H. apply series_max_ge. apply list_elem_of_lookup. eauto. Qed.

Lemma first_pos_lookup (x : Z) (l : list Z) :
  x ∈ l → l !! first_pos x l = Some x.
Proof.
  induction l as [|y l IH]; intros Hx; [by apply not_elem_of_nil in Hx|].
  simpl. destruct (Z.eqb_spec y x) as [->|Hne]; [done|].
  apply elem_of_cons in Hx as [->|Hx]; [done|]. simpl. by apply IH.
Qed.

Lemma first_pos_least (x : Z) (l : list Z) (k : nat) :
  (k < first_pos x l)%nat → l !! k ≠ Some x.
Proof.
  revert k. induction l as [|y l IH]; intros k; simpl; [lia|].
  destruct (Z.eqb_spec y x) as [->|Hne]; [lia|].
  destruct k as [|k]; simpl.
  - intros _ [= ->]. done.
  - intros Hk. apply IH. lia.
Qed.

Lemma first_pos_lt (x : Z) (l : list Z) :
  x ∈ l → (first_pos x l < length l)%nat.
Proof.
  intros Hx. apply first_pos_lookup in Hx. by apply lookup_lt_Some in Hx.
Qed.

Lemma py_max_series (l : list Z) : l ≠ [] → py_max l = Ok (series_max l).
Proof. by destruct l. Qed.

Lemma py_index_first_pos (l : list Z) (x : Z) :
  x ∈ l → py_index l x = Ok (Z.of_nat (first_pos x l)).
Proof.
  induction l as [|y l IH]; intros Hx; [by apply not_elem_of_nil in Hx|].
  simpl. destruct (Z.eqb_spec y x) as [->|Hne]; [done|].
  apply elem_of_cons in Hx as [->|Hx]; [done|].
  rewrite IH by done. rsimpl. f_equal. lia.
Qed.

Lemma py_index_winner (l : list Z) :
  l ≠ [] → py_index l (series_max l) = Ok (winner l).
Proof. intros H. apply py_index_first_pos. by apply series_max_in. Qed.

(** ** One pass of the loop body *)

Lemma shaped_fillCell_at (R C : nat) (v : variant) (sw : SWMatrix) (s : Z)
    (i j : nat) :
  shaped R C sw → shaped R C (fillCell_at v sw s i j).
Proof.
  intros []. split; simpl; auto using shape_upd.
Qed.

(** The loop body at an inner cell: it raises [KeyError] when the table has
    no entry for the two symbols, [OverflowError] when the similarity or a
    penalty is no [int64] value, and otherwise replaces one cell of each
    frame. *)
Lemma fillCell_spec (R C : nat) (v : variant) (sw : SWMatrix) (i j : nat)
    (c1 c2 : ascii) :
  shaped R C sw → (S i < R)%nat → (S j < C)%nat →
  seq1 sw !! S j = Some c1 → seq2 sw !! S i = Some c2 →
  fillCell v (Z.of_nat (S i)) (Z.of_nat (S j)) sw =
  (s ← score_at (score sw) c1 c2;
   if in_int64 s && in_int64 (o sw) && in_int64 (e sw)
   then Ok (fillCell_at v sw s i j) else Raise OverflowError).
Proof.
  intros [] Hi Hj H1 H2. unfold fillCell.
  rewrite (py_nth_nat (seq1 sw) (S j)), H1. rsimpl.
  rewrite (py_nth_nat (seq2 sw) (S i)), H2. rsimpl.
  destruct (score_at (score sw) c1 c2) as [s| |]; rsimpl; try reflexivity.
  replace (Z.of_nat (S i) - 1) with (Z.of_nat i) by lia.
  replace (Z.of_nat (S j) - 1) with (Z.of_nat j) by lia.
  destruct (in_int64 s) eqn:Es, (in_int64 (o sw)) eqn:Eo,
           (in_int64 (e sw)) eqn:Ee; cbn [andb];
  destruct v;
    repeat (first
      [ rewrite (iat_cell R C) by (first [lia | auto using shape_upd])
      | rewrite (iat_set_upd R C) by (first [lia | auto using shape_upd])
      | rewrite np_add_Ok by done
      | rewrite np_add_Raise by done
      | rewrite py_max_series by discriminate
      | rewrite py_index_winner by discriminate ]; rsimpl);
    rewrite ?cell_upd_ne by (intros [=]; lia);
    reflexivity.
Qed.

(** ** Loops over a range *)

Lemma py_range_from_1 (n : nat) :
  py_range 1 (Z.of_nat (S n)) = Z.of_nat <$> seq 1 n.
Proof.
  unfold py_range. replace (Z.to_nat (Z.of_nat (S n) - 1)) with n by lia.
  rewrite <- (fmap_S_seq 0 n).
  rewrite <- list_fmap_compose. apply list_fmap_ext. intros _ k _. simpl. lia.
Qed.

Lemma for_each_seq_inv {S : Type} (P : nat → S → Prop)
    (body : Z → S → result S) (n a : nat) (s r : S) :
  P a s →
  (∀ k s s', (a ≤ k < a + n)%nat → P k s → body (Z.of_nat k) s = Ok s' →
             P (Datatypes.S k) s') →
  for_each (Z.of_nat <$> seq a n) body s = Ok r → P (a + n)%nat r.
Proof.
  revert a s. induction n as [|n IH]; intros a s Ha Hstep; simpl.
  - intros [= <-]. by rewrite Nat.add_0_r.
  - intros H. apply bind_Ok in H as (s' & Hb & Hrest).
    replace (a + Datatypes.S n)%nat with (Datatypes.S a + n)%nat by lia.
    apply (IH (Datatypes.S a) s'); [| |done].
    + apply (Hstep a s); [lia|done|done].
    + intros k t t' Hk. apply Hstep. lia.
Qed.

Lemma for_each_seq_total {S : Type} (P : nat → S → Prop)
    (body : Z → S → result S) (n a : nat) (s : S) :
  P a s →
  (∀ k s, (a ≤ k < a + n)%nat → P k s →
          ∃ s', body (Z.of_nat k) s = Ok s' ∧ P (Datatypes.S k) s') →
  ∃ r, for_each (Z.of_nat <$> seq a n) body s = Ok r ∧ P (a + n)%nat r.
Proof.
  revert a s. induction n as [|n IH]; intros a s Ha Hstep; simpl.
  - exists s. by rewrite Nat.add_0_r.
  - destruct (Hstep a s) as (s' & Hb & Hs'); [lia|done|].
    rewrite Hb. rsimpl.
    replace (a + Datatypes.S n)%nat with (Datatypes.S a + n)%nat by lia.
    apply IH; [done|]. intros k t Hk. apply Hstep. lia.
Qed.

(** ** The loop body keeps the recurrences *)

Lemma cell_ok_fillCell_at_other (v : variant) (sw : SWMatrix) (s : Z)
    (i j i' j' : nat) :
  (S i', S j') ≠ (S i, S j) → (i', j') ≠ (S i, S j) →
  (i', S j') ≠ (S i, S j) → (S i', j') ≠ (S i, S j) →
  cell_ok v sw i' j' → cell_ok v (fillCell_at v sw s i j) i' j'.
Proof.
  intros N1 N2 N3 N4
    (c1 & c2 & s' & H1 & H2 & Hs & HM & HTM & HIx & HTIx & HIy & HTIy & HF & Hr).
  exists c1, c2, s'. destruct Hr as (? & ? & ?).
  unfold candsM, candsIx, candsIy in *.
  destruct v; cbn [fillCell_at F M Ix Iy TM TIx TIy o e seq1 seq2 score];
    rewrite !cell_upd_ne by assumption; repeat split; assumption.
Qed.

Lemma cell_ok_fillCell_at_new (R C : nat) (v : variant) (sw : SWMatrix) (s : Z)
    (i j : nat) (c1 c2 : ascii) :
  shaped R C sw → (S i < R)%nat → (S j < C)%nat →
  seq1 sw !! S j = Some c1 → seq2 sw !! S i = Some c2 →
  score sw c1 c2 = Some s →
  in_int64 s = true → in_int64 (o sw) = true → in_int64 (e sw) = true →
  cell_ok v (fillCell_at v sw s i j) i j.
Proof.
  intros [] Hi Hj H1 H2 Hs Rs Ro Re. exists c1, c2, s.
  unfold candsM, candsIx, candsIy.
  destruct v; cbn [fillCell_at F M Ix Iy TM TIx TIy o e seq1 seq2 score];
    rewrite !(cell_upd_eq R C) by assumption;
    rewrite !cell_upd_ne by (intros [=]; lia);
    repeat split; first [assumption | reflexivity].
Qed.

Lemma cells_fillCell_at_other (v : variant) (sw : SWMatrix) (s : Z)
    (i j i' j' : nat) :
  (i', j') ≠ (S i, S j) → cells (fillCell_at v sw s i j) i' j' = cells sw i' j'.
Proof.
  intros N. unfold cells. simpl. by rewrite !cell_upd_ne by done.
Qed.

Lemma filled_upto_shaped (v : variant) (sw0 sw : SWMatrix) (i0 j0 : nat) :
  filled_upto v sw0 sw i0 j0 →
  shaped (length (seq2 sw0)) (length (seq1 sw0)) sw.
Proof. intros []. split; try done; congruence. Qed.

Lemma filled_upto_step (v : variant) (sw0 sw sw' : SWMatrix) (i j : nat) :
  (S i < length (seq2 sw0))%nat → (S j < length (seq1 sw0))%nat →
  filled_upto v sw0 sw (S i) (S j) →
  fillCell v (Z.of_nat (S i)) (Z.of_nat (S j)) sw = Ok sw' →
  filled_upto v sw0 sw' (S i) (S (S j)).
Proof.
  intros Hi Hj Hinv Hcell.
  pose proof (filled_upto_shaped _ _ _ _ _ Hinv) as Hsh.
  destruct (lookup_lt_is_Some_2 (seq1 sw) (S j)) as [c1 H1];
    [rewrite (sh_seq1 _ _ _ Hsh); lia|].
  destruct (lookup_lt_is_Some_2 (seq2 sw) (S i)) as [c2 H2];
    [rewrite (sh_seq2 _ _ _ Hsh); lia|].
  rewrite (fillCell_spec _ _ v sw i j c1 c2 Hsh Hi Hj H1 H2) in Hcell.
  apply bind_Ok in Hcell as (s & Hs & Hcell).
  unfold score_at in Hs. destruct (score sw c1 c2) as [s'|] eqn:Es; [|done].
  injection Hs as ->.
  destruct (in_int64 s) eqn:Rs; [|done].
  destruct (in_int64 (o sw)) eqn:Ro; [|done].
  destruct (in_int64 (e sw)) eqn:Re; [|done].
  injection Hcell as <-.
  pose proof (shaped_fillCell_at _ _ v sw s i j Hsh) as Hsh'.
  destruct Hinv, Hsh'. split; try done.
  - intros i' j' Hi' Hj' (_ & _ & Hb).
    destruct (decide ((i', j') = (i, j))) as [[= -> ->]|Hne].
    + by eapply cell_ok_fillCell_at_new.
    + apply cell_ok_fillCell_at_other.
      * intros [= ? ?]. congruence.
      * intros [= ? ?]. lia.
      * intros [= ? ?]. lia.
      * intros [= ? ?]. lia.
      * apply fu_done0; [done|done|]. unfold before.
        split; [lia|]. split; [lia|].
        destruct Hb as [Hb|[Hb1 Hb2]]; [by left|].
        right. split; [done|].
        assert (j' ≠ j) by congruence. lia.
  - intros i' j' Hn. rewrite cells_fillCell_at_other.
    + apply fu_todo0. intros (Hb & ? & ?). apply Hn. split; [|done].
      unfold before in *. lia.
    + intros [= -> ->]. apply Hn. unfold before. lia.
Qed.

Lemma filled_upto_next_row (v : variant) (sw0 sw : SWMatrix) (i : nat) :
  filled_upto v sw0 sw i (length (seq1 sw0)) →
  filled_upto v sw0 sw (S i) 1.
Proof.
  intros []. split; try done.
  - intros i' j' Hi' Hj' Hb. apply fu_done0; [done|done|].
    unfold before in *. lia.
  - intros i' j' Hn. apply fu_todo0. intros (Hb & ? & ?). apply Hn.
    unfold before in *. lia.
Qed.

Lemma filled_upto_init (v : variant) (sc : ascii → ascii → option Z)
    (s1 s2 : list ascii) (og eg : Z) :
  filled_upto v (init sc s1 s2 og eg) (init sc s1 s2 og eg) 1 1.
Proof.
  split; try done; try apply shape_frame0.
  - intros i j _ _ Hb. unfold before in Hb. lia.
  - intros i j _. unfold cells. simpl. by rewrite !cell_frame0.
Qed.

Lemma fillMatrix_row (v : variant) (sw0 sw sw' : SWMatrix) (i : nat) :
  (1 ≤ length (seq1 sw0))%nat → (S i < length (seq2 sw0))%nat →
  filled_upto v sw0 sw (S i) 1 →
  for_each (py_range 1 (len (seq1 sw))) (fun j sw => fillCell v (Z.of_nat (S i)) j sw) sw
    = Ok sw' →
  filled_upto v sw0 sw' (S (S i)) 1.
Proof.
  intros HC Hi Hinv Hrow. apply filled_upto_next_row.
  unfold len in Hrow. rewrite (fu_seq1 _ _ _ _ _ Hinv) in Hrow.
  destruct (length (seq1 sw0)) as [|C] eqn:EC; [lia|].
  rewrite py_range_from_1 in Hrow.
  replace (S C) with (1 + C)%nat by lia.
  refine (for_each_seq_inv (fun j sw => filled_upto v sw0 sw (S i) j) _ C 1 sw sw'
            Hinv _ Hrow).
  intros k t t' Hk Ht Hb. destruct k as [|k]; [lia|].
  eapply filled_upto_step; [done| |done|done]. lia.
Qed.

(** What the loops of [fillMatrix] establish when they end normally. *)
Lemma fillMatrix_filled (v : variant) (sc : ascii → ascii → option Z)
    (s1 s2 : list ascii) (og eg : Z) (sw : SWMatrix) :
  fillMatrix v (init sc s1 s2 og eg) = Ok sw →
  filled v (init sc s1 s2 og eg) sw.
Proof.
  intros H. unfold fillMatrix, len in H. unfold filled.
  set (sw0 := init sc s1 s2 og eg) in *.
  assert (length (seq2 sw0) = S (length s2)) as ER by done.
  assert (length (seq1 sw0) = S (length s1)) as EC by done.
  rewrite ER in *. rewrite py_range_from_1 in H.
  replace (S (length s2)) with (1 + length s2)%nat by lia.
  refine (for_each_seq_inv (fun i sw => filled_upto v sw0 sw i 1) _ _ 1 sw0 sw
            (filled_upto_init v sc s1 s2 og eg) _ H).
  intros k t t' Hk Ht Hb. destruct k as [|k]; [lia|].
  eapply fillMatrix_row; [lia| |done|done]. lia.
Qed.

(** [fillMatrix] ends normally as soon as the table covers the symbols with
    [int64] values and, when the loops have a cell to fill, the two
    penalties are [int64] values too. *)
Lemma fillMatrix_total (v : variant) (sc : ascii → ascii → option Z)
    (s1 s2 : list ascii) (og eg : Z) :
  covers sc s1 s2 → int64_table sc s1 s2 →
  (s1 ≠ [] → s2 ≠ [] → in_int64 og = true ∧ in_int64 eg = true) →
  ∃ sw, fillMatrix v (init sc s1 s2 og eg) = Ok sw.
Proof.
  intros Hcov Htab Hpen. unfold fillMatrix, len.
  set (sw0 := init sc s1 s2 og eg).
  assert (length (seq2 sw0) = S (length s2)) as ER by done.
  assert (length (seq1 sw0) = S (length s1)) as EC by done.
  rewrite ER, py_range_from_1.
  destruct (for_each_seq_total (fun i sw => filled_upto v sw0 sw i 1)
    (fun i sw => for_each (py_range 1 (Z.of_nat (length (seq1 sw))))
                   (fun j sw => fillCell v i j sw) sw)
    (length s2) 1 sw0 (filled_upto_init v sc s1 s2 og eg)) as (r & Hr & _);
    [|by exists r].
  intros i sw Hi Hinv. destruct i as [|i]; [lia|].
  rewrite (fu_seq1 _ _ _ _ _ Hinv), EC, py_range_from_1.
  destruct (for_each_seq_total (fun j sw => filled_upto v sw0 sw (S i) j)
    (fun j sw => fillCell v (Z.of_nat (S i)) j sw)
    (length s1) 1 sw Hinv) as (r & Hr & Hr').
  - intros j t Hj Ht. destruct j as [|j]; [lia|].
    pose proof (filled_upto_shaped _ _ _ _ _ Ht) as Hsh.
    destruct (lookup_lt_is_Some_2 s1 j) as [c1 H1]; [lia|].
    destruct (lookup_lt_is_Some_2 s2 i) as [c2 H2]; [lia|].
    assert (seq1 t !! S j = Some c1) as H1'
      by (rewrite (fu_seq1 _ _ _ _ _ Ht); exact H1).
    assert (seq2 t !! S i = Some c2) as H2'
      by (rewrite (fu_seq2 _ _ _ _ _ Ht); exact H2).
    assert (c1 ∈ s1) as I1 by (by eapply list_elem_of_lookup_2).
    assert (c2 ∈ s2) as I2 by (by eapply list_elem_of_lookup_2).
    destruct (Hcov c1 c2 I1 I2) as [s Hs].
    pose proof (Htab c1 c2 s I1 I2 Hs) as Rs.
    destruct Hpen as [Ro Re];
      [intros ->; by apply not_elem_of_nil in I1
      |intros ->; by apply not_elem_of_nil in I2|].
    assert (fillCell v (Z.of_nat (S i)) (Z.of_nat (S j)) t
            = Ok (fillCell_at v t s i j)) as Hcell.
    { rewrite (fillCell_spec _ _ v t i j c1 c2 Hsh); [|rewrite ER; lia|rewrite EC; lia|done|done].
      unfold score_at. rewrite (fu_score _ _ _ _ _ Ht), (fu_o _ _ _ _ _ Ht),
        (fu_e _ _ _ _ _ Ht).
      cbn [score o e sw0 init]. rewrite Hs. rsimpl. by rewrite Rs, Ro, Re. }
    exists (fillCell_at v t s i j). split; [done|].
    eapply filled_upto_step; [| |done|done]; [rewrite ER|rewrite EC]; lia.
  - exists r. split; [done|]. apply filled_upto_next_row.
    by replace (length (seq1 sw0)) with (1 + length s1)%nat by (rewrite EC; lia).
Qed.

Lemma winner_first_max_at (cands : list Z) :
  cands ≠ [] → first_max_at cands (winner cands).
Proof.
  intros Hne. exists (first_pos (series_max cands) cands).
  split; [done|]. split.
  - apply first_pos_lookup. by apply series_max_in.
  - intros n' y Hn' Hy.
    pose proof (series_max_lookup _ _ _ Hy).
    pose proof (first_pos_least _ _ _ Hn') as Hl.
    assert (y ≠ series_max cands) by congruence. lia.
Qed.

Lemma candsM_nonempty sw s i j : candsM sw s i j ≠ [].
Proof. done. Qed.

Lemma candsIx_nonempty v sw i j : candsIx v sw i j ≠ [].
Proof. by destruct v. Qed.

Lemma candsIy_nonempty v sw i j : candsIy v sw i j ≠ [].
Proof. by destruct v. Qed.

Lemma series_max_floor (l : list Z) : 0 ∈ l → 0 ≤ series_max l.
Proof. apply series_max_ge. Qed.

Lemma candsM_floor sw s i j : 0 ∈ candsM sw s i j.
Proof. unfold candsM. apply list_elem_of_In. simpl. auto 10. Qed.

Lemma candsIx_floor v sw i j : 0 ∈ candsIx v sw i j.
Proof. destruct v; unfold candsIx; apply list_elem_of_In; simpl; auto 10. Qed.

Lemma candsIy_floor v sw i j : 0 ∈ candsIy v sw i j.
Proof. destruct v; unfold candsIy; apply list_elem_of_In; simpl; auto 10. Qed.

(** In a filled object every coordinate is either on the border or before
    the end of the loops. *)
Lemma filled_cases (v : variant) (sw0 sw : SWMatrix) (i j : nat) :
  filled v sw0 sw →
  cells sw i j = [0; 0; 0; 0; 0; 0; 0] ∨
  ∃ i' j', i = S i' ∧ j = S j' ∧ (i < length (seq2 sw0))%nat ∧
           (j < length (seq1 sw0))%nat ∧ cell_ok v sw i' j'.
Proof.
  intros Hf.
  destruct (decide ((1 ≤ i)%nat ∧ (1 ≤ j)%nat ∧ (i < length (seq2 sw0))%nat
                    ∧ (j < length (seq1 sw0))%nat)) as [(H1 & H2 & H3 & H4)|Hn].
  - right. destruct i as [|i']; [lia|]. destruct j as [|j']; [lia|].
    exists i', j'. repeat split; try done.
    apply (fu_done _ _ _ _ _ Hf); [done|done|]. unfold before. lia.
  - left. apply (fu_todo _ _ _ _ _ Hf). unfold before. lia.
Qed.

Lemma filled_nonneg (v : variant) (sw0 sw : SWMatrix) (i j : nat) :
  filled v sw0 sw →
  0 ≤ cell (F sw) i j ∧ 0 ≤ cell (M sw) i j ∧
  0 ≤ cell (Ix sw) i j ∧ 0 ≤ cell (Iy sw) i j.
Proof.
  intros Hf. destruct (filled_cases v sw0 sw i j Hf) as [Hz|(i' & j' & -> & -> & _ & _ & Hok)].
  - unfold cells in Hz. injection Hz as -> -> -> -> _ _ _. lia.
  - destruct Hok as (c1 & c2 & s & _ & _ & _ & HM & _ & HIx & _ & HIy & _ & HF & _).
    pose proof (series_max_floor _ (candsM_floor sw s i' j')).
    pose proof (series_max_floor _ (candsIx_floor v sw i' j')).
    pose proof (series_max_floor _ (candsIy_floor v sw i' j')).
    assert (cell (M sw) (S i') (S j') ≤ cell (F sw) (S i') (S j')).
    { rewrite HF. apply series_max_ge. apply elem_of_cons. by left. }
    lia.
Qed.

Lemma cands_fit (l : list Z) :
  l ≠ [] → (∀ x, x ∈ l → x ≤ int64_max) → series_max l ≤ int64_max.
Proof. intros Hne Hb. apply Hb. by apply series_max_in. Qed.

Lemma candsM_fit sw s i j : series_max (candsM sw s i j) ≤ int64_max.
Proof.
  apply cands_fit; [done|]. intros x Hx. apply list_elem_of_In in Hx.
  pose proof int64_max_pos. unfold candsM in Hx. cbn [In] in Hx.
  destruct Hx as [<-|[<-|[<-|[<-|[]]]]]; try apply wrap64_range; lia.
Qed.

Lemma candsIx_fit v sw i j : series_max (candsIx v sw i j) ≤ int64_max.
Proof.
  apply cands_fit; [by destruct v|]. intros x Hx. apply list_elem_of_In in Hx.
  pose proof int64_max_pos. unfold candsIx in Hx.
  destruct v; cbn [In] in Hx;
    destruct Hx as [<-|[<-|[<-|[<-|[]]]]]; try apply wrap64_range; lia.
Qed.

Lemma candsIy_fit v sw i j : series_max (candsIy v sw i j) ≤ int64_max.
Proof.
  apply cands_fit; [by destruct v|]. intros x Hx. apply list_elem_of_In in Hx.
  pose proof int64_max_pos. unfold candsIy in Hx.
  destruct v; cbn [In] in Hx;
    destruct Hx as [<-|[<-|[<-|[<-|[]]]]]; try apply wrap64_range; lia.
Qed.

(** Every score cell of a filled object is an [int64] value. *)
Lemma filled_fits (v : variant) (sw0 sw : SWMatrix) (i j : nat) :
  filled v sw0 sw →
  cell (M sw) i j ≤ int64_max ∧ cell (Ix sw) i j ≤ int64_max ∧
  cell (Iy sw) i j ≤ int64_max.
Proof.
  intros Hf. pose proof int64_max_pos.
  destruct (filled_cases v sw0 sw i j Hf) as [Hz|(i' & j' & -> & -> & _ & _ & Hok)].
  - unfold cells in Hz. injection Hz as _ -> -> -> _ _ _. lia.
  - destruct Hok as (c1 & c2 & s & _ & _ & _ & -> & _ & -> & _ & -> & _).
    auto using candsM_fit, candsIx_fit, candsIy_fit.
Qed.

(** The range of the similarity and the penalties at a filled cell. *)
Lemma cell_ok_ranges (v : variant) (sw : SWMatrix) (i j : nat) :
  cell_ok v sw i j →
  int64_min ≤ o sw ≤ int64_max ∧ int64_min ≤ e sw ≤ int64_max.
Proof.
  intros (c1 & c2 & s & _ & _ & _ & _ & _ & _ & _ & _ & _ & _ & _ & Ro & Re).
  by apply in_int64_spec in Ro, Re.
Qed.

Lemma series_max_3 (a b c : Z) : series_max [a; b; c] = Z.max (Z.max a b) c.
Proof. done. Qed.

Lemma filled_F_max (v : variant) (sw0 sw : SWMatrix) (i j : nat) :
  filled v sw0 sw →
  cell (F sw) i j =
  Z.max (Z.max (cell (M sw) i j) (cell (Ix sw) i j)) (cell (Iy sw) i j).
Proof.
  intros Hf. destruct (filled_cases v sw0 sw i j Hf) as [Hz|(i' & j' & -> & -> & _ & _ & Hok)].
  - unfold cells in Hz. injection Hz as -> -> -> -> _ _ _. done.
  - destruct Hok as (c1 & c2 & s & _ & _ & _ & _ & _ & _ & _ & _ & _ & HF & _).
    by rewrite HF, series_max_3.
Qed.

(** ** The best score and its coordinate *)

Lemma cell_lookup (m : matrix) (i j : nat) (row : list Z) (x : Z) :
  m !! i = Some row → row !! j = Some x → cell m i j = x.
Proof. intros Hi Hj. unfold cell. rewrite Hi. simpl. by rewrite Hj. Qed.

Lemma shape_lookup (R C : nat) (m : matrix) (i j : nat) :
  shape R C m → (i < R)%nat → (j < C)%nat →
  ∃ row, m !! i = Some row ∧ row !! j = Some (cell m i j).
Proof.
  intros [HR HC] Hi Hj.
  destruct (lookup_lt_is_Some_2 m i) as [row Hrow]; [lia|].
  destruct (lookup_lt_is_Some_2 row j) as [x Hx];
    [rewrite (HC _ _ Hrow); lia|].
  exists row. split; [done|]. by rewrite (cell_lookup _ _ _ _ _ Hrow Hx).
Qed.

Lemma column_lookup (R C : nat) (m : matrix) (i j : nat) :
  shape R C m → (i < R)%nat → column m j !! i = Some (cell m i j).
Proof.
  intros [HR HC] Hi. unfold column, cell. rewrite list_lookup_fmap.
  destruct (lookup_lt_is_Some_2 m i) as [row Hrow]; [lia|].
  by rewrite Hrow.
Qed.

Lemma ncols_shape (R C : nat) (m : matrix) :
  shape R C m → (1 ≤ R)%nat → ncols m = C.
Proof.
  intros [HR HC] H1. destruct m as [|row m]; simpl in *; [lia|].
  by apply (HC 0%nat).
Qed.

Lemma frame_max_lookup (R C : nat) (m : matrix) (j : nat) :
  shape R C m → (1 ≤ R)%nat → (j < C)%nat →
  frame_max m !! j = Some (series_max (column m j)).
Proof.
  intros Hs H1 Hj. unfold frame_max. rewrite list_lookup_fmap.
  rewrite (ncols_shape R C) by done.
  by rewrite (lookup_seq_lt 0 C j) by done.
Qed.

Lemma frame_max_upper (R C : nat) (m : matrix) (i j : nat) :
  shape R C m → (i < R)%nat → (j < C)%nat →
  cell m i j ≤ series_max (frame_max m).
Proof.
  intros Hs Hi Hj.
  pose proof (series_max_lookup _ _ _ (column_lookup R C m i j Hs Hi)).
  assert (1 ≤ R)%nat as H1 by lia.
  pose proof (series_max_lookup _ _ _ (frame_max_lookup R C m j Hs H1 Hj)).
  lia.
Qed.

Lemma frame_max_attained (R C : nat) (m : matrix) :
  shape R C m → (1 ≤ R)%nat → (1 ≤ C)%nat →
  ∃ i j, (i < R)%nat ∧ (j < C)%nat ∧ cell m i j = series_max (frame_max m).
Proof.
  intros Hs HR HC.
  assert (frame_max m ≠ []) as Hne.
  { intros E. pose proof (frame_max_lookup R C m 0 Hs HR HC) as H.
    by rewrite E in H. }
  apply series_max_in, list_elem_of_lookup in Hne as [j Hj].
  assert (j < C)%nat as HjC.
  { apply lookup_lt_Some in Hj. unfold frame_max in Hj.
    rewrite length_fmap, length_seq, (ncols_shape R C) in Hj; done. }
  rewrite (frame_max_lookup R C m j Hs HR HjC) in Hj. injection Hj as Hj.
  assert (column m j ≠ []) as Hne'.
  { intros E. pose proof (column_lookup R C m 0 j Hs HR) as H.
    by rewrite E in H. }
  apply series_max_in, list_elem_of_lookup in Hne' as [i Hi].
  assert (i < R)%nat as HiR.
  { apply lookup_lt_Some in Hi. unfold column in Hi.
    rewrite length_fmap in Hi. destruct Hs. lia. }
  rewrite (column_lookup R C m i j Hs HiR) in Hi. injection Hi as Hi.
  exists i, j. repeat split; try done. congruence.
Qed.

Lemma series_argmax_spec (l : list Z) :
  l ≠ [] →
  l !! series_argmax l = Some (series_max l) ∧
  ∀ (k : nat) (x : Z), (k < series_argmax l)%nat → l !! k = Some x →
    x < series_max l.
Proof.
  intros Hne. unfold series_argmax. split.
  - apply first_pos_lookup. by apply series_max_in.
  - intros k x Hk Hx.
    pose proof (series_max_lookup _ _ _ Hx).
    pose proof (first_pos_least _ _ _ Hk).
    assert (x ≠ series_max l) by congruence. lia.
Qed.

Lemma row_max_upper (R C : nat) (m : matrix) (i : nat) (row : list Z) :
  shape R C m → (1 ≤ C)%nat → m !! i = Some row →
  series_max row ≤ series_max (frame_max m).
Proof.
  intros Hs HC Hrow.
  assert (i < R)%nat as Hi by (apply lookup_lt_Some in Hrow; destruct Hs; lia).
  assert (row ≠ []) as Hne.
  { destruct Hs as [_ Hlen]. specialize (Hlen _ _ Hrow).
    intros ->. simpl in Hlen. lia. }
  apply series_max_in, list_elem_of_lookup in Hne as [j Hj].
  assert (j < C)%nat as HjC.
  { apply lookup_lt_Some in Hj. destruct Hs as [_ Hlen].
    rewrite (Hlen _ _ Hrow) in Hj. done. }
  rewrite <- (cell_lookup _ _ _ _ _ Hrow Hj).
  by apply (frame_max_upper R C).
Qed.

Lemma frame_max_axis1_max (R C : nat) (m : matrix) :
  shape R C m → (1 ≤ R)%nat → (1 ≤ C)%nat →
  series_max (frame_max_axis1 m) = series_max (frame_max m).
Proof.
  intros Hs HR HC. apply Z.le_antisymm.
  - assert (frame_max_axis1 m ≠ []) as Hne.
    { unfold frame_max_axis1. destruct m; [|done]. destruct Hs. simpl in *. lia. }
    apply series_max_in, list_elem_of_lookup in Hne as [i Hi].
    unfold frame_max_axis1 in Hi. rewrite list_lookup_fmap in Hi.
    destruct (m !! i) as [row|] eqn:Hrow; [|done]. injection Hi as Hi.
    change (series_max <$> m) with (frame_max_axis1 m) in Hi. rewrite <- Hi.
    by apply (row_max_upper R C m i).
  - destruct (frame_max_attained R C m Hs HR HC) as (i & j & Hi & Hj & <-).
    destruct (shape_lookup R C m i j Hs Hi Hj) as (row & Hrow & Hx).
    pose proof (series_max_lookup _ _ _ Hx).
    assert (frame_max_axis1 m !! i = Some (series_max row)) as Hr.
    { unfold frame_max_axis1. by rewrite list_lookup_fmap, Hrow. }
    pose proof (series_max_lookup _ _ _ Hr). lia.
Qed.

(** [getMaxCoord] on a frame of at least one row and one column: the row is
    the first that holds the greatest cell of the frame, the column the
    first in that row. *)
Lemma getMaxCoord_spec (R C : nat) (sw : SWMatrix) :
  shape R C (F sw) → (1 ≤ R)%nat → (1 ≤ C)%nat →
  ∃ row,
    F sw !! (getMaxCoord sw).1 = Some row ∧
    row !! (getMaxCoord sw).2 = Some (getMax sw) ∧
    (∀ (i' : nat) (row' : list Z) (x : Z),
       (i' < (getMaxCoord sw).1)%nat → F sw !! i' = Some row' → x ∈ row' →
       x < getMax sw) ∧
    (∀ (j' : nat) (x : Z),
       (j' < (getMaxCoord sw).2)%nat → row !! j' = Some x → x < getMax sw).
Proof.
  intros Hs HR HC. unfold getMaxCoord, getMax. cbn [fst snd].
  assert (frame_max_axis1 (F sw) ≠ []) as Hne.
  { unfold frame_max_axis1. destruct (F sw); [|done]. destruct Hs. simpl in *. lia. }
  destruct (series_argmax_spec _ Hne) as [Hat Hleast].
  rewrite (frame_max_axis1_max R C) in Hat, Hleast by done.
  set (i := series_argmax (frame_max_axis1 (F sw))) in *.
  unfold frame_max_axis1 in Hat. rewrite list_lookup_fmap in Hat.
  destruct (F sw !! i) as [row|] eqn:Hrow; [|done]. injection Hat as Hat.
  exists row. cbn [from_option id].
  assert (row ≠ []) as Hne'.
  { destruct Hs as [_ Hlen]. specialize (Hlen _ _ Hrow).
    intros ->. simpl in Hlen. lia. }
  destruct (series_argmax_spec _ Hne') as [Hat' Hleast'].
  rewrite Hat in Hat', Hleast'.
  repeat split; try done.
  intros i' row' x Hi' Hrow' Hx.
  assert (frame_max_axis1 (F sw) !! i' = Some (series_max row')) as Hr.
  { unfold frame_max_axis1. by rewrite list_lookup_fmap, Hrow'. }
  pose proof (Hleast _ _ Hi' Hr). pose proof (series_max_ge _ _ Hx). lia.
Qed.

Lemma getMax_upper (R C : nat) (sw : SWMatrix) (row : list Z) (x : Z) :
  shape R C (F sw) → row ∈ F sw → x ∈ row → x ≤ getMax sw.
Proof.
  intros Hs Hrow Hx.
  apply list_elem_of_lookup in Hrow as [i Hi].
  apply list_elem_of_lookup in Hx as [j Hj].
  rewrite <- (cell_lookup _ _ _ _ _ Hi Hj). unfold getMax.
  apply (frame_max_upper R C); [done| |].
  - apply lookup_lt_Some in Hi. destruct Hs. lia.
  - apply lookup_lt_Some in Hj. destruct Hs as [_ Hlen].
    by rewrite (Hlen _ _ Hi) in Hj.
Qed.

(** ** The walk of [traceback] *)

Lemma traceback_step_0 (R C : nat) (sw : SWMatrix) (i j : nat) (cv : Z)
    (ls : lines) (c1 c2 : ascii) :
  shaped R C sw → (S i < R)%nat → (S j < C)%nat →
  seq1 sw !! S j = Some c1 → seq2 sw !! S i = Some c2 →
  traceback_step sw {| state := 0; wi := Z.of_nat (S i); wj := Z.of_nat (S j);
                       currVal := cv; out := ls |} =
  Ok {| state := cell (TM sw) (S i) (S j); wi := Z.of_nat i; wj := Z.of_nat j;
        currVal := cell (M sw) i j;
        out := {| matchStr1 := append (matchStr1 ls) c1;
                  matchLine := append (matchLine ls) (mark c1 c2);
                  matchStr2 := append (matchStr2 ls) c2 |} |}.
Proof.
  intros [] Hi Hj H1 H2. unfold traceback_step. cbn [state wi wj currVal out].
  rewrite !(py_nth_nat (seq1 sw) (S j)), H1.
  rewrite !(py_nth_nat (seq2 sw) (S i)), H2. rsimpl.
  cbn [Z.eqb].
  replace (Z.of_nat (S i) - 1) with (Z.of_nat i) by lia.
  replace (Z.of_nat (S j) - 1) with (Z.of_nat j) by lia.
  rewrite !(iat_cell R C) by (done || lia). rsimpl. done.
Qed.

Lemma traceback_step_1 (R C : nat) (sw : SWMatrix) (i j : nat) (cv : Z)
    (ls : lines) (c1 c2 : ascii) :
  shaped R C sw → (S i < R)%nat → (j < C)%nat →
  seq1 sw !! j = Some c1 → seq2 sw !! S i = Some c2 →
  traceback_step sw {| state := 1; wi := Z.of_nat (S i); wj := Z.of_nat j;
                       currVal := cv; out := ls |} =
  Ok {| state := cell (TIx sw) (S i) j; wi := Z.of_nat i; wj := Z.of_nat j;
        currVal := cell (Ix sw) i j;
        out := {| matchStr1 := append (matchStr1 ls) gap_symbol;
                  matchLine := append (matchLine ls) (mark c1 c2);
                  matchStr2 := append (matchStr2 ls) c2 |} |}.
Proof.
  intros [] Hi Hj H1 H2. unfold traceback_step. cbn [state wi wj currVal out].
  rewrite !(py_nth_nat (seq1 sw) j), H1.
  rewrite !(py_nth_nat (seq2 sw) (S i)), H2. rsimpl.
  cbn [Z.eqb Pos.eqb].
  replace (Z.of_nat (S i) - 1) with (Z.of_nat i) by lia.
  rewrite !(iat_cell R C) by (done || lia). rsimpl. done.
Qed.

Lemma traceback_step_2 (R C : nat) (sw : SWMatrix) (i j : nat) (cv : Z)
    (ls : lines) (c1 c2 : ascii) :
  shaped R C sw → (i < R)%nat → (S j < C)%nat →
  seq1 sw !! S j = Some c1 → seq2 sw !! i = Some c2 →
  traceback_step sw {| state := 2; wi := Z.of_nat i; wj := Z.of_nat (S j);
                       currVal := cv; out := ls |} =
  Ok {| state := cell (TIy sw) i (S j); wi := Z.of_nat i; wj := Z.of_nat j;
        currVal := cell (Iy sw) i j;
        out := {| matchStr1 := append (matchStr1 ls) c1;
                  matchLine := append (matchLine ls) (mark c1 c2);
                  matchStr2 := append (matchStr2 ls) gap_symbol |} |}.
Proof.
  intros [] Hi Hj H1 H2. unfold traceback_step. cbn [state wi wj currVal out].
  rewrite !(py_nth_nat (seq1 sw) (S j)), H1.
  rewrite !(py_nth_nat (seq2 sw) i), H2. rsimpl.
  cbn [Z.eqb Pos.eqb].
  replace (Z.of_nat (S j) - 1) with (Z.of_nat j) by lia.
  rewrite !(iat_cell R C) by (done || lia). rsimpl. done.
Qed.

Lemma traceback_loop_total (R C : nat) (sw : SWMatrix) :
  walkable R C sw →
  ∀ (fuel : nat) (st : Z) (i j : nat) (cv : Z) (ls : lines),
    (i < R)%nat → (j < C)%nat → 0 ≤ st ≤ 3 →
    (cv ≠ 0 → (1 ≤ i)%nat ∧ (1 ≤ j)%nat) → (i + j < fuel)%nat →
    ∃ w', traceback_loop fuel sw
            {| state := st; wi := Z.of_nat i; wj := Z.of_nat j;
               currVal := cv; out := ls |} = Ok w' ∧
          ∃ i' j' : nat, wi w' = Z.of_nat i' ∧ wj w' = Z.of_nat j' ∧
                         (i' ≤ i)%nat ∧ (j' ≤ j)%nat.
Proof.
  intros [Hsh Hb Hst]. induction fuel as [|fuel IH];
    intros st i j cv ls Hi Hj Hs Hcv Hf; [lia|].
  cbn [traceback_loop currVal state].
  destruct (Z.eqb_spec cv 0) as [->|Hne]; cbn [negb andb].
  { eexists. split; [done|]. exists i, j. cbn. lia. }
  destruct (Z.eqb_spec st 3) as [->|Hne3]; cbn [negb andb].
  { eexists. split; [done|]. exists i, j. cbn. lia. }
  destruct (Hcv Hne) as [Hi1 Hj1].
  destruct i as [|i]; [lia|]. destruct j as [|j]; [lia|].
  destruct (lookup_lt_is_Some_2 (seq1 sw) (S j)) as [c1 H1];
    [rewrite (sh_seq1 _ _ _ Hsh); lia|].
  destruct (lookup_lt_is_Some_2 (seq2 sw) (S i)) as [c2 H2];
    [rewrite (sh_seq2 _ _ _ Hsh); lia|].
  assert (st = 0 ∨ st = 1 ∨ st = 2) as [->|[->| ->]] by lia.
  - rewrite (traceback_step_0 R C sw i j cv ls c1 c2) by done. rsimpl.
    destruct (IH (cell (TM sw) (S i) (S j)) i j (cell (M sw) i j)
                {| matchStr1 := append (matchStr1 ls) c1;
                   matchLine := append (matchLine ls) (mark c1 c2);
                   matchStr2 := append (matchStr2 ls) c2 |})
      as (w' & Hw' & i' & j' & ? & ? & ? & ?); try lia.
    + apply Hst.
    + intros Hnz. destruct i as [|i].
      { destruct (Hb 0%nat j) as (? & ? & ?); [by left|]. done. }
      destruct j as [|j]; [|lia].
      destruct (Hb (S i) 0%nat) as (? & ? & ?); [by right|]. done.
    + exists w'. split; [done|]. exists i', j'. repeat split; try done; lia.
  - rewrite (traceback_step_1 R C sw i (S j) cv ls c1 c2) by done. rsimpl.
    destruct (IH (cell (TIx sw) (S i) (S j)) i (S j) (cell (Ix sw) i (S j))
                {| matchStr1 := append (matchStr1 ls) gap_symbol;
                   matchLine := append (matchLine ls) (mark c1 c2);
                   matchStr2 := append (matchStr2 ls) c2 |})
      as (w' & Hw' & i' & j' & ? & ? & ? & ?); try lia.
    + apply Hst.
    + intros Hnz. destruct i as [|i]; [|lia].
      destruct (Hb 0%nat (S j)) as (? & ? & ?); [by left|]. done.
    + exists w'. split; [done|]. exists i', j'. repeat split; try done; lia.
  - rewrite (traceback_step_2 R C sw (S i) j cv ls c1 c2) by done. rsimpl.
    destruct (IH (cell (TIy sw) (S i) (S j)) (S i) j (cell (Iy sw) (S i) j)
                {| matchStr1 := append (matchStr1 ls) c1;
                   matchLine := append (matchLine ls) (mark c1 c2);
                   matchStr2 := append (matchStr2 ls) gap_symbol |})
      as (w' & Hw' & i' & j' & ? & ? & ? & ?); try lia.
    + apply Hst.
    + intros Hnz. destruct j as [|j]; [|lia].
      destruct (Hb (S i) 0%nat) as (? & ? & ?); [by right|]. done.
    + exists w'. split; [done|]. exists i', j'. repeat split; try done; lia.
Qed.

Lemma py_nth_in_range {A : Type} (l : list A) (i : Z) :
  0 ≤ i < Z.of_nat (length l) → ∃ a, py_nth l i = Ok a.
Proof.
  intros Hi. replace i with (Z.of_nat (Z.to_nat i)) by lia.
  rewrite py_nth_nat.
  destruct (lookup_lt_is_Some_2 l (Z.to_nat i)) as [a Ha]; [lia|].
  rewrite Ha. by exists a.
Qed.

Lemma completeFront_loop_total (sw : SWMatrix) (fuel : nat) :
  ∀ (i j : Z) (ls : lines),
    i < len (seq2 sw) → j < len (seq1 sw) → Z.max i j ≤ Z.of_nat fuel →
    ∃ ls', completeFront_loop fuel sw i j ls = Ok ls'.
Proof.
  unfold len. induction fuel as [|fuel IH]; intros i j ls Hi Hj Hf;
    cbn [completeFront_loop].
  - destruct (Z.ltb_spec 0 i); [lia|]. destruct (Z.ltb_spec 0 j); [lia|].
    by eexists.
  - destruct (Z.ltb_spec 0 i) as [Hi0|Hi0];
      destruct (Z.ltb_spec 0 j) as [Hj0|Hj0]; cbn [orb];
      try (destruct (py_nth_in_range (seq1 sw) j) as [c1 ->]; [lia|]);
      try (destruct (py_nth_in_range (seq2 sw) i) as [c2 ->]; [lia|]);
      rsimpl; try (apply IH; lia).
    by eexists.
Qed.

Lemma completeBack_loop_total (sw : SWMatrix) (fuel : nat) :
  ∀ (i j : Z) (ls : lines),
    0 ≤ i → 0 ≤ j →
    Z.max (len (seq2 sw) - i) (len (seq1 sw) - j) ≤ Z.of_nat fuel →
    ∃ ls', completeBack_loop fuel sw i j ls = Ok ls'.
Proof.
  unfold len. induction fuel as [|fuel IH]; intros i j ls Hi Hj Hf;
    cbn [completeBack_loop]; unfold len.
  - destruct (Z.ltb_spec i (Z.of_nat (length (seq2 sw)))); [lia|].
    destruct (Z.ltb_spec j (Z.of_nat (length (seq1 sw)))); [lia|].
    by eexists.
  - destruct (Z.ltb_spec i (Z.of_nat (length (seq2 sw)))) as [Hi0|Hi0];
      destruct (Z.ltb_spec j (Z.of_nat (length (seq1 sw)))) as [Hj0|Hj0];
      cbn [orb];
      try (destruct (py_nth_in_range (seq1 sw) j) as [c1 ->]; [lia|]);
      try (destruct (py_nth_in_range (seq2 sw) i) as [c2 ->]; [lia|]);
      rsimpl; try (apply IH; lia).
    by eexists.
Qed.

Lemma getMaxCoord_in_range (R C : nat) (sw : SWMatrix) :
  shape R C (F sw) → (1 ≤ R)%nat → (1 ≤ C)%nat →
  ((getMaxCoord sw).1 < R)%nat ∧ ((getMaxCoord sw).2 < C)%nat.
Proof.
  intros Hs HR HC.
  destruct (getMaxCoord_spec R C sw Hs HR HC) as (row & Hrow & Hx & _).
  pose proof (lookup_lt_Some _ _ _ Hrow) as H1.
  pose proof (lookup_lt_Some _ _ _ Hx) as H2.
  destruct Hs as [HlenR Hlen]. rewrite (Hlen _ _ Hrow) in H2. lia.
Qed.

(** On a walkable object [traceback] returns, and returns the same three
    lines whatever its two arguments are. *)
Lemma traceback_total (R C : nat) (sw : SWMatrix) :
  walkable R C sw → (1 ≤ R)%nat → (1 ≤ C)%nat →
  ∃ w ls, (∀ x y, traceback_walk sw x y = Ok w) ∧
          (∀ x y, traceback sw x y = Ok ls).
Proof.
  intros Hw HR HC. pose proof (wk_shaped _ _ _ Hw) as Hsh.
  destruct (getMaxCoord_in_range R C sw (sh_F _ _ _ Hsh) HR HC) as [Hi Hj].
  unfold traceback, traceback_walk.
  destruct (getMaxCoord sw) as [i j]. cbn [fst snd] in Hi, Hj.
  rewrite (iat_cell R C) by (done || apply Hsh). rsimpl.
  destruct (traceback_loop_total R C sw Hw (traceback_fuel sw) 0 i j
              (cell (M sw) i j) no_lines)
    as (w & Hloop & i' & j' & Hi' & Hj' & ? & ?); try done; try lia.
  - intros Hnz. destruct i as [|i].
    { destruct (wk_border _ _ _ Hw 0%nat j) as (? & _); [by left|]. done. }
    destruct j as [|j]; [|lia].
    destruct (wk_border _ _ _ Hw (S i) 0%nat) as (? & _); [by right|]. done.
  - unfold traceback_fuel. rewrite (sh_seq1 _ _ _ Hsh), (sh_seq2 _ _ _ Hsh). lia.
  - rewrite Hloop. rsimpl. unfold completeFront.
    destruct (completeFront_loop_total sw (Z.to_nat (Z.max (wi w) (wj w)))
                (wi w) (wj w)
                {| matchStr1 := append (matchStr1 (out w)) "("%char;
                   matchLine := append (matchLine (out w)) " "%char;
                   matchStr2 := append (matchStr2 (out w)) "("%char |})
      as [ls1 Hls1].
    { unfold len. rewrite (sh_seq2 _ _ _ Hsh). lia. }
    { unfold len. rewrite (sh_seq1 _ _ _ Hsh). lia. }
    { lia. }
    rewrite Hls1. rsimpl. unfold completeBack.
    destruct (completeBack_loop_total sw
                (Z.to_nat (Z.max (len (seq2 sw) - (Z.of_nat i + 1))
                                 (len (seq1 sw) - (Z.of_nat j + 1))))
                (Z.of_nat i + 1) (Z.of_nat j + 1)
                {| matchStr1 := append (matchStr1 (reverse_lines ls1)) ")"%char;
                   matchLine := append (matchLine (reverse_lines ls1)) " "%char;
                   matchStr2 := append (matchStr2 (reverse_lines ls1)) ")"%char |})
      as [ls2 Hls2]; try lia.
    exists w, ls2. split; intros _ _; done.
Qed.

Lemma winner_range (cands : list Z) :
  cands ≠ [] → 0 ≤ winner cands < Z.of_nat (length cands).
Proof.
  intros Hne. unfold winner.
  pose proof (first_pos_lt _ _ (series_max_in cands Hne)). lia.
Qed.

Lemma filled_walkable (v : variant) (sw0 sw : SWMatrix) :
  filled v sw0 sw → walkable (length (seq2 sw0)) (length (seq1 sw0)) sw.
Proof.
  intros Hf. split.
  - by eapply filled_upto_shaped.
  - intros i j Hij.
    destruct (filled_cases v sw0 sw i j Hf) as [Hz|(i' & j' & -> & -> & _)].
    + unfold cells in Hz. by injection Hz as _ -> -> -> _ _ _.
    + lia.
  - intros i j.
    destruct (filled_cases v sw0 sw i j Hf) as [Hz|(i' & j' & -> & -> & _ & _ & Hok)].
    + unfold cells in Hz. injection Hz as _ _ _ _ -> -> ->. lia.
    + destruct Hok as (c1 & c2 & s & _ & _ & _ & _ & -> & _ & -> & _ & -> & _).
      pose proof (winner_range _ (candsM_nonempty sw s i' j')) as H1.
      pose proof (winner_range _ (candsIx_nonempty v sw i' j')) as H2.
      pose proof (winner_range _ (candsIy_nonempty v sw i' j')) as H3.
      destruct v; simpl in *; lia.
Qed.

Lemma fillMatrix_walkable (v : variant) (sc : ascii → ascii → option Z)
    (s1 s2 : list ascii) (og eg : Z) (sw : SWMatrix) :
  fillMatrix v (init sc s1 s2 og eg) = Ok sw →
  walkable (S (length s2)) (S (length s1)) sw.
Proof.
  intros H. apply fillMatrix_filled in H. by apply filled_walkable in H.
Qed.

Lemma series_max_lub (l : list Z) (b : Z) :
  l ≠ [] → (∀ x, x ∈ l → x ≤ b) → series_max l ≤ b.
Proof. intros Hne Hb. apply Hb. by apply series_max_in. Qed.



(** ** A sequence aligned with itself *)

Section SelfAlignment.
Variable v : variant.
Variable sc : ascii → ascii → option Z.
Variable s : list ascii.
Variables ms og eg : Z.
Variable sw : SWMatrix.

Hypothesis ms_pos : 0 < ms.
Hypothesis og_le : og ≤ 0.
Hypothesis eg_le : eg ≤ 0.
Hypothesis sc_same : ∀ a, a ∈ s → sc a a = Some ms.
Hypothesis sc_diff :
  ∀ a b m, a ∈ s → b ∈ s → a ≠ b → sc a b = Some m → m ≤ 0.
Hypothesis sw_filled : filled v (init sc s s og eg) sw.

Local Abbreviation n := (length s).

(** The score of the whole sequence is an [int64] value. *)
Hypothesis ms_fits : Z.of_nat n * ms ≤ int64_max.











End SelfAlignment.

(** ** How the walk starts *)

(** A pass through the loop body only adds to the three lists. *)
Lemma traceback_step_extends (sw : SWMatrix) (w w' : walk) :
  traceback_step sw w = Ok w' →
  ∃ a b c, matchStr1 (out w') = matchStr1 (out w) ++ a ∧
           matchLine (out w') = matchLine (out w) ++ b ∧
           matchStr2 (out w') = matchStr2 (out w) ++ c.
Proof.
  unfold traceback_step, append. intros H.
  apply bind_Ok in H as (c1 & _ & H). apply bind_Ok in H as (c2 & _ & H).
  destruct (state w =? 0).
  { apply bind_Ok in H as (ns & _ & H). apply bind_Ok in H as (d1 & _ & H).
    apply bind_Ok in H as (d2 & _ & H). apply bind_Ok in H as (cv & _ & H).
    injection H as <-. cbn. by do 3 eexists. }
  destruct (state w =? 1).
  { apply bind_Ok in H as (ns & _ & H). apply bind_Ok in H as (d2 & _ & H).
    apply bind_Ok in H as (cv & _ & H). injection H as <-. cbn. by do 3 eexists. }
  destruct (state w =? 2).
  { apply bind_Ok in H as (ns & _ & H). apply bind_Ok in H as (d1 & _ & H).
    apply bind_Ok in H as (cv & _ & H). injection H as <-. cbn. by do 3 eexists. }
  injection H as <-. cbn. exists [], [mark c1 c2], []. by rewrite !app_nil_r.
Qed.

Lemma traceback_loop_extends (sw : SWMatrix) (fuel : nat) :
  ∀ w w', traceback_loop fuel sw w = Ok w' →
  ∃ a b c, matchStr1 (out w') = matchStr1 (out w) ++ a ∧
           matchLine (out w') = matchLine (out w) ++ b ∧
           matchStr2 (out w') = matchStr2 (out w) ++ c.
Proof.
  induction fuel as [|fuel IH]; intros w w'; cbn [traceback_loop];
    destruct (negb (currVal w =? 0) && negb (state w =? 3)); try done;
    try (intros [= <-]; exists [], [], []; by rewrite !app_nil_r).
  intros H. apply bind_Ok in H as (w1 & Hstep & Hloop).
  apply traceback_step_extends in Hstep as (a & b & c & E1 & E2 & E3).
  apply IH in Hloop as (a' & b' & c' & E1' & E2' & E3').
  exists (a ++ a'), (b ++ b'), (c ++ c').
  rewrite E1', E2', E3', E1, E2, E3. by rewrite !app_assoc.
Qed.

(** In state 0 the loop body writes the two symbols of its coordinate and
    their mark. *)
Lemma traceback_step_match (sw : SWMatrix) (i j cv : Z) (ls : lines) (w' : walk) :
  traceback_step sw {| state := 0; wi := i; wj := j; currVal := cv; out := ls |}
    = Ok w' →
  ∃ c1 c2, py_nth (seq1 sw) j = Ok c1 ∧ py_nth (seq2 sw) i = Ok c2 ∧
           out w' = {| matchStr1 := append (matchStr1 ls) c1;
                       matchLine := append (matchLine ls) (mark c1 c2);
                       matchStr2 := append (matchStr2 ls) c2 |}.
Proof.
  unfold traceback_step. cbn [state wi wj currVal out Z.eqb]. intros H.
  apply bind_Ok in H as (c1 & H1 & H). apply bind_Ok in H as (c2 & H2 & H).
  apply bind_Ok in H as (ns & _ & H).
  rewrite H1, H2 in H. rsimpl in H.
  apply bind_Ok in H as (cv' & _ & H). injection H as <-.
  exists c1, c2. done.
Qed.

(** [traceback] enters its loop in state 0 at the coordinate of
    [getMaxCoord] with the cell of [M] there.  When that cell is [0] nothing
    is aligned; otherwise the last column of the aligned region is the pair
    of symbols of that coordinate. *)
Lemma traceback_walk_start (sw : SWMatrix) (x y : Z) :
  traceback_walk sw x y =
  (cv ← iat (M sw) (Z.of_nat (getMaxCoord sw).1) (Z.of_nat (getMaxCoord sw).2);
   traceback_loop (traceback_fuel sw) sw
     {| state := 0; wi := Z.of_nat (getMaxCoord sw).1;
        wj := Z.of_nat (getMaxCoord sw).2; currVal := cv; out := no_lines |}).
Proof. unfold traceback_walk. by destruct (getMaxCoord sw). Qed.

Lemma alignedRegion_zero (sw : SWMatrix) (x y : Z) :
  iat (M sw) (Z.of_nat (getMaxCoord sw).1) (Z.of_nat (getMaxCoord sw).2) = Ok 0 →
  alignedRegion sw x y = Ok no_lines.
Proof.
  intros H. unfold alignedRegion. rewrite traceback_walk_start, H. rsimpl.
  unfold traceback_fuel. by destruct (2 * (length (seq1 sw) + length (seq2 sw)) + 2)%nat.
Qed.

Lemma alignedRegion_last (sw : SWMatrix) (x y cv : Z) (reg : lines) :
  iat (M sw) (Z.of_nat (getMaxCoord sw).1) (Z.of_nat (getMaxCoord sw).2) = Ok cv →
  cv ≠ 0 →
  alignedRegion sw x y = Ok reg →
  ∃ c1 c2 r1 rl r2,
    py_nth (seq1 sw) (Z.of_nat (getMaxCoord sw).2) = Ok c1 ∧
    py_nth (seq2 sw) (Z.of_nat (getMaxCoord sw).1) = Ok c2 ∧
    matchStr1 reg = r1 ++ [c1] ∧
    matchLine reg = rl ++ [mark c1 c2] ∧
    matchStr2 reg = r2 ++ [c2].
Proof.
  intros H Hnz Hreg. unfold alignedRegion in Hreg.
  rewrite traceback_walk_start, H in Hreg. rsimpl in Hreg.
  apply bind_Ok in Hreg as (w & Hloop & [= <-]).
  unfold traceback_fuel in Hloop.
  replace (2 * (length (seq1 sw) + length (seq2 sw)) + 2)%nat
    with (S (2 * (length (seq1 sw) + length (seq2 sw)) + 1)) in Hloop by lia.
  cbn [traceback_loop currVal state Z.eqb] in Hloop.
  destruct (Z.eqb_spec cv 0) as [?|_]; [done|]. cbn [negb andb] in Hloop.
  apply bind_Ok in Hloop as (w1 & Hstep & Hloop).
  apply traceback_step_match in Hstep as (c1 & c2 & H1 & H2 & Hout).
  apply traceback_loop_extends in Hloop as (a & b & c & E1 & E2 & E3).
  rewrite Hout in E1, E2, E3. cbn in E1, E2, E3.
  exists c1, c2, (rev a), (rev b), (rev c).
  unfold reverse_lines. cbn [matchStr1 matchLine matchStr2].
  rewrite E1, E2, E3. done.
Qed.

(** ** Empty sequences *)

Lemma filled_flat (v : variant) (sc : ascii → ascii → option Z)
    (s1 s2 : list ascii) (og eg : Z) (sw : SWMatrix) :
  s1 = [] ∨ s2 = [] →
  filled v (init sc s1 s2 og eg) sw →
  ∀ i j, cells sw i j = [0; 0; 0; 0; 0; 0; 0].
Proof.
  intros Hs Hf i j. apply (fu_todo _ _ _ _ _ Hf). simpl.
  unfold before. destruct Hs as [-> | ->]; simpl; lia.
Qed.

Lemma flat_getMax (R C : nat) (sw : SWMatrix) :
  shape R C (F sw) → (1 ≤ R)%nat → (1 ≤ C)%nat →
  (∀ i j, cell (F sw) i j = 0) → getMax sw = 0.
Proof.
  intros Hs HR HC Hz. unfold getMax.
  destruct (frame_max_attained R C (F sw) Hs HR HC) as (i & j & _ & _ & <-).
  apply Hz.
Qed.

(** ** The fuel of the loops is enough *)

Lemma py_nth_Ok_range {A : Type} (l : list A) (i : Z) (a : A) :
  py_nth l i = Ok a → - Z.of_nat (length l) ≤ i < Z.of_nat (length l).
Proof.
  unfold py_nth. cbv zeta.
  destruct (Z.leb_spec 0 i) as [Hi|Hi].
  - destruct (Z.leb_spec 0 i); [|lia]. cbn [andb].
    destruct (Z.ltb_spec i (Z.of_nat (length l))); [lia|done].
  - destruct (Z.leb_spec 0 (Z.of_nat (length l) + i)); cbn [andb]; [lia|done].
Qed.

(** What one pass through the loop body does to the position. *)
Lemma traceback_step_moves (sw : SWMatrix) (w w' : walk) :
  traceback_step sw w = Ok w' →
  (∃ c1 c2, py_nth (seq1 sw) (wj w) = Ok c1 ∧ py_nth (seq2 sw) (wi w) = Ok c2) ∧
  ((0 ≤ state w ≤ 2 ∧ wi w' + wj w' ≤ wi w + wj w - 1) ∨
   (¬ 0 ≤ state w ≤ 2 ∧ state w' = state w ∧ wi w' = wi w ∧ wj w' = wj w ∧
    currVal w' = currVal w)).
Proof.
  unfold traceback_step. intros H.
  apply bind_Ok in H as (c1 & H1 & H). apply bind_Ok in H as (c2 & H2 & H).
  split; [by eauto|].
  destruct (Z.eqb_spec (state w) 0).
  { apply bind_Ok in H as (ns & _ & H). apply bind_Ok in H as (d1 & _ & H).
    apply bind_Ok in H as (d2 & _ & H). apply bind_Ok in H as (cv & _ & H).
    injection H as <-. cbn. left. lia. }
  destruct (Z.eqb_spec (state w) 1).
  { apply bind_Ok in H as (ns & _ & H). apply bind_Ok in H as (d2 & _ & H).
    apply bind_Ok in H as (cv & _ & H). injection H as <-. cbn. left. lia. }
  destruct (Z.eqb_spec (state w) 2).
  { apply bind_Ok in H as (ns & _ & H). apply bind_Ok in H as (d1 & _ & H).
    apply bind_Ok in H as (cv & _ & H). injection H as <-. cbn. left. lia. }
  injection H as <-. cbn. right. repeat split; try done. lia.
Qed.

(** With a state other than 0, 1, 2, 3 and a non-zero [currVal] the loop
    never leaves: whatever the fuel, it runs out. *)
Lemma traceback_loop_stuck (sw : SWMatrix) (fuel : nat) :
  ∀ (w : walk) (c1 c2 : ascii),
    currVal w ≠ 0 → state w ≠ 3 → ¬ 0 ≤ state w ≤ 2 →
    py_nth (seq1 sw) (wj w) = Ok c1 → py_nth (seq2 sw) (wi w) = Ok c2 →
    traceback_loop fuel sw w = OutOfFuel.
Proof.
  induction fuel as [|fuel IH]; intros w c1 c2 Hcv H3 Hst H1 H2;
    cbn [traceback_loop];
    (destruct (Z.eqb_spec (currVal w) 0); [done|]);
    (destruct (Z.eqb_spec (state w) 3); [done|]); cbn [negb andb]; [done|].
  destruct (traceback_step sw w) as [w'| |] eqn:Hstep; rsimpl.
  - destruct (traceback_step_moves sw w w' Hstep) as [_ [[? _]|(_ & E1 & E2 & E3 & E4)]];
      [done|].
    apply (IH w' c1 c2); congruence.
  - unfold traceback_step in Hstep. rewrite H1, H2 in Hstep. rsimpl in Hstep.
    destruct (Z.eqb_spec (state w) 0); [lia|].
    destruct (Z.eqb_spec (state w) 1); [lia|].
    destruct (Z.eqb_spec (state w) 2); [lia|]. done.
  - unfold traceback_step in Hstep. rewrite H1, H2 in Hstep. rsimpl in Hstep.
    destruct (Z.eqb_spec (state w) 0); [lia|].
    destruct (Z.eqb_spec (state w) 1); [lia|].
    destruct (Z.eqb_spec (state w) 2); [lia|]. done.
Qed.

(** Once the fuel exceeds the room left for [i + j] above the point where
    the two sequences can no longer be read, one more unit changes nothing. *)
Lemma traceback_loop_fuel_stable (sw : SWMatrix) (fuel : nat) :
  ∀ w : walk,
    (1 ≤ fuel)%nat →
    (∀ c1 c2, py_nth (seq1 sw) (wj w) = Ok c1 → py_nth (seq2 sw) (wi w) = Ok c2 →
              wi w + wj w + len (seq1 sw) + len (seq2 sw) + 2 ≤ Z.of_nat fuel) →
    traceback_loop (S fuel) sw w = traceback_loop fuel sw w.
Proof.
  unfold len. induction fuel as [|fuel IH]; intros w Hf Hroom; [lia|].
  change (traceback_loop (S (S fuel)) sw w) with
    (if negb (currVal w =? 0) && negb (state w =? 3)
     then w' ← traceback_step sw w; traceback_loop (S fuel) sw w'
     else Ok w).
  change (traceback_loop (S fuel) sw w) with
    (if negb (currVal w =? 0) && negb (state w =? 3)
     then w' ← traceback_step sw w; traceback_loop fuel sw w'
     else Ok w).
  destruct (Z.eqb_spec (currVal w) 0) as [|Hcv]; [done|].
  destruct (Z.eqb_spec (state w) 3) as [|H3]; [done|]. cbn [negb andb].
  destruct (traceback_step sw w) as [w'| |] eqn:Hstep; rsimpl; try done.
  destruct (traceback_step_moves sw w w' Hstep)
    as [(c1 & c2 & H1 & H2) [[Hst Hmove]|(Hst & E1 & E2 & E3 & E4)]].
  - pose proof (py_nth_Ok_range _ _ _ H1). pose proof (py_nth_Ok_range _ _ _ H2).
    specialize (Hroom c1 c2 H1 H2).
    apply IH; [lia|]. intros d1 d2 _ _. lia.
  - rewrite (traceback_loop_stuck sw (S fuel) w' c1 c2) by congruence.
    rewrite (traceback_loop_stuck sw fuel w' c1 c2) by congruence. done.
Qed.

(** The loop of [traceback] gives the same result with any fuel above the
    one [traceback] passes: [OutOfFuel] from [traceback] is a loop that does
    not end. *)
Lemma traceback_fuel_enough (sw : SWMatrix) (cv : Z) (extra : nat) :
  traceback_loop (traceback_fuel sw + extra) sw
    {| state := 0; wi := Z.of_nat (getMaxCoord sw).1;
       wj := Z.of_nat (getMaxCoord sw).2; currVal := cv; out := no_lines |} =
  traceback_loop (traceback_fuel sw) sw
    {| state := 0; wi := Z.of_nat (getMaxCoord sw).1;
       wj := Z.of_nat (getMaxCoord sw).2; currVal := cv; out := no_lines |}.
Proof.
  induction extra as [|extra IH]; [by rewrite Nat.add_0_r|].
  rewrite Nat.add_succ_r, <- IH.
  apply traceback_loop_fuel_stable.
  - unfold traceback_fuel. lia.
  - cbn [wi wj]. intros c1 c2 H1 H2.
    apply py_nth_Ok_range in H1. apply py_nth_Ok_range in H2.
    unfold traceback_fuel, len. lia.
Qed.

Lemma py_nth_returns {A : Type} (l : list A) (i : Z) : py_nth l i ≠ OutOfFuel.
Proof.
  unfold py_nth. cbv zeta.
  destruct ((0 <=? (if 0 <=? i then i else Z.of_nat (length l) + i)) &&
            ((if 0 <=? i then i else Z.of_nat (length l) + i)
               <? Z.of_nat (length l))); [|done].
  by destruct (l !! Z.to_nat (if 0 <=? i then i else Z.of_nat (length l) + i)).
Qed.

Lemma symbol_or_blank_returns (b : bool) (l : list ascii) (i : Z) :
  (if b then py_nth l i else Ok " "%char) ≠ OutOfFuel.
Proof. destruct b; [apply py_nth_returns|done]. Qed.

Lemma completeFront_loop_fuel (sw : SWMatrix) (fuel : nat) :
  ∀ (i j : Z) (ls : lines),
    Z.max i j ≤ Z.of_nat fuel → completeFront_loop fuel sw i j ls ≠ OutOfFuel.
Proof.
  induction fuel as [|fuel IH]; intros i j ls Hf; cbn [completeFront_loop].
  - destruct (Z.ltb_spec 0 i); [lia|]. destruct (Z.ltb_spec 0 j); [lia|]. done.
  - destruct ((0 <? i) || (0 <? j)); [|done].
    pose proof (symbol_or_blank_returns (0 <? j) (seq1 sw) j) as N1.
    pose proof (symbol_or_blank_returns (0 <? i) (seq2 sw) i) as N2.
    destruct (if 0 <? j then py_nth (seq1 sw) j else Ok " "%char); rsimpl;
      try done.
    destruct (if 0 <? i then py_nth (seq2 sw) i else Ok " "%char); rsimpl;
      try done.
    apply IH. lia.
Qed.

Lemma completeBack_loop_fuel (sw : SWMatrix) (fuel : nat) :
  ∀ (i j : Z) (ls : lines),
    Z.max (len (seq2 sw) - i) (len (seq1 sw) - j) ≤ Z.of_nat fuel →
    completeBack_loop fuel sw i j ls ≠ OutOfFuel.
Proof.
  induction fuel as [|fuel IH]; intros i j ls Hf; cbn [completeBack_loop].
  - destruct (Z.ltb_spec i (len (seq2 sw))); [lia|].
    destruct (Z.ltb_spec j (len (seq1 sw))); [lia|]. done.
  - destruct ((i <? len (seq2 sw)) || (j <? len (seq1 sw))); [|done].
    pose proof (symbol_or_blank_returns (j <? len (seq1 sw)) (seq1 sw) j) as N1.
    pose proof (symbol_or_blank_returns (i <? len (seq2 sw)) (seq2 sw) i) as N2.
    destruct (if j <? len (seq1 sw) then py_nth (seq1 sw) j else Ok " "%char);
      rsimpl; try done.
    destruct (if i <? len (seq2 sw) then py_nth (seq2 sw) i else Ok " "%char);
      rsimpl; try done.
    apply IH. lia.
Qed.

(** ** The properties of the specification *)

(** C5.  After [fillMatrix] every cell of [M], [Ix], [Iy] and [F] is at
    least 0, for all sequences, tables and penalties (the penalties need not
    even be non-positive): each recurrence has the literal 0 among its
    candidates. *)
Theorem fillMatrix_nonnegative (v : variant) (sc : ascii → ascii → option Z)
    (s1 s2 : list ascii) (og eg : Z) (sw : SWMatrix) :
  fillMatrix v (init sc s1 s2 og eg) = Ok sw →
  ∀ (m : matrix) (row : list Z) (x : Z),
    m ∈ [M sw; Ix sw; Iy sw; F sw] → row ∈ m → x ∈ row → 0 ≤ x.
Proof.
  intros H m row x Hm Hrow Hx. apply fillMatrix_filled in H.
  apply list_elem_of_lookup in Hrow as [i Hi].
  apply list_elem_of_lookup in Hx as [j Hj].
  rewrite <- (cell_lookup _ _ _ _ _ Hi Hj).
  destruct (filled_nonneg v _ sw i j H) as (? & ? & ? & ?).
  apply list_elem_of_In in Hm. simpl in Hm.
  destruct Hm as [<-|[<-|[<-|[<-|[]]]]]; done.
Qed.

Lemma fillMatrix_nonnegative_witness :
  fillMatrix main_py acgt_agt = Ok (filled_of main_py acgt_agt) ∧
  ∀ (m : matrix) (row : list Z) (x : Z),
    m ∈ [M (filled_of main_py acgt_agt); Ix (filled_of main_py acgt_agt);
         Iy (filled_of main_py acgt_agt); F (filled_of main_py acgt_agt)] →
    row ∈ m → x ∈ row → 0 ≤ x.
Proof.
  split; [vm_compute; reflexivity|].
  apply (fillMatrix_nonnegative main_py (simple_score 2 (-1)) (chars "ACGT")
           (chars "AGT") (-2) (-1)).
  vm_compute. reflexivity.
Defined.

(** C6.  After [fillMatrix], at every coordinate of the frames (row 0 and
    column 0 included) the cell of [F] is the maximum of the cells of [M],
    [Ix] and [Iy], hence at least each of them. *)
Theorem fillMatrix_F_is_max (v : variant) (sc : ascii → ascii → option Z)
    (s1 s2 : list ascii) (og eg : Z) (sw : SWMatrix) :
  fillMatrix v (init sc s1 s2 og eg) = Ok sw →
  shaped (S (length s2)) (S (length s1)) sw ∧
  ∀ i j : nat, (i < S (length s2))%nat → (j < S (length s1))%nat →
    ∃ f m x y,
      iat (F sw) (Z.of_nat i) (Z.of_nat j) = Ok f ∧
      iat (M sw) (Z.of_nat i) (Z.of_nat j) = Ok m ∧
      iat (Ix sw) (Z.of_nat i) (Z.of_nat j) = Ok x ∧
      iat (Iy sw) (Z.of_nat i) (Z.of_nat j) = Ok y ∧
      f = Z.max (Z.max m x) y ∧ m ≤ f ∧ x ≤ f ∧ y ≤ f.
Proof.
  intros H. apply fillMatrix_filled in H.
  pose proof (filled_upto_shaped _ _ _ _ _ H) as Hsh. simpl in Hsh.
  split; [done|]. intros i j Hi Hj.
  exists (cell (F sw) i j), (cell (M sw) i j), (cell (Ix sw) i j),
         (cell (Iy sw) i j).
  rewrite !(iat_cell (S (length s2)) (S (length s1))) by (done || apply Hsh).
  pose proof (filled_F_max v _ sw i j H). repeat split; try done; lia.
Qed.

Lemma fillMatrix_F_is_max_witness :
  fillMatrix main_py acgt_agt = Ok (filled_of main_py acgt_agt) ∧
  shaped 4 5 (filled_of main_py acgt_agt) ∧
  ∀ i j : nat, (i < 4)%nat → (j < 5)%nat →
    ∃ f m x y,
      iat (F (filled_of main_py acgt_agt)) (Z.of_nat i) (Z.of_nat j) = Ok f ∧
      iat (M (filled_of main_py acgt_agt)) (Z.of_nat i) (Z.of_nat j) = Ok m ∧
      iat (Ix (filled_of main_py acgt_agt)) (Z.of_nat i) (Z.of_nat j) = Ok x ∧
      iat (Iy (filled_of main_py acgt_agt)) (Z.of_nat i) (Z.of_nat j) = Ok y ∧
      f = Z.max (Z.max m x) y ∧ m ≤ f ∧ x ≤ f ∧ y ≤ f.
Proof.
  split; [vm_compute; reflexivity|].
  apply (fillMatrix_F_is_max main_py (simple_score 2 (-1)) (chars "ACGT")
           (chars "AGT") (-2) (-1)).
  vm_compute. reflexivity.
Defined.

(** C4.  At every cell [(i, j)] with [i, j >= 1], and in each of the three
    recurrences, the traceback frame holds the position of the first
    candidate, in the order the candidates are listed, that attains the
    maximum; the candidates are read from the filled frames.  This holds for
    both scripts (in [main_2.py] the cross candidate is the constant -1). *)
Theorem fillMatrix_records_first_max (v : variant)
    (sc : ascii → ascii → option Z) (s1 s2 : list ascii) (og eg : Z)
    (sw : SWMatrix) :
  fillMatrix v (init sc s1 s2 og eg) = Ok sw →
  ∀ i j : nat, (i < length s2)%nat → (j < length s1)%nat →
    ∃ c1 c2 sim kM kIx kIy,
      s1 !! j = Some c1 ∧ s2 !! i = Some c2 ∧ sc c1 c2 = Some sim ∧
      iat (M sw) (Z.of_nat (S i)) (Z.of_nat (S j))
        = Ok (series_max (candsM sw sim i j)) ∧
      iat (TM sw) (Z.of_nat (S i)) (Z.of_nat (S j)) = Ok kM ∧
      first_max_at (candsM sw sim i j) kM ∧
      iat (Ix sw) (Z.of_nat (S i)) (Z.of_nat (S j))
        = Ok (series_max (candsIx v sw i j)) ∧
      iat (TIx sw) (Z.of_nat (S i)) (Z.of_nat (S j)) = Ok kIx ∧
      first_max_at (candsIx v sw i j) kIx ∧
      iat (Iy sw) (Z.of_nat (S i)) (Z.of_nat (S j))
        = Ok (series_max (candsIy v sw i j)) ∧
      iat (TIy sw) (Z.of_nat (S i)) (Z.of_nat (S j)) = Ok kIy ∧
      first_max_at (candsIy v sw i j) kIy.
Proof.
  intros H i j Hi Hj. apply fillMatrix_filled in H.
  pose proof (filled_upto_shaped _ _ _ _ _ H) as Hsh. simpl in Hsh.
  destruct (fu_done _ _ _ _ _ H i j) as
    (c1 & c2 & sim & H1 & H2 & Hs & HM & HTM & HIx & HTIx & HIy & HTIy & _);
    [simpl; lia|simpl; lia|unfold before; simpl; lia|].
  rewrite (fu_seq1 _ _ _ _ _ H) in H1. rewrite (fu_seq2 _ _ _ _ _ H) in H2.
  rewrite (fu_score _ _ _ _ _ H) in Hs. simpl in H1, H2, Hs.
  exists c1, c2, sim, (winner (candsM sw sim i j)), (winner (candsIx v sw i j)),
         (winner (candsIy v sw i j)).
  rewrite !(iat_cell (S (length s2)) (S (length s1))) by (lia || apply Hsh).
  rewrite HM, HTM, HIx, HTIx, HIy, HTIy.
  repeat split; try done; apply winner_first_max_at;
    auto using candsIx_nonempty, candsIy_nonempty.
Qed.

Lemma fillMatrix_records_first_max_witness :
  fillMatrix main_py acgt_agt = Ok (filled_of main_py acgt_agt) ∧
  ∀ i j : nat, (i < 3)%nat → (j < 4)%nat →
    ∃ c1 c2 sim kM kIx kIy,
      chars "ACGT" !! j = Some c1 ∧ chars "AGT" !! i = Some c2 ∧
      simple_score 2 (-1) c1 c2 = Some sim ∧
      iat (M (filled_of main_py acgt_agt)) (Z.of_nat (S i)) (Z.of_nat (S j))
        = Ok (series_max (candsM (filled_of main_py acgt_agt) sim i j)) ∧
      iat (TM (filled_of main_py acgt_agt)) (Z.of_nat (S i)) (Z.of_nat (S j))
        = Ok kM ∧
      first_max_at (candsM (filled_of main_py acgt_agt) sim i j) kM ∧
      iat (Ix (filled_of main_py acgt_agt)) (Z.of_nat (S i)) (Z.of_nat (S j))
        = Ok (series_max (candsIx main_py (filled_of main_py acgt_agt) i j)) ∧
      iat (TIx (filled_of main_py acgt_agt)) (Z.of_nat (S i)) (Z.of_nat (S j))
        = Ok kIx ∧
      first_max_at (candsIx main_py (filled_of main_py acgt_agt) i j) kIx ∧
      iat (Iy (filled_of main_py acgt_agt)) (Z.of_nat (S i)) (Z.of_nat (S j))
        = Ok (series_max (candsIy main_py (filled_of main_py acgt_agt) i j)) ∧
      iat (TIy (filled_of main_py acgt_agt)) (Z.of_nat (S i)) (Z.of_nat (S j))
        = Ok kIy ∧
      first_max_at (candsIy main_py (filled_of main_py acgt_agt) i j) kIy.
Proof.
  split; [vm_compute; reflexivity|].
  apply (fillMatrix_records_first_max main_py (simple_score 2 (-1))
           (chars "ACGT") (chars "AGT") (-2) (-1)).
  vm_compute. reflexivity.
Defined.

(** C3.  [getMax] is the greatest cell of [F].  [getMaxCoord] returns the
    first row that holds it (every cell of an earlier row is smaller, so no
    earlier row has the global maximum as its row maximum) and, in that row,
    the first column that holds it.  This covers every input on which
    several cells equal the global maximum. *)
Theorem getMaxCoord_first_best (v : variant) (sc : ascii → ascii → option Z)
    (s1 s2 : list ascii) (og eg : Z) (sw : SWMatrix) :
  fillMatrix v (init sc s1 s2 og eg) = Ok sw →
  (∀ (row : list Z) (x : Z), row ∈ F sw → x ∈ row → x ≤ getMax sw) ∧
  ∃ row : list Z,
    F sw !! (getMaxCoord sw).1 = Some row ∧
    series_max row = getMax sw ∧
    row !! (getMaxCoord sw).2 = Some (getMax sw) ∧
    (∀ (i' : nat) (row' : list Z) (x : Z),
       (i' < (getMaxCoord sw).1)%nat → F sw !! i' = Some row' → x ∈ row' →
       x < getMax sw) ∧
    (∀ (j' : nat) (x : Z),
       (j' < (getMaxCoord sw).2)%nat → row !! j' = Some x → x < getMax sw).
Proof.
  intros H. apply fillMatrix_filled in H.
  pose proof (filled_upto_shaped _ _ _ _ _ H) as Hsh. simpl in Hsh.
  pose proof (sh_F _ _ _ Hsh) as HF. split.
  - intros row x. by apply (getMax_upper _ _ sw row x HF).
  - destruct (getMaxCoord_spec _ _ sw HF) as (row & Hrow & Hx & Hrows & Hcols);
      [lia|lia|].
    exists row. repeat split; try done.
    apply Z.le_antisymm.
    + apply series_max_lub.
      * intros ->. by rewrite lookup_nil in Hx.
      * intros x Hin. apply (getMax_upper _ _ sw row x HF); [|done].
        apply list_elem_of_lookup. eauto.
    + by apply (series_max_lookup _ _ _ Hx).
Qed.

Lemma getMaxCoord_first_best_witness :
  getMaxCoord (filled_of main_py abab_ab) = (2%nat, 2%nat) ∧
  cell (F (filled_of main_py abab_ab)) 2 2 = 4 ∧
  cell (F (filled_of main_py abab_ab)) 2 4 = 4 ∧
  (∀ (row : list Z) (x : Z),
     row ∈ F (filled_of main_py abab_ab) → x ∈ row →
     x ≤ getMax (filled_of main_py abab_ab)) ∧
  ∃ row : list Z,
    F (filled_of main_py abab_ab) !! (getMaxCoord (filled_of main_py abab_ab)).1
      = Some row ∧
    series_max row = getMax (filled_of main_py abab_ab) ∧
    row !! (getMaxCoord (filled_of main_py abab_ab)).2
      = Some (getMax (filled_of main_py abab_ab)) ∧
    (∀ (i' : nat) (row' : list Z) (x : Z),
       (i' < (getMaxCoord (filled_of main_py abab_ab)).1)%nat →
       F (filled_of main_py abab_ab) !! i' = Some row' → x ∈ row' →
       x < getMax (filled_of main_py abab_ab)) ∧
    (∀ (j' : nat) (x : Z),
       (j' < (getMaxCoord (filled_of main_py abab_ab)).2)%nat →
       row !! j' = Some x → x < getMax (filled_of main_py abab_ab)).
Proof.
  split; [vm_compute; reflexivity|].
  split; [vm_compute; reflexivity|].
  split; [vm_compute; reflexivity|].
  apply (getMaxCoord_first_best main_py (simple_score 2 (-1)) (chars "ABAB")
           (chars "AB") (-2) (-1)).
  vm_compute. reflexivity.
Defined.

(** C2.  On every filled object [traceback] enters its loop in state 0 at
    the coordinate of [getMaxCoord] with the cell of [M] there as [currVal];
    [F], [Ix] and [Iy] are not consulted.  So the aligned region is empty
    exactly when that cell of [M] is 0, and otherwise its last column is the
    match column of that coordinate: the two symbols and their mark. *)
Theorem traceback_starts_in_match (v : variant)
    (sc : ascii → ascii → option Z) (s1 s2 : list ascii) (og eg : Z)
    (sw : SWMatrix) (x y : Z) :
  fillMatrix v (init sc s1 s2 og eg) = Ok sw →
  ∃ (cv : Z) (reg : lines),
    iat (M sw) (Z.of_nat (getMaxCoord sw).1) (Z.of_nat (getMaxCoord sw).2)
      = Ok cv ∧
    traceback_walk sw x y =
      traceback_loop (traceback_fuel sw) sw
        {| state := 0; wi := Z.of_nat (getMaxCoord sw).1;
           wj := Z.of_nat (getMaxCoord sw).2; currVal := cv;
           out := no_lines |} ∧
    alignedRegion sw x y = Ok reg ∧
    (cv = 0 → reg = no_lines) ∧
    (cv ≠ 0 →
     ∃ c1 c2 r1 rl r2,
       py_nth (seq1 sw) (Z.of_nat (getMaxCoord sw).2) = Ok c1 ∧
       py_nth (seq2 sw) (Z.of_nat (getMaxCoord sw).1) = Ok c2 ∧
       matchStr1 reg = r1 ++ [c1] ∧
       matchLine reg = rl ++ [mark c1 c2] ∧
       matchStr2 reg = r2 ++ [c2]).
Proof.
  intros H. pose proof (fillMatrix_walkable _ _ _ _ _ _ _ H) as Hw.
  pose proof (wk_shaped _ _ _ Hw) as Hsh.
  destruct (getMaxCoord_in_range _ _ sw (sh_F _ _ _ Hsh)) as [Hi Hj];
    [lia|lia|].
  destruct (traceback_total _ _ sw Hw) as (w & ls & Hwalk & _); [lia|lia|].
  exists (cell (M sw) (getMaxCoord sw).1 (getMaxCoord sw).2),
         (reverse_lines (out w)).
  assert (iat (M sw) (Z.of_nat (getMaxCoord sw).1) (Z.of_nat (getMaxCoord sw).2)
          = Ok (cell (M sw) (getMaxCoord sw).1 (getMaxCoord sw).2)) as HM
    by (apply (iat_cell _ _ _ _ _ (sh_M _ _ _ Hsh)); done).
  assert (alignedRegion sw x y = Ok (reverse_lines (out w))) as Hreg
    by (unfold alignedRegion; by rewrite Hwalk).
  repeat split; try done.
  - by rewrite traceback_walk_start, HM.
  - intros Hz. rewrite Hz in HM.
    pose proof (alignedRegion_zero sw x y HM) as Hreg0. congruence.
  - intros Hnz. by apply (alignedRegion_last sw x y _ _ HM Hnz).
Qed.

Lemma traceback_starts_in_match_witness :
  fillMatrix main_py acgt_agt = Ok (filled_of main_py acgt_agt) ∧
  ∃ (cv : Z) (reg : lines),
    iat (M (filled_of main_py acgt_agt))
        (Z.of_nat (getMaxCoord (filled_of main_py acgt_agt)).1)
        (Z.of_nat (getMaxCoord (filled_of main_py acgt_agt)).2) = Ok cv ∧
    traceback_walk (filled_of main_py acgt_agt) 0 0 =
      traceback_loop (traceback_fuel (filled_of main_py acgt_agt))
        (filled_of main_py acgt_agt)
        {| state := 0;
           wi := Z.of_nat (getMaxCoord (filled_of main_py acgt_agt)).1;
           wj := Z.of_nat (getMaxCoord (filled_of main_py acgt_agt)).2;
           currVal := cv; out := no_lines |} ∧
    alignedRegion (filled_of main_py acgt_agt) 0 0 = Ok reg ∧
    (cv = 0 → reg = no_lines) ∧
    (cv ≠ 0 →
     ∃ c1 c2 r1 rl r2,
       py_nth (seq1 (filled_of main_py acgt_agt))
         (Z.of_nat (getMaxCoord (filled_of main_py acgt_agt)).2) = Ok c1 ∧
       py_nth (seq2 (filled_of main_py acgt_agt))
         (Z.of_nat (getMaxCoord (filled_of main_py acgt_agt)).1) = Ok c2 ∧
       matchStr1 reg = r1 ++ [c1] ∧
       matchLine reg = rl ++ [mark c1 c2] ∧
       matchStr2 reg = r2 ++ [c2]).
Proof.
  split; [vm_compute; reflexivity|].
  apply (traceback_starts_in_match main_py (simple_score 2 (-1)) (chars "ACGT")
           (chars "AGT") (-2) (-1)).
  vm_compute. reflexivity.
Defined.

(** The start in [M] is unconditional: with a positive value passed as the
    open penalty the best cell of [F] is held by [Ix] alone, the cell of [M]
    there is 0, and nothing is aligned although the best score is 3. *)
Example traceback_reads_M_when_Ix_wins :
  getMax (filled_of main_py a_ab_positive_open) = 3 ∧
  getMaxCoord (filled_of main_py a_ab_positive_open) = (2%nat, 1%nat) ∧
  cell (Ix (filled_of main_py a_ab_positive_open)) 2 1 = 3 ∧
  cell (M (filled_of main_py a_ab_positive_open)) 2 1 = 0 ∧
  alignedRegion (filled_of main_py a_ab_positive_open) 0 0 = Ok no_lines.
Proof. vm_compute. repeat split; reflexivity. Qed.

(** C10.  On every filled object [traceback] returns the same three lines
    for all arguments [x], [y]: they are overwritten by the coordinate of
    [getMaxCoord] before they are read. *)
Theorem traceback_ignores_arguments (v : variant)
    (sc : ascii → ascii → option Z) (s1 s2 : list ascii) (og eg : Z)
    (sw : SWMatrix) :
  fillMatrix v (init sc s1 s2 og eg) = Ok sw →
  ∃ ls : lines, ∀ x y : Z, traceback sw x y = Ok ls.
Proof.
  intros H. pose proof (fillMatrix_walkable _ _ _ _ _ _ _ H) as Hw.
  destruct (traceback_total _ _ sw Hw) as (w & ls & _ & Hls); [lia|lia|].
  by exists ls.
Qed.

Lemma traceback_ignores_arguments_witness :
  fillMatrix main_py acgt_agt = Ok (filled_of main_py acgt_agt) ∧
  ∃ ls : lines, ∀ x y : Z, traceback (filled_of main_py acgt_agt) x y = Ok ls.
Proof.
  split; [vm_compute; reflexivity|].
  apply (traceback_ignores_arguments main_py (simple_score 2 (-1))
           (chars "ACGT") (chars "AGT") (-2) (-1)).
  vm_compute. reflexivity.
Defined.



(** C7 as stated fails once the score of the whole sequence is no [int64]
    value: ["AA"] against itself with match score [2^62] (mismatch -1, open
    -2, extend -1).  The sum [2^62 + 2^62] stored for the second [A] wraps
    to [-2^63], so the best score is not [2 * 2^62]. *)
Lemma self_alignment_counterexample :
  ¬ ∃ sw : SWMatrix,
      fillMatrix main_py aa_aa_wide = Ok sw ∧
      getMax sw = len (chars "AA") * 4611686018427387904.
Proof.
  intros (sw & Hsw & Hmax).
  assert (fillMatrix main_py aa_aa_wide = Ok (filled_of main_py aa_aa_wide)) as E
    by (vm_compute; reflexivity).
  assert (sw = filled_of main_py aa_aa_wide) as -> by congruence.
  assert (getMax (filled_of main_py aa_aa_wide) = 4611686018427387904) as E'
    by (vm_compute; reflexivity).
  rewrite E' in Hmax. vm_compute in Hmax. discriminate Hmax.
Qed.

(** What the code gives there: the best score is [2^62], reached first at
    row 1, column 1, the cell of the second [A] holds [2^62] again with state
    1 recorded, and one [A] is aligned. *)
Example self_alignment_wraps :
  getMax (filled_of main_py aa_aa_wide) = 4611686018427387904 ∧
  getMaxCoord (filled_of main_py aa_aa_wide) = (1%nat, 1%nat) ∧
  cell (M (filled_of main_py aa_aa_wide)) 2 2 = 4611686018427387904 ∧
  cell (TM (filled_of main_py aa_aa_wide)) 2 2 = 1 ∧
  traceback (filled_of main_py aa_aa_wide) 0 0 =
    Ok {| matchStr1 := chars "(A)A"; matchLine := chars " |  ";
          matchStr2 := chars "(A)A" |}.
Proof. vm_compute. repeat split; reflexivity. Qed.

(** C8.  ["ABCXDEF"] against ["ABCYDEF"], +2 / -10, open -2, extend -1:
    bridging [X] / [Y] takes one gap in each sequence side by side.  With
    the cross term ([main.py]) the best score is 8; with the cross term
    replaced by -1 ([main_2.py]) it is 6. *)
Theorem orthogonal_policy_differs :
  ∃ swA swD : SWMatrix,
    fillMatrix main_py abcxdef_abcydef = Ok swA ∧
    fillMatrix main_2_py abcxdef_abcydef = Ok swD ∧
    getMax swA = 8 ∧ getMax swD = 6 ∧ getMax swA ≠ getMax swD.
Proof.
  exists (filled_of main_py abcxdef_abcydef),
         (filled_of main_2_py abcxdef_abcydef).
  split; [vm_compute; reflexivity|].
  split; [vm_compute; reflexivity|].
  assert (getMax (filled_of main_py abcxdef_abcydef) = 8) as ->
    by (vm_compute; reflexivity).
  assert (getMax (filled_of main_2_py abcxdef_abcydef) = 6) as ->
    by (vm_compute; reflexivity).
  repeat split; lia.
Qed.

(** C9.  A sequence of length zero is not an error.  When either sequence
    is empty [fillMatrix] and [traceback] return, the best score is 0 and
    nothing is aligned; when both are empty the seven frames are the single
    cell 0 and the display is the two brackets alone. *)
Theorem empty_sequences_degenerate (v : variant)
    (sc : ascii → ascii → option Z) (s1 s2 : list ascii) (og eg : Z)
    (x y : Z) :
  s1 = [] ∨ s2 = [] →
  ∃ (sw : SWMatrix) (ls : lines),
    fillMatrix v (init sc s1 s2 og eg) = Ok sw ∧
    getMax sw = 0 ∧
    alignedRegion sw x y = Ok no_lines ∧
    traceback sw x y = Ok ls ∧
    (s1 = [] → s2 = [] →
     F sw = [[0]] ∧ M sw = [[0]] ∧ Ix sw = [[0]] ∧ Iy sw = [[0]] ∧
     TM sw = [[0]] ∧ TIx sw = [[0]] ∧ TIy sw = [[0]] ∧
     ls = {| matchStr1 := chars "()"; matchLine := chars "  ";
             matchStr2 := chars "()" |}).
Proof.
  intros Hs.
  assert (covers sc s1 s2) as Hcov.
  { intros c1 c2 H1 H2. destruct Hs as [-> | ->];
      [by apply not_elem_of_nil in H1|by apply not_elem_of_nil in H2]. }
  assert (int64_table sc s1 s2) as Htab.
  { intros c1 c2 m H1 H2. destruct Hs as [-> | ->];
      [by apply not_elem_of_nil in H1|by apply not_elem_of_nil in H2]. }
  destruct (fillMatrix_total v sc s1 s2 og eg Hcov Htab) as [sw Hsw].
  { intros N1 N2. by destruct Hs. }
  pose proof (fillMatrix_filled _ _ _ _ _ _ _ Hsw) as Hf.
  pose proof (fillMatrix_walkable _ _ _ _ _ _ _ Hsw) as Hw.
  pose proof (wk_shaped _ _ _ Hw) as Hsh.
  pose proof (filled_flat v sc s1 s2 og eg sw Hs Hf) as Hflat.
  destruct (traceback_total _ _ sw Hw) as (w & ls & _ & Hls); [lia|lia|].
  destruct (getMaxCoord_in_range _ _ sw (sh_F _ _ _ Hsh)) as [Hi Hj];
    [lia|lia|].
  exists sw, ls. split; [done|]. split.
  { apply (flat_getMax _ _ sw (sh_F _ _ _ Hsh)); [lia|lia|].
    intros i j. specialize (Hflat i j). unfold cells in Hflat.
    by injection Hflat as -> _. }
  split.
  { apply alignedRegion_zero.
    rewrite (iat_cell _ _ _ _ _ (sh_M _ _ _ Hsh)) by done.
    specialize (Hflat (getMaxCoord sw).1 (getMaxCoord sw).2).
    unfold cells in Hflat. injection Hflat as _ HM _ _ _ _ _.
    f_equal. exact HM. }
  split; [done|].
  intros -> ->. injection Hsw as <-.
  assert (traceback (init sc [] [] og eg) x y =
          Ok {| matchStr1 := chars "()"; matchLine := chars "  ";
                matchStr2 := chars "()" |}) as E by reflexivity.
  rewrite Hls in E. injection E as ->.
  repeat split; reflexivity.
Qed.

Lemma empty_sequences_degenerate_witness :
  ∃ (sw : SWMatrix) (ls : lines),
    fillMatrix main_py (init (simple_score 2 (-1)) [] [] (-2) (-1)) = Ok sw ∧
    getMax sw = 0 ∧
    alignedRegion sw 0 0 = Ok no_lines ∧
    traceback sw 0 0 = Ok ls ∧
    (@nil ascii = [] → @nil ascii = [] →
     F sw = [[0]] ∧ M sw = [[0]] ∧ Ix sw = [[0]] ∧ Iy sw = [[0]] ∧
     TM sw = [[0]] ∧ TIx sw = [[0]] ∧ TIy sw = [[0]] ∧
     ls = {| matchStr1 := chars "()"; matchLine := chars "  ";
             matchStr2 := chars "()" |}).
Proof.
  apply (empty_sequences_degenerate main_py (simple_score 2 (-1)) [] []
           (-2) (-1) 0 0).
  left. reflexivity.
Defined.

(** C1, as the code has it.  ["ACGT"] against ["AGT"], +2 / -1, open -2,
    extend -1, in both scripts: the best score is 4 at row 3, column 4; the
    aligned region is [GT] over [GT] with a mark under both columns and no
    gap column, and the display is [AC(GT)] over [ A(GT)].  (Opening the gap
    after [A] brings the score from 2 to 0, the floor, so the alignment
    through the gap ties with the one that starts at [G].) *)
Theorem scenario_ACGT_AGT (v : variant) (x y : Z) :
  ∃ sw : SWMatrix,
    fillMatrix v acgt_agt = Ok sw ∧
    getMax sw = 4 ∧
    getMaxCoord sw = (3%nat, 4%nat) ∧
    alignedRegion sw x y =
      Ok {| matchStr1 := chars "GT"; matchLine := chars "||";
            matchStr2 := chars "GT" |} ∧
    traceback sw x y =
      Ok {| matchStr1 := chars "AC(GT)"; matchLine := chars "   || ";
            matchStr2 := chars " A(GT)" |}.
Proof.
  exists (filled_of v acgt_agt).
  destruct v; repeat split; vm_compute; reflexivity.
Qed.

(** C1 as stated fails: on this input the aligned region of [main.py] is
    not [ACGT] over [A-GT]. *)
Lemma scenario_ACGT_AGT_counterexample :
  ¬ ∃ (sw : SWMatrix) (reg : lines),
      fillMatrix main_py acgt_agt = Ok sw ∧
      alignedRegion sw 0 0 = Ok reg ∧
      matchStr1 reg = chars "ACGT" ∧ matchStr2 reg = chars "A-GT".
Proof.
  intros (sw & reg & Hsw & Hreg & H1 & H2).
  assert (fillMatrix main_py acgt_agt = Ok (filled_of main_py acgt_agt)) as E
    by (vm_compute; reflexivity).
  assert (sw = filled_of main_py acgt_agt) as -> by congruence.
  assert (alignedRegion (filled_of main_py acgt_agt) 0 0 =
          Ok {| matchStr1 := chars "GT"; matchLine := chars "||";
                matchStr2 := chars "GT" |}) as E'
    by (vm_compute; reflexivity).
  assert (reg = {| matchStr1 := chars "GT"; matchLine := chars "||";
                   matchStr2 := chars "GT" |}) as -> by congruence.
  vm_compute in H1. discriminate H1.
Qed.

(** ** Further properties of the class *)









Lemma elem_cell (m : matrix) (row : list Z) (x : Z) :
  row ∈ m → x ∈ row → ∃ i j, cell m i j = x.
Proof.
  intros Hrow Hx.
  apply list_elem_of_lookup in Hrow as [i Hi].
  apply list_elem_of_lookup in Hx as [j Hj].
  exists i, j. by apply (cell_lookup _ _ _ _ _ Hi Hj).
Qed.

Lemma py_nth_Ok_lookup {A : Type} (l : list A) (i : Z) (a : A) :
  py_nth l i = Ok a →
  ∃ n : nat, l !! n = Some a ∧ (0 ≤ i → n = Z.to_nat i).
Proof.
  unfold py_nth. cbv zeta. intros H.
  destruct ((0 <=? (if 0 <=? i then i else Z.of_nat (length l) + i)) &&
            ((if 0 <=? i then i else Z.of_nat (length l) + i)
               <? Z.of_nat (length l))); [|done].
  destruct (l !! Z.to_nat (if 0 <=? i then i else Z.of_nat (length l) + i))
    as [b|] eqn:E; [|done].
  injection H as ->. eexists. split; [exact E|].
  intros Hi. by destruct (Z.leb_spec 0 i); [|lia].
Qed.

(** Whatever position [.iat] is given, what it reads is a cell of the
    frame; a position that is not negative is the position of that cell. *)
Lemma iat_Ok_cell (m : matrix) (i j x : Z) :
  iat m i j = Ok x →
  ∃ a b : nat, cell m a b = x ∧ (0 ≤ i → a = Z.to_nat i) ∧
               (0 ≤ j → b = Z.to_nat j).
Proof.
  unfold iat. intros H. apply bind_Ok in H as (row & Hrow & Hx).
  apply py_nth_Ok_lookup in Hrow as (a & Ha & Hai).
  apply py_nth_Ok_lookup in Hx as (b & Hb & Hbj).
  exists a, b. split; [by apply (cell_lookup _ _ _ _ _ Ha Hb)|done].
Qed.

(** X2.  [fillMatrix] writes inner cells only: the two sequences, the table
    and the penalties are those of the constructor, the seven frames keep
    [len(seq2)] rows and [len(seq1)] columns, and row 0 and column 0 of
    every frame are still 0. *)
Theorem fillMatrix_keeps_borders (v : variant) (sc : ascii → ascii → option Z)
    (s1 s2 : list ascii) (og eg : Z) (sw : SWMatrix) :
  fillMatrix v (init sc s1 s2 og eg) = Ok sw →
  seq1 sw = tab :: s1 ∧ seq2 sw = tab :: s2 ∧ score sw = sc ∧
  o sw = og ∧ e sw = eg ∧
  shaped (S (length s2)) (S (length s1)) sw ∧
  ∀ (m : matrix) (i j : Z) (x : Z),
    m ∈ [F sw; M sw; Ix sw; Iy sw; TM sw; TIx sw; TIy sw] →
    i = 0 ∨ j = 0 → iat m i j = Ok x → x = 0.
Proof.
  intros H. apply fillMatrix_filled in H.
  pose proof (filled_upto_shaped _ _ _ _ _ H) as Hsh. simpl in Hsh.
  pose proof H as Hf. destruct H as [? ? ? ? ? _ _ _ _ _ _ _ _ _].
  do 5 (split; [done|]). split; [exact Hsh|].
  intros m i j x Hm Hij Hx.
  assert (shape (S (length s2)) (S (length s1)) m) as Hshape.
  { destruct Hsh. apply list_elem_of_In in Hm. simpl in Hm.
    destruct Hm as [<-|[<-|[<-|[<-|[<-|[<-|[<-|[]]]]]]]]; done. }
  assert (∀ a b : nat, (a = 0 ∨ b = 0)%nat → cell m a b = 0) as Hzero.
  { intros a b Hab.
    destruct (filled_cases v _ sw a b Hf) as [Hz|(a' & b' & -> & -> & _)];
      [|lia].
    unfold cells in Hz. injection Hz as Z1 Z2 Z3 Z4 Z5 Z6 Z7.
    apply list_elem_of_In in Hm. simpl in Hm.
    destruct Hm as [<-|[<-|[<-|[<-|[<-|[<-|[<-|[]]]]]]]]; done. }
  apply iat_Ok_cell in Hx as (a & b & <- & Ha & Hb).
  apply Hzero. destruct Hij as [-> | ->]; [left|right]; lia.
Qed.

Lemma fillMatrix_keeps_borders_witness :
  ∃ sw : SWMatrix,
    fillMatrix main_py acgt_agt = Ok sw ∧
    seq1 sw = tab :: chars "ACGT" ∧ seq2 sw = tab :: chars "AGT" ∧
    score sw = simple_score 2 (-1) ∧ o sw = -2 ∧ e sw = -1 ∧
    shaped 4 5 sw ∧
    ∀ (m : matrix) (i j : Z) (x : Z),
      m ∈ [F sw; M sw; Ix sw; Iy sw; TM sw; TIx sw; TIy sw] →
      i = 0 ∨ j = 0 → iat m i j = Ok x → x = 0.
Proof.
  exists (filled_of main_py acgt_agt).
  split; [vm_compute; reflexivity|].
  apply (fillMatrix_keeps_borders main_py (simple_score 2 (-1)) (chars "ACGT")
           (chars "AGT") (-2) (-1)).
  vm_compute. reflexivity.
Defined.

Lemma winner_not_negative_candidate (l : list Z) (k : nat) (y : Z) :
  0 ∈ l → l !! k = Some y → y < 0 → winner l ≠ Z.of_nat k.
Proof.
  intros H0 Hk Hy Hw. unfold winner in Hw. apply Nat2Z.inj in Hw.
  assert (l ≠ []) as Hne by (intros ->; by apply not_elem_of_nil in H0).
  pose proof (first_pos_lookup _ _ (series_max_in l Hne)) as Hl.
  rewrite Hw, Hk in Hl. injection Hl as Hl.
  pose proof (series_max_ge _ _ H0). lia.
Qed.

Lemma winner_floor (a b c : Z) :
  winner [a; b; c; 0] = 3 → series_max [a; b; c; 0] = 0.
Proof.
  intros Hw. unfold winner in Hw.
  assert ([a; b; c; 0] ≠ []) as Hne by done.
  pose proof (first_pos_lookup _ _ (series_max_in _ Hne)) as Hl.
  assert (first_pos (series_max [a; b; c; 0]) [a; b; c; 0] = 3%nat) as E by lia.
  rewrite E in Hl. injection Hl as Hl. done.
Qed.

(** X3.  After [fillMatrix] the three traceback frames hold states 0..3
    only, and a recorded 3 (halt) stands on a score cell that is 0.  In
    [main_2.py] the constant [-1] that replaces the cross term never wins:
    [TIx] never holds 2 and [TIy] never holds 1, so the frames never send
    the walk from a gap state to the gap state of the other direction. *)
Theorem fillMatrix_states (v : variant) (sc : ascii → ascii → option Z)
    (s1 s2 : list ascii) (og eg : Z) (sw : SWMatrix) :
  fillMatrix v (init sc s1 s2 og eg) = Ok sw →
  ∀ i j : nat,
    0 ≤ cell (TM sw) i j ≤ 3 ∧ 0 ≤ cell (TIx sw) i j ≤ 3 ∧
    0 ≤ cell (TIy sw) i j ≤ 3 ∧
    (cell (TM sw) i j = 3 → cell (M sw) i j = 0) ∧
    (cell (TIx sw) i j = 3 → cell (Ix sw) i j = 0) ∧
    (cell (TIy sw) i j = 3 → cell (Iy sw) i j = 0) ∧
    (v = main_2_py → cell (TIx sw) i j ≠ 2 ∧ cell (TIy sw) i j ≠ 1).
Proof.
  intros H i j. pose proof (fillMatrix_walkable _ _ _ _ _ _ _ H) as Hw.
  destruct (wk_states _ _ _ Hw i j) as (R1 & R2 & R3).
  do 3 (split; [done|]).
  apply fillMatrix_filled in H.
  destruct (filled_cases v _ sw i j H) as [Hz|(i' & j' & -> & -> & _ & _ & Hok)].
  { unfold cells in Hz. injection Hz as _ -> -> -> -> -> ->.
    repeat split; try done. }
  destruct Hok as (c1 & c2 & s & _ & _ & _ & HM & HTM & HIx & HTIx & HIy & HTIy & _).
  rewrite HM, HTM, HIx, HTIx, HIy, HTIy.
  split; [apply winner_floor|].
  split; [destruct v; apply winner_floor|].
  split; [destruct v; apply winner_floor|].
  intros ->. split.
  - apply (winner_not_negative_candidate _ 2 (-1)); [|done|lia].
    apply (candsIx_floor main_2_py).
  - apply (winner_not_negative_candidate _ 1 (-1)); [|done|lia].
    apply (candsIy_floor main_2_py).
Qed.

Lemma fillMatrix_states_witness :
  ∃ sw : SWMatrix,
    fillMatrix main_2_py abcxdef_abcydef = Ok sw ∧
    ∀ i j : nat,
      0 ≤ cell (TM sw) i j ≤ 3 ∧ 0 ≤ cell (TIx sw) i j ≤ 3 ∧
      0 ≤ cell (TIy sw) i j ≤ 3 ∧
      (cell (TM sw) i j = 3 → cell (M sw) i j = 0) ∧
      (cell (TIx sw) i j = 3 → cell (Ix sw) i j = 0) ∧
      (cell (TIy sw) i j = 3 → cell (Iy sw) i j = 0) ∧
      (main_2_py = main_2_py → cell (TIx sw) i j ≠ 2 ∧ cell (TIy sw) i j ≠ 1).
Proof.
  exists (filled_of main_2_py abcxdef_abcydef).
  split; [vm_compute; reflexivity|].
  apply (fillMatrix_states main_2_py (simple_score 2 (-10)) (chars "ABCXDEF")
           (chars "ABCYDEF") (-2) (-1)).
  vm_compute. reflexivity.
Defined.

(** With penalties that are not positive a gap cell is bounded by the best
    cell it extends: [Ix] by [F] one row up, [Iy] by [F] one column left. *)
Lemma filled_gap_le (v : variant) (sw0 sw : SWMatrix) (i j : nat) :
  filled v sw0 sw → o sw ≤ 0 → e sw ≤ 0 →
  cell (Ix sw) (S i) j ≤ cell (F sw) i j ∧
  cell (Iy sw) i (S j) ≤ cell (F sw) i j.
Proof.
  intros Hf Ho He.
  pose proof (filled_nonneg v sw0 sw i j Hf) as (F0 & M0 & X0 & Y0).
  pose proof (filled_F_max v sw0 sw i j Hf) as EF.
  split.
  - destruct (filled_cases v sw0 sw (S i) j Hf)
      as [Hz|(i' & j' & [= <-] & -> & _ & _ & Hok)].
    { unfold cells in Hz. injection Hz as _ _ -> _ _ _ _. done. }
    pose proof (cell_ok_ranges _ _ _ _ Hok) as [Ro Re].
    destruct Hok as (c1 & c2 & s & _ & _ & _ & _ & _ & -> & _).
    pose proof (filled_nonneg v sw0 sw i (S j') Hf) as (F1 & M1 & X1 & Y1).
    pose proof (filled_F_max v sw0 sw i (S j') Hf) as EF1.
    apply series_max_lub; [apply candsIx_nonempty|].
    intros x Hx. apply list_elem_of_In in Hx. unfold candsIx in Hx.
    destruct v; cbn [In] in Hx; destruct Hx as [<-|[<-|[<-|[<-|[]]]]];
      first [apply wrap64_sum_le; lia | lia].
  - destruct (filled_cases v sw0 sw i (S j) Hf)
      as [Hz|(i' & j' & -> & [= <-] & _ & _ & Hok)].
    { unfold cells in Hz. injection Hz as _ _ _ -> _ _ _. done. }
    pose proof (cell_ok_ranges _ _ _ _ Hok) as [Ro Re].
    destruct Hok as (c1 & c2 & s & _ & _ & _ & _ & _ & _ & _ & -> & _).
    pose proof (filled_nonneg v sw0 sw (S i') j Hf) as (F1 & M1 & X1 & Y1).
    pose proof (filled_F_max v sw0 sw (S i') j Hf) as EF1.
    apply series_max_lub; [apply candsIy_nonempty|].
    intros x Hx. apply list_elem_of_In in Hx. unfold candsIy in Hx.
    destruct v; cbn [In] in Hx; destruct Hx as [<-|[<-|[<-|[<-|[]]]]];
      first [apply wrap64_sum_le; lia | lia].
Qed.

(** With penalties that are not positive the best cell found by
    [getMaxCoord] is held by [M]. *)
Lemma best_cell_held_by_M (v : variant) (sc : ascii → ascii → option Z)
    (s1 s2 : list ascii) (og eg : Z) (sw : SWMatrix) :
  fillMatrix v (init sc s1 s2 og eg) = Ok sw → og ≤ 0 → eg ≤ 0 →
  iat (M sw) (Z.of_nat (getMaxCoord sw).1) (Z.of_nat (getMaxCoord sw).2)
    = Ok (getMax sw).
Proof.
  intros H Hog Heg. pose proof (fillMatrix_filled _ _ _ _ _ _ _ H) as Hf.
  pose proof (filled_upto_shaped _ _ _ _ _ Hf) as Hsh. simpl in Hsh.
  pose proof (sh_F _ _ _ Hsh) as HF.
  destruct (getMaxCoord_in_range _ _ sw HF) as [Hi Hj]; [lia|lia|].
  destruct (getMaxCoord_spec _ _ sw HF) as (row & Hrow & Hx & Hrows & Hcols);
    [lia|lia|].
  set (i := (getMaxCoord sw).1) in *. set (j := (getMaxCoord sw).2) in *.
  pose proof (cell_lookup _ _ _ _ _ Hrow Hx) as HG.
  pose proof (filled_F_max v _ sw i j Hf) as EF.
  pose proof (filled_nonneg v _ sw i j Hf) as (F0 & M0 & X0 & Y0).
  assert (o sw ≤ 0) as Ho by (by rewrite (fu_o _ _ _ _ _ Hf)).
  assert (e sw ≤ 0) as He by (by rewrite (fu_e _ _ _ _ _ Hf)).
  assert (cell (Ix sw) i j < getMax sw ∨ cell (Ix sw) i j = 0) as HIx.
  { destruct i as [|i'].
    - right. destruct (filled_cases v _ sw 0 j Hf) as [Hz|(? & ? & ? & _)];
        [|lia]. unfold cells in Hz. by injection Hz as _ _ -> _ _ _ _.
    - left. destruct (filled_gap_le v _ sw i' j Hf Ho He) as [Hle _].
      destruct (shape_lookup _ _ (F sw) i' j HF) as (row' & Hrow' & Hx');
        [lia|lia|].
      pose proof (Hrows i' row' (cell (F sw) i' j)) as Hlt.
      assert (cell (F sw) i' j < getMax sw); [|lia].
      apply Hlt; [lia|done|]. apply list_elem_of_lookup. eauto. }
  assert (cell (Iy sw) i j < getMax sw ∨ cell (Iy sw) i j = 0) as HIy.
  { destruct j as [|j'].
    - right. destruct (filled_cases v _ sw i 0 Hf) as [Hz|(? & ? & _ & ? & _)];
        [|lia]. unfold cells in Hz. by injection Hz as _ _ _ -> _ _ _.
    - left. destruct (filled_gap_le v _ sw i j' Hf Ho He) as [_ Hle].
      destruct (shape_lookup _ _ (F sw) i j' HF) as (row' & Hrow' & Hx');
        [lia|lia|].
      assert (row' = row) as -> by congruence.
      pose proof (Hcols j' (cell (F sw) i j') ltac:(lia) Hx'). lia. }
  assert (cell (M sw) i j = getMax sw) as HM by lia.
  rewrite (iat_cell _ _ _ _ _ (sh_M _ _ _ Hsh)) by done. by rewrite HM.
Qed.

(** X4.  With penalties that are not positive the best cell found by
    [getMaxCoord] is held by [M]: reading [M] there, as [traceback] does,
    reads the best score.  So the aligned region is empty exactly when the
    best score is 0. *)
Theorem best_cell_is_a_match (v : variant) (sc : ascii → ascii → option Z)
    (s1 s2 : list ascii) (og eg : Z) (sw : SWMatrix) (x y : Z) :
  fillMatrix v (init sc s1 s2 og eg) = Ok sw → og ≤ 0 → eg ≤ 0 →
  iat (M sw) (Z.of_nat (getMaxCoord sw).1) (Z.of_nat (getMaxCoord sw).2)
    = Ok (getMax sw) ∧
  (getMax sw = 0 ↔ alignedRegion sw x y = Ok no_lines).
Proof.
  intros H Hog Heg.
  pose proof (best_cell_held_by_M v sc s1 s2 og eg sw H Hog Heg) as Hiat.
  split; [done|]. split.
  - intros Hz. apply alignedRegion_zero. by rewrite Hiat, Hz.
  - intros Hreg. destruct (decide (getMax sw = 0)) as [|Hnz]; [done|].
    destruct (alignedRegion_last sw x y (getMax sw) no_lines Hiat Hnz Hreg)
      as (c1 & c2 & r1 & rl & r2 & _ & _ & E & _).
    simpl in E. by destruct r1.
Qed.

Lemma best_cell_is_a_match_witness :
  ∃ sw : SWMatrix,
    fillMatrix main_py abcxdef_abcydef = Ok sw ∧ getMax sw = 8 ∧
    iat (M sw) (Z.of_nat (getMaxCoord sw).1) (Z.of_nat (getMaxCoord sw).2)
      = Ok (getMax sw) ∧
    (getMax sw = 0 ↔ alignedRegion sw 0 0 = Ok no_lines).
Proof.
  exists (filled_of main_py abcxdef_abcydef).
  split; [vm_compute; reflexivity|].
  split; [vm_compute; reflexivity|].
  apply (best_cell_is_a_match main_py (simple_score 2 (-10)) (chars "ABCXDEF")
           (chars "ABCYDEF") (-2) (-1)); [vm_compute; reflexivity|lia|lia].
Defined.



(** Without the condition X5 fails: ["AAB"] against itself, [A]-[A] 10,
    [B]-[B] [2^63 - 1], any other pair -1, open -2, extend -1.  Every sum
    stored for the pair of [B]s wraps below 0, and the best score is 20. *)
Example getMax_lower_bound_needs_room :
  getMax (filled_of main_py aab_aab_wide) = 20 ∧
  cell (M (filled_of main_py aab_aab_wide)) 3 3 = 0.
Proof. vm_compute. split; reflexivity. Qed.

Lemma filled_bound (v : variant) (sc : ascii → ascii → option Z)
    (s1 s2 : list ascii) (og eg smax : Z) (sw : SWMatrix) :
  filled v (init sc s1 s2 og eg) sw → og ≤ 0 → eg ≤ 0 → 0 ≤ smax →
  (∀ c1 c2 m, c1 ∈ s1 → c2 ∈ s2 → sc c1 c2 = Some m → m ≤ smax) →
  ∀ i j : nat,
    cell (M sw) i j ≤ Z.of_nat (i `min` j) * smax ∧
    cell (Ix sw) i j ≤ Z.of_nat (i `min` j) * smax ∧
    cell (Iy sw) i j ≤ Z.of_nat (i `min` j) * smax.
Proof.
  intros Hf Hog Heg Hs0 Hsc.
  assert (o sw = og) as Eo by (by rewrite (fu_o _ _ _ _ _ Hf)).
  assert (e sw = eg) as Ee by (by rewrite (fu_e _ _ _ _ _ Hf)).
  induction i as [|i IHi]; intros j.
  { destruct (filled_cases v _ sw 0 j Hf) as [Hz|(i' & j' & ? & _)]; [|lia].
    unfold cells in Hz. injection Hz as _ -> -> -> _ _ _. simpl. lia. }
  induction j as [|j IHj].
  { destruct (filled_cases v _ sw (S i) 0 Hf) as [Hz|(i' & j' & _ & ? & _)];
      [|lia].
    unfold cells in Hz. injection Hz as _ -> -> -> _ _ _.
    rewrite Nat.min_0_r. lia. }
  destruct (filled_cases v _ sw (S i) (S j) Hf)
    as [Hz|(i' & j' & [= <-] & [= <-] & Hi & Hj & Hok)].
  { unfold cells in Hz. injection Hz as _ -> -> -> _ _ _. nia. }
  destruct Hok as
    (c1 & c2 & m & H1 & H2 & Hm & -> & _ & -> & _ & -> & _ & _ & Rs & Ro & Re).
  apply in_int64_spec in Rs, Ro, Re.
  rewrite (fu_seq1 _ _ _ _ _ Hf) in H1. rewrite (fu_seq2 _ _ _ _ _ Hf) in H2.
  rewrite (fu_score _ _ _ _ _ Hf) in Hm. simpl in H1, H2, Hm.
  assert (m ≤ smax) as Hle
    by (eapply Hsc; [| |done]; by eapply list_elem_of_lookup_2).
  destruct (IHi j) as (A1 & A2 & A3).
  destruct (IHi (S j)) as (B1 & B2 & B3).
  destruct IHj as (C1 & C2 & C3).
  pose proof (filled_nonneg v _ sw i j Hf) as (_ & N1 & N2 & N3).
  pose proof (filled_nonneg v _ sw i (S j) Hf) as (_ & N4 & N5 & N6).
  pose proof (filled_nonneg v _ sw (S i) j Hf) as (_ & N7 & N8 & N9).
  assert (Z.of_nat (S i `min` S j) = Z.of_nat (i `min` j) + 1) as -> by lia.
  assert (Z.of_nat (i `min` S j) * smax ≤ (Z.of_nat (i `min` j) + 1) * smax)
    as D1 by (apply Z.mul_le_mono_nonneg_r; lia).
  assert (Z.of_nat (S i `min` j) * smax ≤ (Z.of_nat (i `min` j) + 1) * smax)
    as D2 by (apply Z.mul_le_mono_nonneg_r; lia).
  assert (0 ≤ Z.of_nat (i `min` j) * smax) as D0
    by (apply Z.mul_nonneg_nonneg; lia).
  rewrite Z.mul_add_distr_r, Z.mul_1_l in *.
  repeat split.
  - apply series_max_lub; [done|]. unfold candsM. intros x Hx.
    apply list_elem_of_In in Hx. cbn [In] in Hx.
    destruct Hx as [<-|[<-|[<-|[<-|[]]]]];
      first [apply wrap64_sum_le; lia | lia].
  - apply series_max_lub; [apply candsIx_nonempty|].
    intros x Hx. apply list_elem_of_In in Hx. unfold candsIx in Hx.
    destruct v; cbn [In] in Hx; rewrite Eo, Ee in *;
      destruct Hx as [<-|[<-|[<-|[<-|[]]]]];
      first [apply wrap64_sum_le; lia | lia].
  - apply series_max_lub; [apply candsIy_nonempty|].
    intros x Hx. apply list_elem_of_In in Hx. unfold candsIy in Hx.
    destruct v; cbn [In] in Hx; rewrite Eo, Ee in *;
      destruct Hx as [<-|[<-|[<-|[<-|[]]]]];
      first [apply wrap64_sum_le; lia | lia].
Qed.

(** X6.  With penalties that are not positive and every similarity at most
    [smax >= 0], the best score is at most [smax] times the length of the
    shorter sequence; in particular it is 0 when no pair of symbols has a
    positive similarity. *)
Theorem getMax_upper_bound (v : variant) (sc : ascii → ascii → option Z)
    (s1 s2 : list ascii) (og eg smax : Z) (sw : SWMatrix) :
  fillMatrix v (init sc s1 s2 og eg) = Ok sw →
  og ≤ 0 → eg ≤ 0 → 0 ≤ smax →
  (∀ c1 c2 m, c1 ∈ s1 → c2 ∈ s2 → sc c1 c2 = Some m → m ≤ smax) →
  0 ≤ getMax sw ≤ Z.of_nat (length s1 `min` length s2) * smax.
Proof.
  intros H Hog Heg Hs0 Hsc. pose proof (fillMatrix_filled _ _ _ _ _ _ _ H) as Hf.
  pose proof (filled_upto_shaped _ _ _ _ _ Hf) as Hsh. simpl in Hsh.
  destruct (frame_max_attained _ _ (F sw) (sh_F _ _ _ Hsh))
    as (i & j & Hi & Hj & HG); [lia|lia|].
  unfold getMax. rewrite <- HG.
  pose proof (filled_nonneg v _ sw i j Hf) as (F0 & _).
  pose proof (filled_F_max v _ sw i j Hf) as EF.
  destruct (filled_bound v sc s1 s2 og eg smax sw Hf Hog Heg Hs0 Hsc i j)
    as (B1 & B2 & B3).
  split; [done|].
  assert (Z.of_nat (i `min` j) ≤ Z.of_nat (length s1 `min` length s2)) by lia.
  nia.
Qed.

Lemma getMax_upper_bound_witness :
  ∃ sw : SWMatrix,
    fillMatrix main_py acgt_agt = Ok sw ∧
    0 ≤ getMax sw ≤ Z.of_nat (length (chars "ACGT") `min` length (chars "AGT")) * 2.
Proof.
  exists (filled_of main_py acgt_agt).
  split; [vm_compute; reflexivity|].
  apply (getMax_upper_bound main_py (simple_score 2 (-1)) (chars "ACGT")
           (chars "AGT") (-2) (-1) 2); [vm_compute; reflexivity|lia|lia|lia|].
  intros c1 c2 m _ _. unfold simple_score. intros [= <-].
  destruct (Ascii.eqb c1 c2); lia.
Defined.

(** ** The display spells the two sequences *)

Lemma seg_nil {A : Type} (l : list A) (a : nat) : seg l a a = [].
Proof. unfold seg. by rewrite Nat.sub_diag. Qed.

Lemma seg_snoc {A : Type} (l : list A) (a b : nat) (x : A) :
  (a ≤ b)%nat → l !! b = Some x → seg l a (S b) = seg l a b ++ [x].
Proof.
  intros Hab Hx. unfold seg.
  replace (S b - a)%nat with (S (b - a)) by lia.
  apply take_S_r. rewrite lookup_drop. by replace (a + (b - a))%nat with b by lia.
Qed.

Lemma take_seg {A : Type} (l : list A) (a b : nat) :
  (a ≤ b)%nat → take a l ++ seg l a b = take b l.
Proof.
  intros Hab. unfold seg. rewrite take_take_drop.
  by replace (a + (b - a))%nat with b by lia.
Qed.

Lemma spells_app (l1 l2 s1 s2 : list ascii) :
  spells l1 s1 → spells l2 s2 → spells (l1 ++ l2) (s1 ++ s2).
Proof.
  induction 1 as [|c line s _ IH|c line s Hc _ IH]; intros H2; simpl.
  - done.
  - apply spells_sym. by apply IH.
  - apply spells_fill; [done|]. by apply IH.
Qed.

Lemma spells_one (c : ascii) : spells [c] [c].
Proof. apply spells_sym, spells_nil. Qed.

Lemma spells_filler (c : ascii) : filler c → spells [c] [].
Proof. intros Hc. apply spells_fill; [done|apply spells_nil]. Qed.

Lemma spells_rev (l s : list ascii) : spells l s → spells (rev l) (rev s).
Proof.
  induction 1 as [|c line s _ IH|c line s Hc _ IH]; simpl.
  - apply spells_nil.
  - apply spells_app; [done|apply spells_one].
  - rewrite <- (app_nil_r (rev s)). apply spells_app; [done|].
    by apply spells_filler.
Qed.

Lemma tab_lookup_S (s : list ascii) (i : Z) (c : ascii) :
  0 < i → py_nth (tab :: s) i = Ok c → s !! (Z.to_nat i - 1)%nat = Some c.
Proof.
  intros Hi H. apply py_nth_Ok_lookup in H as (n & Hn & En).
  rewrite En in Hn by lia.
  destruct (Z.to_nat i) as [|k] eqn:E; [lia|]. simpl in Hn.
  by replace (S k - 1)%nat with k by lia.
Qed.

(** The walk from [(i, j)] back to where it halts writes, backwards, the
    symbols of [seq1] between the two columns and those of [seq2] between
    the two rows, one column of the display at a time. *)
Lemma traceback_loop_spells (R C : nat) (sw : SWMatrix) (s1 s2 : list ascii) :
  walkable R C sw → seq1 sw = tab :: s1 → seq2 sw = tab :: s2 →
  ∀ (fuel : nat) (st : Z) (i j : nat) (cv : Z) (ls : lines) (w' : walk),
    (i < R)%nat → (j < C)%nat → 0 ≤ st ≤ 3 →
    (cv ≠ 0 → (1 ≤ i)%nat ∧ (1 ≤ j)%nat) →
    traceback_loop fuel sw
      {| state := st; wi := Z.of_nat i; wj := Z.of_nat j;
         currVal := cv; out := ls |} = Ok w' →
    ∃ (i' j' : nat) (a b c : list ascii),
      wi w' = Z.of_nat i' ∧ wj w' = Z.of_nat j' ∧
      (i' ≤ i)%nat ∧ (j' ≤ j)%nat ∧
      matchStr1 (out w') = matchStr1 ls ++ a ∧
      matchLine (out w') = matchLine ls ++ b ∧
      matchStr2 (out w') = matchStr2 ls ++ c ∧
      spells a (rev (seg s1 j' j)) ∧ spells c (rev (seg s2 i' i)) ∧
      length a = length b ∧ length b = length c.
Proof.
  intros [Hsh Hb Hst] E1 E2. induction fuel as [|fuel IH];
    intros st i j cv ls w' Hi Hj Hs Hcv.
  - cbn [traceback_loop currVal state].
    destruct (negb (cv =? 0) && negb (st =? 3)); [done|].
    intros [= <-]. exists i, j, [], [], []. cbn.
    rewrite !app_nil_r, !seg_nil. repeat split; try done; try lia;
      apply spells_nil.
  - cbn [traceback_loop currVal state].
    destruct (Z.eqb_spec cv 0) as [->|Hne]; cbn [negb andb].
    { intros [= <-]. exists i, j, [], [], []. cbn.
      rewrite !app_nil_r, !seg_nil. repeat split; try done; try lia;
        apply spells_nil. }
    destruct (Z.eqb_spec st 3) as [->|Hne3]; cbn [negb andb].
    { intros [= <-]. exists i, j, [], [], []. cbn.
      rewrite !app_nil_r, !seg_nil. repeat split; try done; try lia;
        apply spells_nil. }
    destruct (Hcv Hne) as [Hi1 Hj1].
    destruct i as [|i]; [lia|]. destruct j as [|j]; [lia|].
    destruct (lookup_lt_is_Some_2 (seq1 sw) (S j)) as [c1 H1];
      [rewrite (sh_seq1 _ _ _ Hsh); lia|].
    destruct (lookup_lt_is_Some_2 (seq2 sw) (S i)) as [c2 H2];
      [rewrite (sh_seq2 _ _ _ Hsh); lia|].
    assert (s1 !! j = Some c1) as H1' by (by rewrite E1 in H1).
    assert (s2 !! i = Some c2) as H2' by (by rewrite E2 in H2).
    assert (st = 0 ∨ st = 1 ∨ st = 2) as [->|[->| ->]] by lia.
    + rewrite (traceback_step_0 R C sw i j cv ls c1 c2) by done. rsimpl.
      intros Hloop. apply IH in Hloop
        as (i' & j' & a & b & c & ? & ? & ? & ? & Ea & Eb & Ec & Sa & Sc & L1 & L2);
        try lia; [|apply Hst|].
      * exists i', j', (c1 :: a), (mark c1 c2 :: b), (c2 :: c).
        cbn in Ea, Eb, Ec. unfold append in *.
        rewrite Ea, Eb, Ec, <- !app_assoc.
        rewrite (seg_snoc s1 j' j c1), (seg_snoc s2 i' i c2) by (done || lia).
        rewrite !rev_unit. simpl.
        repeat split; try done; try lia; by apply spells_sym.
      * intros Hnz. destruct i as [|i].
        { destruct (Hb 0%nat j) as (? & ? & ?); [by left|]. done. }
        destruct j as [|j]; [|lia].
        destruct (Hb (S i) 0%nat) as (? & ? & ?); [by right|]. done.
    + rewrite (traceback_step_1 R C sw i (S j) cv ls c1 c2) by done. rsimpl.
      intros Hloop. apply IH in Hloop
        as (i' & j' & a & b & c & ? & ? & ? & ? & Ea & Eb & Ec & Sa & Sc & L1 & L2);
        try lia; [|apply Hst|].
      * exists i', j', (gap_symbol :: a), (mark c1 c2 :: b), (c2 :: c).
        cbn in Ea, Eb, Ec. unfold append in *.
        rewrite Ea, Eb, Ec, <- !app_assoc.
        rewrite (seg_snoc s2 i' i c2) by (done || lia).
        rewrite !rev_unit. simpl.
        repeat split; try done; try lia.
        -- apply spells_fill; [|done]. right. by left.
        -- by apply spells_sym.
      * intros Hnz. destruct i as [|i]; [|lia].
        destruct (Hb 0%nat (S j)) as (? & ? & ?); [by left|]. done.
    + rewrite (traceback_step_2 R C sw (S i) j cv ls c1 c2) by done. rsimpl.
      intros Hloop. apply IH in Hloop
        as (i' & j' & a & b & c & ? & ? & ? & ? & Ea & Eb & Ec & Sa & Sc & L1 & L2);
        try lia; [|apply Hst|].
      * exists i', j', (c1 :: a), (mark c1 c2 :: b), (gap_symbol :: c).
        cbn in Ea, Eb, Ec. unfold append in *.
        rewrite Ea, Eb, Ec, <- !app_assoc.
        rewrite (seg_snoc s1 j' j c1) by (done || lia).
        rewrite !rev_unit. simpl.
        repeat split; try done; try lia.
        -- by apply spells_sym.
        -- apply spells_fill; [|done]. right. by left.
      * intros Hnz. destruct j as [|j]; [|lia].
        destruct (Hb (S i) 0%nat) as (? & ? & ?); [by right|]. done.
Qed.

(** [completeFront] writes, backwards, what is left of the two sequences
    before the coordinate it is given, blank where one has run out. *)
Lemma completeFront_loop_spells (sw : SWMatrix) (s1 s2 : list ascii) :
  seq1 sw = tab :: s1 → seq2 sw = tab :: s2 →
  ∀ (fuel : nat) (i j : Z) (ls ls' : lines),
    completeFront_loop fuel sw i j ls = Ok ls' →
    ∃ a b c : list ascii,
      matchStr1 ls' = matchStr1 ls ++ a ∧
      matchLine ls' = matchLine ls ++ b ∧
      matchStr2 ls' = matchStr2 ls ++ c ∧
      spells a (rev (take (Z.to_nat j) s1)) ∧
      spells c (rev (take (Z.to_nat i) s2)) ∧
      length a = length b ∧ length b = length c.
Proof.
  intros E1 E2. induction fuel as [|fuel IH]; intros i j ls ls';
    cbn [completeFront_loop].
  - destruct (Z.ltb_spec 0 i); [done|]. destruct (Z.ltb_spec 0 j); [done|].
    cbn [orb]. intros [= <-]. exists [], [], [].
    replace (Z.to_nat j) with 0%nat by lia.
    replace (Z.to_nat i) with 0%nat by lia.
    rewrite !app_nil_r. repeat split; try done; apply spells_nil.
  - destruct (Z.ltb_spec 0 i) as [Hi|Hi]; destruct (Z.ltb_spec 0 j) as [Hj|Hj];
      cbn [orb].
    4:{ intros [= <-]. exists [], [], [].
        replace (Z.to_nat j) with 0%nat by lia.
        replace (Z.to_nat i) with 0%nat by lia.
        rewrite !app_nil_r. repeat split; try done; apply spells_nil. }
    all: intros H; apply bind_Ok in H as (c1 & H1 & H);
      apply bind_Ok in H as (c2 & H2 & H);
      apply IH in H as (a & b & c & Ea & Eb & Ec & Sa & Sc & L1 & L2);
      cbn in Ea, Eb, Ec; unfold append in *;
      exists (c1 :: a), (" "%char :: b), (c2 :: c);
      rewrite Ea, Eb, Ec, <- !app_assoc;
      (split; [done|]); (split; [done|]); (split; [done|]);
      (split; [|split; [|simpl; lia]]).
    + rewrite E1 in H1. apply tab_lookup_S in H1; [|done].
      replace (Z.to_nat j) with (S (Z.to_nat j - 1)) by lia.
      rewrite (take_S_r _ _ _ H1), rev_unit.
      apply spells_sym. by replace (Z.to_nat j - 1)%nat with (Z.to_nat (j - 1)) by lia.
    + rewrite E2 in H2. apply tab_lookup_S in H2; [|done].
      replace (Z.to_nat i) with (S (Z.to_nat i - 1)) by lia.
      rewrite (take_S_r _ _ _ H2), rev_unit.
      apply spells_sym. by replace (Z.to_nat i - 1)%nat with (Z.to_nat (i - 1)) by lia.
    + injection H1 as <-. apply spells_fill; [by left|].
      by replace (Z.to_nat j) with (Z.to_nat (j - 1)) by lia.
    + rewrite E2 in H2. apply tab_lookup_S in H2; [|done].
      replace (Z.to_nat i) with (S (Z.to_nat i - 1)) by lia.
      rewrite (take_S_r _ _ _ H2), rev_unit.
      apply spells_sym. by replace (Z.to_nat i - 1)%nat with (Z.to_nat (i - 1)) by lia.
    + rewrite E1 in H1. apply tab_lookup_S in H1; [|done].
      replace (Z.to_nat j) with (S (Z.to_nat j - 1)) by lia.
      rewrite (take_S_r _ _ _ H1), rev_unit.
      apply spells_sym. by replace (Z.to_nat j - 1)%nat with (Z.to_nat (j - 1)) by lia.
    + injection H2 as <-. apply spells_fill; [by left|].
      by replace (Z.to_nat i) with (Z.to_nat (i - 1)) by lia.
Qed.

(** [completeBack] writes what is left of the two sequences from the
    coordinate it is given on, blank where one has run out. *)
Lemma completeBack_loop_spells (sw : SWMatrix) (s1 s2 : list ascii) :
  seq1 sw = tab :: s1 → seq2 sw = tab :: s2 →
  ∀ (fuel : nat) (i j : Z) (ls ls' : lines),
    1 ≤ i → 1 ≤ j →
    completeBack_loop fuel sw i j ls = Ok ls' →
    ∃ a b c : list ascii,
      matchStr1 ls' = matchStr1 ls ++ a ∧
      matchLine ls' = matchLine ls ++ b ∧
      matchStr2 ls' = matchStr2 ls ++ c ∧
      spells a (drop (Z.to_nat j - 1) s1) ∧
      spells c (drop (Z.to_nat i - 1) s2) ∧
      length a = length b ∧ length b = length c.
Proof.
  intros E1 E2.
  assert (len (seq1 sw) = Z.of_nat (length s1) + 1) as L1
    by (unfold len; rewrite E1; simpl; lia).
  assert (len (seq2 sw) = Z.of_nat (length s2) + 1) as L2
    by (unfold len; rewrite E2; simpl; lia).
  induction fuel as [|fuel IH]; intros i j ls ls' Hi1 Hj1;
    cbn [completeBack_loop].
  - destruct (Z.ltb_spec i (len (seq2 sw))); [done|].
    destruct (Z.ltb_spec j (len (seq1 sw))); [done|].
    cbn [orb]. intros [= <-]. exists [], [], [].
    rewrite !drop_ge by lia.
    rewrite !app_nil_r. repeat split; try done; apply spells_nil.
  - destruct (Z.ltb_spec i (len (seq2 sw))) as [Hi|Hi];
      destruct (Z.ltb_spec j (len (seq1 sw))) as [Hj|Hj]; cbn [orb].
    4:{ intros [= <-]. exists [], [], [].
        rewrite !drop_ge by lia.
        rewrite !app_nil_r. repeat split; try done; apply spells_nil. }
    all: intros H; apply bind_Ok in H as (c1 & H1 & H);
      apply bind_Ok in H as (c2 & H2 & H);
      apply IH in H as (a & b & c & Ea & Eb & Ec & Sa & Sc & La & Lb);
      [|lia|lia];
      cbn in Ea, Eb, Ec; unfold append in *;
      exists (c1 :: a), (" "%char :: b), (c2 :: c);
      rewrite Ea, Eb, Ec, <- !app_assoc;
      (split; [done|]); (split; [done|]); (split; [done|]);
      (split; [|split; [|simpl; lia]]).
    + rewrite E1 in H1. apply tab_lookup_S in H1; [|lia].
      rewrite (drop_S _ _ _ H1). apply spells_sym.
      by replace (S (Z.to_nat j - 1)) with (Z.to_nat (j + 1) - 1)%nat by lia.
    + rewrite E2 in H2. apply tab_lookup_S in H2; [|lia].
      rewrite (drop_S _ _ _ H2). apply spells_sym.
      by replace (S (Z.to_nat i - 1)) with (Z.to_nat (i + 1) - 1)%nat by lia.
    + injection H1 as <-. apply spells_fill; [by left|].
      rewrite drop_ge by lia. by rewrite drop_ge in Sa by lia.
    + rewrite E2 in H2. apply tab_lookup_S in H2; [|lia].
      rewrite (drop_S _ _ _ H2). apply spells_sym.
      by replace (S (Z.to_nat i - 1)) with (Z.to_nat (i + 1) - 1)%nat by lia.
    + rewrite E1 in H1. apply tab_lookup_S in H1; [|lia].
      rewrite (drop_S _ _ _ H1). apply spells_sym.
      by replace (S (Z.to_nat j - 1)) with (Z.to_nat (j + 1) - 1)%nat by lia.
    + injection H2 as <-. apply spells_fill; [by left|].
      rewrite drop_ge by lia. by rewrite drop_ge in Sc by lia.
Qed.

(** X7.  The display of [traceback] on a filled object: the top line is
    [seq1] in full and in order, and the bottom line [seq2], with nothing
    but blanks, gap marks and the two brackets put in; and the three lines
    have the same length. *)
Theorem traceback_spells_sequences (v : variant)
    (sc : ascii → ascii → option Z) (s1 s2 : list ascii) (og eg : Z)
    (sw : SWMatrix) (x y : Z) (ls : lines) :
  fillMatrix v (init sc s1 s2 og eg) = Ok sw →
  traceback sw x y = Ok ls →
  spells (matchStr1 ls) s1 ∧ spells (matchStr2 ls) s2 ∧
  length (matchStr1 ls) = length (matchLine ls) ∧
  length (matchLine ls) = length (matchStr2 ls).
Proof.
  intros H Htb. pose proof (fillMatrix_walkable _ _ _ _ _ _ _ H) as Hw.
  pose proof (wk_shaped _ _ _ Hw) as Hsh.
  apply fillMatrix_filled in H.
  assert (seq1 sw = tab :: s1) as E1 by (by rewrite (fu_seq1 _ _ _ _ _ H)).
  assert (seq2 sw = tab :: s2) as E2 by (by rewrite (fu_seq2 _ _ _ _ _ H)).
  destruct (getMaxCoord_in_range _ _ sw (sh_F _ _ _ Hsh)) as [Hi Hj];
    [lia|lia|].
  unfold traceback in Htb. apply bind_Ok in Htb as (w & Hwalk & Htb).
  rewrite traceback_walk_start in Hwalk.
  rewrite (iat_cell _ _ _ _ _ (sh_M _ _ _ Hsh)) in Hwalk by done.
  rsimpl in Hwalk.
  destruct (getMaxCoord sw) as [i j]. cbn [fst snd] in *.
  apply (traceback_loop_spells _ _ sw s1 s2 Hw E1 E2) in Hwalk
    as (i' & j' & a & b & c & Ei & Ej & Hi' & Hj' & Ea & Eb & Ec & Sa & Sc & La & Lb);
    [|done|done|lia|].
  2:{ intros Hnz. destruct i as [|i].
      { destruct (wk_border _ _ _ Hw 0%nat j) as (? & _); [by left|]. done. }
      destruct j as [|j]; [|lia].
      destruct (wk_border _ _ _ Hw (S i) 0%nat) as (? & _); [by right|]. done. }
  apply bind_Ok in Htb as (lf & Hfront & Hback).
  unfold completeFront in Hfront.
  apply (completeFront_loop_spells sw s1 s2 E1 E2) in Hfront
    as (a1 & b1 & c1 & Ea1 & Eb1 & Ec1 & Sa1 & Sc1 & La1 & Lb1).
  unfold completeBack in Hback.
  apply (completeBack_loop_spells sw s1 s2 E1 E2) in Hback
    as (a2 & b2 & c2 & Ea2 & Eb2 & Ec2 & Sa2 & Sc2 & La2 & Lb2); [|lia|lia].
  cbn in Ea, Eb, Ec, Ea1, Eb1, Ec1, Ea2, Eb2, Ec2. unfold append in *.
  rewrite Ej in Sa1. rewrite Ei in Sc1. rewrite Nat2Z.id in Sa1, Sc1.
  replace (Z.to_nat (Z.of_nat j + 1) - 1)%nat with j in Sa2 by lia.
  replace (Z.to_nat (Z.of_nat i + 1) - 1)%nat with i in Sc2 by lia.
  apply spells_rev in Sa, Sc, Sa1, Sc1. rewrite rev_involutive in Sa, Sc, Sa1, Sc1.
  rewrite Ea2, Eb2, Ec2, Ea1, Eb1, Ec1, Ea, Eb, Ec.
  rewrite !rev_app_distr. cbn [rev app].
  split; [|split].
  - assert (take j' s1 ++ seg s1 j' j ++ drop j s1 = s1) as Es
      by (by rewrite app_assoc, take_seg, take_drop).
    rewrite <- Es. rewrite <- !app_assoc. apply spells_app; [done|].
    cbn [app]. apply spells_fill; [right; right; by left|].
    apply spells_app; [done|].
    apply spells_fill; [right; right; by right|]. done.
  - assert (take i' s2 ++ seg s2 i' i ++ drop i s2 = s2) as Es
      by (by rewrite app_assoc, take_seg, take_drop).
    rewrite <- Es. rewrite <- !app_assoc. apply spells_app; [done|].
    cbn [app]. apply spells_fill; [right; right; by left|].
    apply spells_app; [done|].
    apply spells_fill; [right; right; by right|]. done.
  - rewrite !length_app. cbn [length]. rewrite !length_rev. lia.
Qed.

Lemma traceback_spells_sequences_witness :
  ∃ (sw : SWMatrix) (ls : lines),
    fillMatrix main_py abcxdef_abcydef = Ok sw ∧
    traceback sw 0 0 = Ok ls ∧
    spells (matchStr1 ls) (chars "ABCXDEF") ∧
    spells (matchStr2 ls) (chars "ABCYDEF") ∧
    length (matchStr1 ls) = length (matchLine ls) ∧
    length (matchLine ls) = length (matchStr2 ls).
Proof.
  exists (filled_of main_py abcxdef_abcydef),
         {| matchStr1 := chars "ABCX(DEF)"; matchLine := chars "     ||| ";
            matchStr2 := chars "ABCY(DEF)" |}.
  split; [vm_compute; reflexivity|].
  split; [vm_compute; reflexivity|].
  apply (traceback_spells_sequences main_py (simple_score 2 (-10))
           (chars "ABCXDEF") (chars "ABCYDEF") (-2) (-1)
           (filled_of main_py abcxdef_abcydef) 0 0
           {| matchStr1 := chars "ABCX(DEF)"; matchLine := chars "     ||| ";
              matchStr2 := chars "ABCY(DEF)" |});
    vm_compute; reflexivity.
Defined.

(** ** Swapping the two sequences *)

Lemma filled_outside (v : variant) (sw0 sw : SWMatrix) (i j : nat) :
  filled v sw0 sw →
  ¬ ((S i < length (seq2 sw0))%nat ∧ (S j < length (seq1 sw0))%nat) →
  cells sw (S i) (S j) = [0; 0; 0; 0; 0; 0; 0].
Proof. intros Hf Hn. apply (fu_todo _ _ _ _ _ Hf). unfold before. lia. Qed.

Lemma filled_inside (v : variant) (sw0 sw : SWMatrix) (i j : nat) :
  filled v sw0 sw →
  (S i < length (seq2 sw0))%nat → (S j < length (seq1 sw0))%nat →
  cell_ok v sw i j.
Proof.
  intros Hf Hi Hj. apply (fu_done _ _ _ _ _ Hf); [done|done|].
  unfold before. lia.
Qed.

Lemma filled_border (v : variant) (sw0 sw : SWMatrix) (i j : nat) :
  filled v sw0 sw → (i = 0 ∨ j = 0)%nat →
  cells sw i j = [0; 0; 0; 0; 0; 0; 0].
Proof.
  intros Hf Hij.
  destruct (filled_cases v sw0 sw i j Hf) as [Hz|(i' & j' & -> & -> & _)];
    [done|lia].
Qed.

(** Filling with the two sequences swapped transposes the score frames,
    [Ix] and [Iy] changing places. *)
Lemma filled_transpose (v : variant) (sc : ascii → ascii → option Z)
    (s1 s2 : list ascii) (og eg : Z) (sw sw' : SWMatrix) :
  filled v (init sc s1 s2 og eg) sw →
  filled v (init sc s2 s1 og eg) sw' →
  (∀ c1 c2, c1 ∈ s1 → c2 ∈ s2 → sc c2 c1 = sc c1 c2) →
  ∀ i j : nat,
    cell (M sw') j i = cell (M sw) i j ∧
    cell (Ix sw') j i = cell (Iy sw) i j ∧
    cell (Iy sw') j i = cell (Ix sw) i j.
Proof.
  intros Hf Hf' Hsym.
  assert (∀ i j, (i = 0 ∨ j = 0)%nat →
            cell (M sw') j i = cell (M sw) i j ∧
            cell (Ix sw') j i = cell (Iy sw) i j ∧
            cell (Iy sw') j i = cell (Ix sw) i j) as Hborder.
  { intros i j Hij.
    pose proof (filled_border v _ sw i j Hf Hij) as Hz.
    pose proof (filled_border v _ sw' j i Hf' ltac:(lia)) as Hz'.
    unfold cells in Hz, Hz'.
    injection Hz as _ -> -> -> _ _ _. injection Hz' as _ -> -> -> _ _ _. done. }
  induction i as [|i IHi]; intros j; [apply Hborder; by left|].
  induction j as [|j IHj]; [apply Hborder; by right|].
  destruct (decide ((i < length s2)%nat ∧ (j < length s1)%nat)) as [[Hi Hj]|Hn].
  - destruct (filled_inside v _ sw i j Hf) as
      (c1 & c2 & m & H1 & H2 & Hm & HM & _ & HIx & _ & HIy & _);
      [simpl; lia|simpl; lia|].
    destruct (filled_inside v _ sw' j i Hf') as
      (d1 & d2 & m' & D1 & D2 & Hm' & HM' & _ & HIx' & _ & HIy' & _);
      [simpl; lia|simpl; lia|].
    rewrite (fu_seq1 _ _ _ _ _ Hf) in H1. rewrite (fu_seq2 _ _ _ _ _ Hf) in H2.
    rewrite (fu_score _ _ _ _ _ Hf) in Hm.
    rewrite (fu_seq1 _ _ _ _ _ Hf') in D1. rewrite (fu_seq2 _ _ _ _ _ Hf') in D2.
    rewrite (fu_score _ _ _ _ _ Hf') in Hm'.
    simpl in H1, H2, Hm, D1, D2, Hm'.
    assert (d1 = c2) as -> by congruence. assert (d2 = c1) as -> by congruence.
    rewrite (Hsym c1 c2) in Hm'
      by (by eapply list_elem_of_lookup_2).
    assert (m' = m) as -> by congruence.
    destruct (IHi j) as (A1 & A2 & A3).
    destruct (IHi (S j)) as (B1 & B2 & B3).
    destruct IHj as (C1 & C2 & C3).
    rewrite HM, HIx, HIy, HM', HIx', HIy'.
    unfold candsM, candsIx, candsIy.
    rewrite (fu_o _ _ _ _ _ Hf), (fu_e _ _ _ _ _ Hf).
    rewrite (fu_o _ _ _ _ _ Hf'), (fu_e _ _ _ _ _ Hf'). simpl.
    destruct v; rewrite ?A1, ?A2, ?A3, ?B1, ?B2, ?B3, ?C1, ?C2, ?C3;
      cbn [series_max fold_left]; (split; [|split]); lia.
  - pose proof (filled_outside v _ sw i j Hf) as Hz.
    pose proof (filled_outside v _ sw' j i Hf') as Hz'.
    simpl in Hz, Hz'. specialize (Hz ltac:(lia)). specialize (Hz' ltac:(lia)).
    unfold cells in Hz, Hz'.
    injection Hz as _ -> -> -> _ _ _. injection Hz' as _ -> -> -> _ _ _. done.
Qed.

(** X9.  Swapping the two sequences under a table that is symmetric on
    their symbols gives the transposed frame [F] and the same best score
    (the coordinate of the best cell need not be the transposed one). *)
Theorem best_score_symmetric (v : variant) (sc : ascii → ascii → option Z)
    (s1 s2 : list ascii) (og eg : Z) (sw sw' : SWMatrix) :
  fillMatrix v (init sc s1 s2 og eg) = Ok sw →
  fillMatrix v (init sc s2 s1 og eg) = Ok sw' →
  (∀ c1 c2, c1 ∈ s1 → c2 ∈ s2 → sc c2 c1 = sc c1 c2) →
  getMax sw' = getMax sw ∧
  ∀ i j : nat, cell (F sw') j i = cell (F sw) i j.
Proof.
  intros H H' Hsym.
  apply fillMatrix_filled in H. apply fillMatrix_filled in H'.
  pose proof (filled_upto_shaped _ _ _ _ _ H) as Hsh.
  pose proof (filled_upto_shaped _ _ _ _ _ H') as Hsh'. simpl in Hsh, Hsh'.
  assert (∀ i j : nat, cell (F sw') j i = cell (F sw) i j) as HF.
  { intros i j. rewrite (filled_F_max v _ sw i j H), (filled_F_max v _ sw' j i H').
    destruct (filled_transpose v sc s1 s2 og eg sw sw' H H' Hsym i j)
      as (-> & -> & ->). lia. }
  split; [|done]. unfold getMax. apply Z.le_antisymm.
  - destruct (frame_max_attained _ _ (F sw') (sh_F _ _ _ Hsh'))
      as (j & i & Hj & Hi & <-); [lia|lia|].
    rewrite HF. by apply (frame_max_upper _ _ (F sw) i j (sh_F _ _ _ Hsh)).
  - destruct (frame_max_attained _ _ (F sw) (sh_F _ _ _ Hsh))
      as (i & j & Hi & Hj & <-); [lia|lia|].
    rewrite <- HF. by apply (frame_max_upper _ _ (F sw') j i (sh_F _ _ _ Hsh')).
Qed.

Lemma best_score_symmetric_witness :
  getMax (filled_of main_py (init (simple_score 2 (-1)) (chars "AGT")
                               (chars "ACGT") (-2) (-1)))
    = getMax (filled_of main_py acgt_agt) ∧
  ∀ i j : nat,
    cell (F (filled_of main_py (init (simple_score 2 (-1)) (chars "AGT")
                                  (chars "ACGT") (-2) (-1)))) j i
    = cell (F (filled_of main_py acgt_agt)) i j.
Proof.
  apply (best_score_symmetric main_py (simple_score 2 (-1)) (chars "ACGT")
           (chars "AGT") (-2) (-1)).
  - vm_compute. reflexivity.
  - vm_compute. reflexivity.
  - intros c1 c2 _ _. unfold simple_score.
    destruct (Ascii.eqb_spec c1 c2) as [->|Hne].
    + by rewrite Ascii.eqb_refl.
    + destruct (Ascii.eqb_spec c2 c1); [congruence|done].
Defined.

(** ** The two scripts against each other *)






(** Without the condition X10 fails: ["ABCXDEF"] against ["ABCYDEF"],
    match 10 except [E]-[E] [2^63 - 20], mismatch -100, open -2, extend -1.
    In [main.py] the sum stored for the pair of [E]s wraps below 0 and the
    best score is 42; [main_2.py] reaches that pair with a smaller score,
    the sum fits, and its best score is [2^63 - 10]. *)
Example policy_scores_ordered_needs_room :
  getMax (filled_of main_py abcxdef_wide) = 42 ∧
  getMax (filled_of main_2_py abcxdef_wide) = 9223372036854775798.
Proof. vm_compute. split; reflexivity. Qed.

(** ** Filling twice *)

Lemma upd_same (R C : nat) (m : matrix) (i j : nat) :
  shape R C m → (i < R)%nat → (j < C)%nat → upd m i j (cell m i j) = m.
Proof.
  intros Hs Hi Hj.
  destruct (shape_lookup R C m i j Hs Hi Hj) as (row & Hrow & Hx).
  unfold upd. apply list_eq. intros k.
  destruct (decide (k = i)) as [->|Hne].
  - rewrite list_lookup_alter_eq, Hrow. simpl. f_equal.
    by apply list_insert_id.
  - by rewrite list_lookup_alter_ne.
Qed.

Lemma fillCell_at_fixed (R C : nat) (v : variant) (sw : SWMatrix) (s : Z)
    (i j : nat) (c1 c2 : ascii) :
  shaped R C sw → (S i < R)%nat → (S j < C)%nat →
  seq1 sw !! S j = Some c1 → seq2 sw !! S i = Some c2 →
  score sw c1 c2 = Some s → cell_ok v sw i j →
  fillCell_at v sw s i j = sw.
Proof.
  intros Hsh Hi Hj H1 H2 Hs
    (d1 & d2 & s' & D1 & D2 & Hs' & HM & HTM & HIx & HTIx & HIy & HTIy & HF & _).
  assert (d1 = c1) as -> by congruence. assert (d2 = c2) as -> by congruence.
  assert (s' = s) as -> by congruence.
  unfold fillCell_at. rewrite <- HM, <- HTM, <- HIx, <- HTIx, <- HIy, <- HTIy, <- HF.
  destruct Hsh.
  rewrite !(upd_same R C) by done. by destruct sw.
Qed.

(** X11.  Filling is idempotent: [fillMatrix] run again on the object it
    has filled returns and leaves every frame as it is. *)
Theorem fillMatrix_idempotent (v : variant) (sc : ascii → ascii → option Z)
    (s1 s2 : list ascii) (og eg : Z) (sw : SWMatrix) :
  fillMatrix v (init sc s1 s2 og eg) = Ok sw →
  fillMatrix v sw = Ok sw.
Proof.
  intros H. apply fillMatrix_filled in H.
  pose proof (filled_upto_shaped _ _ _ _ _ H) as Hsh. simpl in Hsh.
  unfold fillMatrix, len.
  rewrite (sh_seq2 _ _ _ Hsh), py_range_from_1.
  destruct (for_each_seq_total (fun _ t => t = sw)
    (fun i sw => for_each (py_range 1 (Z.of_nat (length (seq1 sw))))
                   (fun j sw => fillCell v i j sw) sw)
    (length s2) 1 sw eq_refl) as (r & Hr & ->); [|done].
  intros i t Hi ->. destruct i as [|i]; [lia|].
  rewrite (sh_seq1 _ _ _ Hsh), py_range_from_1.
  destruct (for_each_seq_total (fun _ t => t = sw)
    (fun j sw => fillCell v (Z.of_nat (S i)) j sw)
    (length s1) 1 sw eq_refl) as (r & Hr & ->); [|by exists sw].
  intros j t Hj ->. destruct j as [|j]; [lia|].
  destruct (lookup_lt_is_Some_2 (seq1 sw) (S j)) as [c1 H1];
    [rewrite (sh_seq1 _ _ _ Hsh); lia|].
  destruct (lookup_lt_is_Some_2 (seq2 sw) (S i)) as [c2 H2];
    [rewrite (sh_seq2 _ _ _ Hsh); lia|].
  pose proof (filled_inside v _ sw i j H) as Hok. simpl in Hok.
  specialize (Hok ltac:(lia) ltac:(lia)).
  exists sw. split; [|done].
  rewrite (fillCell_spec _ _ v sw i j c1 c2 Hsh) by (done || lia).
  destruct Hok as (d1 & d2 & s & D1 & D2 & Hs & Hrest).
  assert (d1 = c1) as -> by congruence. assert (d2 = c2) as -> by congruence.
  unfold score_at. rewrite Hs. rsimpl.
  pose proof Hrest as (_ & _ & _ & _ & _ & _ & _ & Rs & Ro & Re).
  rewrite Rs, Ro, Re. cbn [andb]. f_equal.
  apply (fillCell_at_fixed _ _ v sw s i j c1 c2 Hsh); try done; try lia.
  exists c1, c2, s. done.
Qed.

Lemma fillMatrix_idempotent_witness :
  fillMatrix main_py acgt_agt = Ok (filled_of main_py acgt_agt) ∧
  fillMatrix main_py (filled_of main_py acgt_agt) = Ok (filled_of main_py acgt_agt).
Proof.
  split; [vm_compute; reflexivity|].
  apply (fillMatrix_idempotent main_py (simple_score 2 (-1)) (chars "ACGT")
           (chars "AGT") (-2) (-1)).
  vm_compute. reflexivity.
Defined.

(** ** Where the best alignment ends *)

(** X12.  With penalties that are not positive and a positive best score,
    the best cell is an inner cell whose two symbols have a positive
    similarity: the alignment that [traceback] reports ends on a pair that
    scores. *)
Theorem best_cell_scores (v : variant) (sc : ascii → ascii → option Z)
    (s1 s2 : list ascii) (og eg : Z) (sw : SWMatrix) :
  fillMatrix v (init sc s1 s2 og eg) = Ok sw → og ≤ 0 → eg ≤ 0 →
  0 < getMax sw →
  ∃ (i j : nat) (c1 c2 : ascii) (m : Z),
    getMaxCoord sw = (S i, S j) ∧
    s1 !! j = Some c1 ∧ s2 !! i = Some c2 ∧ sc c1 c2 = Some m ∧ 0 < m.
Proof.
  intros H Hog Heg Hpos.
  pose proof (best_cell_held_by_M v sc s1 s2 og eg sw H Hog Heg) as HM.
  pose proof (fillMatrix_filled _ _ _ _ _ _ _ H) as Hf.
  pose proof (filled_upto_shaped _ _ _ _ _ Hf) as Hsh. simpl in Hsh.
  pose proof (sh_F _ _ _ Hsh) as HF.
  destruct (getMaxCoord_in_range _ _ sw HF) as [Hi Hj]; [lia|lia|].
  destruct (getMaxCoord_spec _ _ sw HF) as (row & Hrow & Hx & Hrows & _);
    [lia|lia|].
  rewrite (iat_cell _ _ _ _ _ (sh_M _ _ _ Hsh)) in HM by done.
  assert (cell (M sw) (getMaxCoord sw).1 (getMaxCoord sw).2 = getMax sw)
    as HM' by congruence.
  clear HM. rename HM' into HM.
  destruct (getMaxCoord sw) as [i j]. cbn [fst snd] in *.
  destruct i as [|i].
  { pose proof (filled_border v _ sw 0 j Hf ltac:(by left)) as Hz.
    unfold cells in Hz. injection Hz as _ Hz _ _ _ _ _. lia. }
  destruct j as [|j].
  { pose proof (filled_border v _ sw (S i) 0 Hf ltac:(by right)) as Hz.
    unfold cells in Hz. injection Hz as _ Hz _ _ _ _ _. lia. }
  destruct (filled_inside v _ sw i j Hf) as
    (c1 & c2 & m & H1 & H2 & Hm & HMeq & _ & _ & _ & _ & _ & _ & Rs & _);
    [simpl; lia|simpl; lia|].
  apply in_int64_spec in Rs.
  rewrite (fu_seq1 _ _ _ _ _ Hf) in H1. rewrite (fu_seq2 _ _ _ _ _ Hf) in H2.
  rewrite (fu_score _ _ _ _ _ Hf) in Hm. simpl in H1, H2, Hm.
  exists i, j, c1, c2, m. do 4 (split; [done|]).
  destruct (shape_lookup _ _ (F sw) i j HF) as (row' & Hrow' & Hx');
    [lia|lia|].
  assert (cell (F sw) i j < getMax sw) as Hlt.
  { apply (Hrows i row'); [lia|done|]. apply list_elem_of_lookup. eauto. }
  pose proof (filled_F_max v _ sw i j Hf) as EF.
  pose proof (filled_nonneg v _ sw i j Hf) as (_ & N1 & N2 & N3).
  destruct (Z_lt_le_dec 0 m) as [|Hle]; [done|exfalso].
  pose proof (wrap64_sum_le (cell (M sw) i j) m (cell (F sw) i j)
                ltac:(lia) ltac:(lia) ltac:(lia)).
  pose proof (wrap64_sum_le (cell (Ix sw) i j) m (cell (F sw) i j)
                ltac:(lia) ltac:(lia) ltac:(lia)).
  pose proof (wrap64_sum_le (cell (Iy sw) i j) m (cell (F sw) i j)
                ltac:(lia) ltac:(lia) ltac:(lia)).
  rewrite HMeq in HM. unfold candsM in HM. cbn [series_max fold_left] in HM.
  lia.
Qed.

Lemma best_cell_scores_witness :
  ∃ sw : SWMatrix,
    fillMatrix main_py acgt_agt = Ok sw ∧
    ∃ (i j : nat) (c1 c2 : ascii) (m : Z),
      getMaxCoord sw = (S i, S j) ∧
      chars "ACGT" !! j = Some c1 ∧ chars "AGT" !! i = Some c2 ∧
      simple_score 2 (-1) c1 c2 = Some m ∧ 0 < m.
Proof.
  exists (filled_of main_py acgt_agt).
  split; [vm_compute; reflexivity|].
  apply (best_cell_scores main_py (simple_score 2 (-1)) (chars "ACGT")
           (chars "AGT") (-2) (-1)); [vm_compute; reflexivity|lia|lia|].
  vm_compute. reflexivity.
Defined.

(** ** The display when nothing scores *)

Lemma tab_lookup_nat (s : list ascii) (j : nat) :
  py_nth (tab :: s) (Z.of_nat (S j)) =
  match s !! j with Some c => Ok c | None => Raise IndexError end.
Proof. by rewrite py_nth_nat. Qed.

(** [completeBack] from row [i], column [j] (both at least 1): the rest of
    each sequence, then blanks up to the longer of the two rests. *)
Lemma completeBack_loop_exact (sw : SWMatrix) (s1 s2 : list ascii) :
  seq1 sw = tab :: s1 → seq2 sw = tab :: s2 →
  ∀ (fuel i j : nat) (ls : lines),
    fuel = ((length s2 - i) `max` (length s1 - j))%nat →
    completeBack_loop fuel sw (Z.of_nat (S i)) (Z.of_nat (S j)) ls =
    Ok {| matchStr1 := matchStr1 ls ++ drop j s1
                         ++ replicate (fuel - (length s1 - j)) " "%char;
          matchLine := matchLine ls ++ replicate fuel " "%char;
          matchStr2 := matchStr2 ls ++ drop i s2
                         ++ replicate (fuel - (length s2 - i)) " "%char |}.
Proof.
  intros E1 E2.
  assert (len (seq1 sw) = Z.of_nat (S (length s1))) as L1
    by (unfold len; by rewrite E1).
  assert (len (seq2 sw) = Z.of_nat (S (length s2))) as L2
    by (unfold len; by rewrite E2).
  induction fuel as [|fuel IH]; intros i j ls Hf; cbn [completeBack_loop];
    rewrite L1, L2.
  - destruct (Z.ltb_spec (Z.of_nat (S i)) (Z.of_nat (S (length s2)))); [lia|].
    destruct (Z.ltb_spec (Z.of_nat (S j)) (Z.of_nat (S (length s1)))); [lia|].
    cbn [orb]. rewrite !drop_ge by lia. cbn. rewrite !app_nil_r. by destruct ls.
  - replace (Z.of_nat (S i) + 1) with (Z.of_nat (S (S i))) by lia.
    replace (Z.of_nat (S j) + 1) with (Z.of_nat (S (S j))) by lia.
    rewrite E1, E2, !tab_lookup_nat.
    destruct (Z.ltb_spec (Z.of_nat (S i)) (Z.of_nat (S (length s2)))) as [Hi|Hi];
      destruct (Z.ltb_spec (Z.of_nat (S j)) (Z.of_nat (S (length s1)))) as [Hj|Hj];
      cbn [orb]; [| | |lia].
    + destruct (lookup_lt_is_Some_2 s1 j) as [c1 H1]; [lia|].
      destruct (lookup_lt_is_Some_2 s2 i) as [c2 H2]; [lia|].
      rewrite H1, H2. rsimpl. rewrite IH by lia.
      cbn [matchStr1 matchLine matchStr2]. unfold append.
      rewrite (drop_S _ _ _ H1), (drop_S _ _ _ H2).
      replace (fuel - (length s1 - S j))%nat with (S fuel - (length s1 - j))%nat
        by lia.
      replace (fuel - (length s2 - S i))%nat with (S fuel - (length s2 - i))%nat
        by lia.
      rewrite <- !app_assoc. done.
    + destruct (lookup_lt_is_Some_2 s2 i) as [c2 H2]; [lia|].
      rewrite H2. rsimpl. rewrite IH by lia.
      cbn [matchStr1 matchLine matchStr2]. unfold append.
      rewrite (drop_S _ _ _ H2). rewrite !(drop_ge s1) by lia.
      replace (length s1 - j)%nat with 0%nat by lia.
      replace (length s1 - S j)%nat with 0%nat by lia.
      replace (fuel - (length s2 - S i))%nat with (S fuel - (length s2 - i))%nat
        by lia.
      rewrite !Nat.sub_0_r. rewrite <- !app_assoc. done.
    + destruct (lookup_lt_is_Some_2 s1 j) as [c1 H1]; [lia|].
      rewrite H1. rsimpl. rewrite IH by lia.
      cbn [matchStr1 matchLine matchStr2]. unfold append.
      rewrite (drop_S _ _ _ H1). rewrite !(drop_ge s2) by lia.
      replace (length s2 - i)%nat with 0%nat by lia.
      replace (length s2 - S i)%nat with 0%nat by lia.
      replace (fuel - (length s1 - S j))%nat with (S fuel - (length s1 - j))%nat
        by lia.
      rewrite !Nat.sub_0_r. rewrite <- !app_assoc. done.
Qed.

Lemma filled_zero_best (v : variant) (sc : ascii → ascii → option Z)
    (s1 s2 : list ascii) (og eg : Z) (sw : SWMatrix) :
  filled v (init sc s1 s2 og eg) sw → getMax sw = 0 →
  getMaxCoord sw = (0%nat, 0%nat).
Proof.
  intros Hf Hz.
  pose proof (filled_upto_shaped _ _ _ _ _ Hf) as Hsh. simpl in Hsh.
  pose proof (sh_F _ _ _ Hsh) as HF.
  destruct (getMaxCoord_spec _ _ sw HF) as (row & Hrow & Hx & Hrows & Hcols);
    [lia|lia|].
  destruct (getMaxCoord sw) as [i j]. cbn [fst snd] in *.
  assert (i = 0%nat) as ->.
  { destruct i as [|i]; [done|]. exfalso.
    destruct (shape_lookup _ _ (F sw) 0 0 HF) as (r0 & Hr0 & Hx0); [lia|lia|].
    pose proof (Hrows 0%nat r0 (cell (F sw) 0 0) ltac:(lia) Hr0) as Hlt.
    pose proof (filled_nonneg v _ sw 0 0 Hf) as (? & _).
    assert (cell (F sw) 0 0 < getMax sw); [|lia].
    apply Hlt. apply list_elem_of_lookup. eauto. }
  assert (j = 0%nat) as ->; [|done].
  destruct j as [|j]; [done|]. exfalso.
  destruct (shape_lookup _ _ (F sw) 0 0 HF) as (r0 & Hr0 & Hx0); [lia|lia|].
  assert (r0 = row) as -> by congruence.
  pose proof (Hcols 0%nat (cell (F sw) 0 0) ltac:(lia) Hx0).
  pose proof (filled_nonneg v _ sw 0 0 Hf) as (? & _). lia.
Qed.

(** X13.  When the best score is 0 (no pair of symbols scores) nothing is
    aligned, and [traceback] shows the empty brackets followed by the two
    sequences side by side, the shorter one padded with blanks. *)
Theorem traceback_nothing_scores (v : variant) (sc : ascii → ascii → option Z)
    (s1 s2 : list ascii) (og eg : Z) (sw : SWMatrix) (x y : Z) :
  fillMatrix v (init sc s1 s2 og eg) = Ok sw → getMax sw = 0 →
  traceback sw x y =
  Ok {| matchStr1 := chars "()" ++ s1
          ++ replicate ((length s2 `max` length s1) - length s1) " "%char;
        matchLine := replicate (2 + (length s2 `max` length s1)) " "%char;
        matchStr2 := chars "()" ++ s2
          ++ replicate ((length s2 `max` length s1) - length s2) " "%char |}.
Proof.
  intros H Hz. apply fillMatrix_filled in H.
  pose proof (filled_upto_shaped _ _ _ _ _ H) as Hsh. simpl in Hsh.
  assert (seq1 sw = tab :: s1) as E1 by (by rewrite (fu_seq1 _ _ _ _ _ H)).
  assert (seq2 sw = tab :: s2) as E2 by (by rewrite (fu_seq2 _ _ _ _ _ H)).
  pose proof (filled_zero_best v sc s1 s2 og eg sw H Hz) as Hc.
  pose proof (filled_border v _ sw 0 0 H ltac:(by left)) as Hb.
  unfold cells in Hb. injection Hb as _ HM0 _ _ _ _ _.
  unfold traceback. rewrite traceback_walk_start, Hc. cbn [fst snd].
  change (Z.of_nat 0) with 0.
  assert (iat (M sw) 0 0 = Ok 0) as ->.
  { change 0 with (Z.of_nat 0) at 1 2.
    rewrite (iat_cell _ _ _ _ _ (sh_M _ _ _ Hsh)) by lia. by rewrite HM0. }
  rsimpl.
  assert (traceback_loop (traceback_fuel sw) sw
            {| state := 0; wi := 0; wj := 0; currVal := 0; out := no_lines |}
          = Ok {| state := 0; wi := 0; wj := 0; currVal := 0; out := no_lines |})
    as -> by (by destruct (traceback_fuel sw)).
  rsimpl. cbn [wi wj out]. unfold completeFront.
  change (Z.to_nat (0 `max` 0)) with 0%nat.
  cbn [completeFront_loop]. change (0 <? 0) with false. cbn [orb]. rsimpl.
  unfold completeBack, len. rewrite E1, E2. cbn [length].
  assert (Z.to_nat ((Z.of_nat (S (length s2)) - (0 + 1))
                      `max` (Z.of_nat (S (length s1)) - (0 + 1)))
          = ((length s2 - 0) `max` (length s1 - 0))%nat) as -> by lia.
  change (0 + 1) with (Z.of_nat 1).
  rewrite (completeBack_loop_exact sw s1 s2 E1 E2) by done.
  cbn. rewrite !Nat.sub_0_r. done.
Qed.

Lemma traceback_nothing_scores_witness :
  traceback (filled_of main_py (init (simple_score 2 (-1)) (chars "AC")
                                  (chars "GTT") (-2) (-1))) 0 0 =
  Ok {| matchStr1 := chars "()AC "; matchLine := chars "     ";
        matchStr2 := chars "()GTT" |}.
Proof.
  apply (traceback_nothing_scores main_py (simple_score 2 (-1)) (chars "AC")
           (chars "GTT") (-2) (-1)); vm_compute; reflexivity.
Defined.
